(** * WaveformPlayer: a shallow embedding of [src/components/waveform-player.tsx]

    The component decodes a base64 audio payload, draws a static bar chart of
    its amplitude envelope on a canvas, and while the [isPlaying] prop is true
    plays the buffer through a Web Audio graph and redraws the chart once per
    animation frame with a played/unplayed colouring and a playhead.

    Modelling choices.
    - A JavaScript number is an IEEE-754 binary64 value, written as the
      rational ([Q]) it denotes; every [+], [-], [*] and [/] of the source
      is the exact operation followed by [JS.rnd], rounding to the nearest
      double with ties to even, subnormal numbers included, and a decimal
      literal that is not a double is rounded in the same way.  [%],
      [Math.floor], [Math.abs], [Math.max] and comparisons are exact, as
      they are in IEEE-754.  Loop counters and array lengths are integers
      ([Z]); they stay below 2^53, where [++] is exact.  Results of
      magnitude 2^1024 and more (JavaScript's infinities), NaN and the sign
      of zero are outside the model; reading a typed array out of range
      (JavaScript's [undefined], which compares false with everything after
      [Math.abs]) is written out.
    - The component's refs, its React state and the part of the browser it
      talks to (canvas command stream, animation-frame queue, audio clock,
      buffer source nodes, promise rejections) are the fields of one record
      [World]; the component's functions are state transformers that may
      throw, and browser events are the constructors of [Event].
    - What the browser does is taken from the HTML and Web Audio
      specifications; the points on which engines differ or that depend on
      the input (whether [stop()] throws, the state of a new context, what
      [atob] and [decodeAudioData] accept) are fields of [Platform].
    - A player is given its payload when it mounts and keeps it until it
      unmounts: [Event] has no change of the [audioBase64] prop.  The page
      renders the player only while it has a result, and takes the result
      away before it asks for another one, as shown with the page below.
    - The page that owns the player and the route it posts to (the two
      documents of [src/unnamed/part_000]) are the modules [Page] and
      [Route]: a string is its sequence of UTF-16 code units, [Date.now()]
      is an argument, the route's module-level variables are the record
      [Route.Limits], and the two remote calls of [POST] are a field of
      [Route.Env]. *)

From Stdlib Require Import QArith Qround Qabs Qpower Qreduction ZArith Lia Lqa.
From Stdlib Require Import String Ascii List Sorted.
From stdpp Require Import base option list gmap.

Import ListNotations.
Local Open Scope Q_scope.

(** ** JavaScript numbers and [Math] *)

Module JS.

(** *** Binary64 *)

Definition pow2 (e : Z) : Q := 2 ^ e.

(** The integer part of the binary logarithm of a positive rational. *)
Definition ilog2 (x : Q) : Z :=
  let k := (Z.log2 (Qnum x) - Z.log2 (Zpos (Qden x)))%Z in
  if Qle_bool (pow2 k) x then k else (k - 1)%Z.

(** The exponent of the last place of the doubles around [x]: 52 binary
    places below the leading one, and never below that of the subnormal
    numbers. *)
Definition cexp (x : Q) : Z := Z.max (ilog2 (Qred (Qabs x)) - 52) (-1074).

(** The integer nearest to [q]; of two equally near, the even one. *)
Definition rne (q : Q) : Z :=
  let f := Qfloor q in
  match Qcompare (q - inject_Z f) (1 # 2) with
  | Lt => f
  | Gt => (f + 1)%Z
  | Eq => if Z.even f then f else (f + 1)%Z
  end.

Definition rnd_abs (a : Q) : Q := inject_Z (rne (a / pow2 (cexp a))) * pow2 (cexp a).

(** The double nearest to [x]. *)
Definition rnd (x : Q) : Q :=
  Qred (if Qlt_le_dec x 0 then - rnd_abs (- x) else rnd_abs x).

(** [x] is a double. *)
Definition is_double (x : Q) : Prop := rnd x == x.

(** [x + y], [x - y], [x * y], [x / y] *)
Definition add (x y : Q) : Q := rnd (x + y).
Definition sub (x y : Q) : Q := rnd (x - y).
Definition mul (x y : Q) : Q := rnd (x * y).
Definition div (x y : Q) : Q := rnd (x / y).

(** *** [Math] and the operators that do not round *)

Definition Math_floor (x : Q) : Z := Qfloor x.

Definition Math_abs (x : Q) : Q := Qabs x.

Definition Math_max (a b : Q) : Q := if Qlt_le_dec a b then b else a.

(** [x > y] *)
Definition gt (x y : Q) : bool := if Qlt_le_dec y x then true else false.

(** [x <= y] *)
Definition le (x y : Q) : bool := Qle_bool x y.

(** [x || 1] on numbers: [0] is the falsy one. *)
Definition or_1 (x : Q) : Q := if Qeq_bool x 0 then 1 else x.

(** [x % y] for numbers: the remainder has the sign of the dividend, and it
    is exact. *)
Definition rem (x y : Q) : Q :=
  let q := x / y in
  let t := if Qlt_le_dec q 0 then Qceiling q else Qfloor q in
  x - inject_Z t * y.

(** [for (let j = lo; j < hi; j++) s = body(j, s)] *)
Fixpoint for_loop {S : Type} (n : nat) (j : Z) (body : Z -> S -> S) (s : S) : S :=
  match n with
  | O => s
  | Datatypes.S n' => for_loop n' (j + 1)%Z body (body j s)
  end.

Definition for_range {S : Type} (lo hi : Z) (body : Z -> S -> S) (s : S) : S :=
  for_loop (Z.to_nat (hi - lo)) lo body s.

(** [data[j]] on a typed array: [None] stands for [undefined]. *)
Definition index (data : list Q) (j : Z) : option Q :=
  if (j <? 0)%Z then None else data !! Z.to_nat j.

(** *** Numbers as text *)

Definition digit (d : Z) : ascii := ascii_of_nat (48 + Z.to_nat d).

(** The decimal digits of a non-negative integer, put in front of [acc];
    [fuel] bounds their number. *)
Fixpoint digits (fuel : nat) (n : Z) (acc : string) : string :=
  match fuel with
  | O => acc
  | Datatypes.S fuel' =>
      let acc' := String (digit (n mod 10)) acc in
      if (n <? 10)%Z then acc' else digits fuel' (n / 10)%Z acc'
  end.

(** The decimal numeral of a non-negative integer. *)
Definition decimal (n : Z) : string :=
  digits (Datatypes.S (Z.to_nat (Z.log2 n))) n EmptyString.

(** How many decimal digits a non-negative integer has. *)
Fixpoint digit_count (fuel : nat) (n : Z) : Z :=
  match fuel with
  | O => 1
  | Datatypes.S fuel' => if (n <? 10)%Z then 1 else (1 + digit_count fuel' (n / 10))%Z
  end.

(** Number::toString prints the decimal numeral with the fewest significant
    digits among those that denote the Number [x], and of several the one
    nearest to [x] (of two equally near, the one whose last digit is even).
    For an integer [x] the search goes through the digit counts upwards:
    [p] is the weight of the last significant digit, [lo] and [hi] are the
    multiples of [p] next to [x], and a numeral denotes [x] when it rounds
    to [x]. *)
Fixpoint shortest (fuel : nat) (p : Z) (x : Z) : Z :=
  match fuel with
  | O => x
  | Datatypes.S fuel' =>
      let lo := (x / p * p)%Z in
      let hi := (lo + p)%Z in
      let ok_lo := Qeq_bool (rnd (inject_Z lo)) (inject_Z x) in
      let ok_hi := Qeq_bool (rnd (inject_Z hi)) (inject_Z x) in
      if ok_lo && ok_hi then
        if (x - lo <? hi - x)%Z then lo
        else if (hi - x <? x - lo)%Z then hi
        else if Z.even (x / p) then lo else hi
      else if ok_lo then lo
      else if ok_hi then hi
      else shortest fuel' (p / 10)%Z x
  end.

Fixpoint strip_zeros (fuel : nat) (n : Z) : Z :=
  match fuel with
  | O => n
  | Datatypes.S fuel' => if (n mod 10 =? 0)%Z then strip_zeros fuel' (n / 10)%Z else n
  end.

(** The form d.ddde+x, used from 10^21 on. *)
Definition exponential (v : Z) : string :=
  let n := digit_count (Datatypes.S (Z.to_nat (Z.log2 v))) v in
  match decimal (strip_zeros (Z.to_nat n) v) with
  | String d EmptyString => String d (append "e+" (decimal (n - 1)))
  | String d rest => String d (String "." (append rest (append "e+" (decimal (n - 1)))))
  | EmptyString => EmptyString
  end.

(** [Number.prototype.toString()], also what a template literal does, on an
    integer-valued Number. *)
Definition toString (n : Z) : string :=
  let a := Z.abs n in
  let k := digit_count (Datatypes.S (Z.to_nat (Z.log2 a))) a in
  let v := shortest (Z.to_nat k) (10 ^ (k - 1))%Z a in
  let text := if (v <? 10 ^ 21)%Z then decimal v else exponential v in
  if (n <? 0)%Z then String "-" text else text.

Fixpoint repeat_string (n : nat) (fill : string) : string :=
  match n with
  | O => EmptyString
  | Datatypes.S n' => append fill (repeat_string n' fill)
  end.

(** [s.padStart(target, fill)] for a one-character [fill]. *)
Definition padStart (target : nat) (fill : string) (s : string) : string :=
  append (repeat_string (target - String.length s) fill) s.

End JS.

Arguments JS.rnd : simpl never.
Arguments JS.add : simpl never.
Arguments JS.sub : simpl never.
Arguments JS.mul : simpl never.
Arguments JS.div : simpl never.
Arguments JS.toString : simpl never.

(** ** The canvas: bounding rectangle and the commands issued on its 2D context *)

Record DOMRect := mkRect { rect_width : Q; rect_height : Q }.

Inductive DrawOp :=
| SetSize (w h : Q)                                      (* canvas.width = w; canvas.height = h *)
| Scale (sx sy : Q)                                      (* ctx.scale(sx, sy) *)
| ClearRect (x y w h : Q)                                (* ctx.clearRect(x, y, w, h) *)
| FillRoundRect (fillStyle : string) (x y w h r : Q).    (* fillStyle = ..; beginPath(); roundRect(..); fill() *)

Record Canvas := mkCanvas {
  boundingClientRect : DOMRect;
  context2d : bool;               (* does getContext("2d") give a context *)
  ops : list DrawOp               (* everything drawn so far, oldest first *)
}.

Definition played_style : string := "oklch(0.59 0.26 323)".
Definition neutral_style : string := "oklch(0.708 0 0 / 0.3)".

(** ** Web Audio objects *)

Record AudioBuffer := mkBuffer {
  channelData0 : list Q;          (* buffer.getChannelData(0) *)
  buffer_duration : Q             (* buffer.duration *)
}.

Inductive ContextState := Suspended | Running | Closed.

Record AudioContext := mkContext {
  ctx_currentTime : Q;
  ctx_state : ContextState
}.

Record AnalyserNode := mkAnalyser { fftSize : Z }.

Inductive SourceStatus :=
| Created          (* start() not called yet *)
| Playing          (* started, still producing sound *)
| EndQueued        (* finished or stopped; the ended event is not dispatched yet *)
| Ended.           (* the ended event has been dispatched *)

Record SourceNode := mkSource {
  node_buffer : AudioBuffer;
  node_startedAt : Q;
  node_status : SourceStatus;
  node_onended : bool             (* is the component's onended handler attached *)
}.

Inductive DOMException := InvalidStateError | InvalidCharacterError | EncodingError.

(** Calls the component makes on its owner, and the two call sites of
    [setCurrentTime], in the order they happen. *)
Inductive Call :=
| FrameElapsed (elapsed : Q)      (* setCurrentTime(elapsed) in drawLiveWaveform *)
| EndedNotified                   (* onEnded() in the onended handler *)
| ElapsedReset.                   (* setCurrentTime(0) in the onended handler *)

Inductive Lifecycle := Fresh | Mounted | Unmounted.

(** ** The component and its browser environment *)

Record World := mkWorld {
  (* refs *)
  canvasRef : option Canvas;
  audioContextRef : option AudioContext;
  analyserRef : option AnalyserNode;
  sourceRef : option nat;         (* index into [sources] *)
  animationRef : nat;
  startTimeRef : Q;
  audioBufferRef : option AudioBuffer;
  (* React state and props *)
  duration : Q;
  currentTime : Q;
  isPlaying : bool;
  lifecycle : Lifecycle;
  (* browser *)
  devicePixelRatio : Q;
  rafPending : gset nat;          (* animation-frame handles not yet run or cancelled *)
  rafNext : nat;
  sources : list SourceNode;      (* every buffer source node created so far *)
  pendingDecode : option (list Byte.byte);   (* the decodeAudioData promise, not settled *)
  (* observations *)
  calls : list Call;
  unhandled : list DOMException   (* uncaught exceptions and unhandled rejections *)
}.

Inductive outcome := Returned (w : World) | Threw (e : DOMException) (w : World).

Definition bind (o : outcome) (k : World -> outcome) : outcome :=
  match o with
  | Returned w => k w
  | Threw e w => Threw e w
  end.

(** [try { o } catch { handler }] *)
Definition try_catch (o : outcome) (handler : World -> outcome) : outcome :=
  match o with
  | Returned w => Returned w
  | Threw _ w => handler w
  end.

Notation "'let*' w := o 'in' k" := (bind o (fun w => k))
  (at level 10, w name, o at level 100, k at level 200).

(** What the event loop does with the result of a callback. *)
Definition world_of (o : outcome) : World :=
  match o with
  | Returned w => w
  | Threw _ w => w
  end.

(** Field updates: [set_f v w] is [w] with field [f] replaced by [v]. *)

Definition set_canvasRef (v : option Canvas) (w : World) : World :=
  mkWorld v (audioContextRef w) (analyserRef w) (sourceRef w) (animationRef w) (startTimeRef w)
    (audioBufferRef w) (duration w) (currentTime w) (isPlaying w) (lifecycle w)
    (devicePixelRatio w) (rafPending w) (rafNext w) (sources w) (pendingDecode w) (calls w)
    (unhandled w).

Definition set_audioContextRef (v : option AudioContext) (w : World) : World :=
  mkWorld (canvasRef w) v (analyserRef w) (sourceRef w) (animationRef w) (startTimeRef w)
    (audioBufferRef w) (duration w) (currentTime w) (isPlaying w) (lifecycle w)
    (devicePixelRatio w) (rafPending w) (rafNext w) (sources w) (pendingDecode w) (calls w)
    (unhandled w).

Definition set_analyserRef (v : option AnalyserNode) (w : World) : World :=
  mkWorld (canvasRef w) (audioContextRef w) v (sourceRef w) (animationRef w) (startTimeRef w)
    (audioBufferRef w) (duration w) (currentTime w) (isPlaying w) (lifecycle w)
    (devicePixelRatio w) (rafPending w) (rafNext w) (sources w) (pendingDecode w) (calls w)
    (unhandled w).

Definition set_sourceRef (v : option nat) (w : World) : World :=
  mkWorld (canvasRef w) (audioContextRef w) (analyserRef w) v (animationRef w) (startTimeRef w)
    (audioBufferRef w) (duration w) (currentTime w) (isPlaying w) (lifecycle w)
    (devicePixelRatio w) (rafPending w) (rafNext w) (sources w) (pendingDecode w) (calls w)
    (unhandled w).

Definition set_animationRef (v : nat) (w : World) : World :=
  mkWorld (canvasRef w) (audioContextRef w) (analyserRef w) (sourceRef w) v (startTimeRef w)
    (audioBufferRef w) (duration w) (currentTime w) (isPlaying w) (lifecycle w)
    (devicePixelRatio w) (rafPending w) (rafNext w) (sources w) (pendingDecode w) (calls w)
    (unhandled w).

Definition set_startTimeRef (v : Q) (w : World) : World :=
  mkWorld (canvasRef w) (audioContextRef w) (analyserRef w) (sourceRef w) (animationRef w) v
    (audioBufferRef w) (duration w) (currentTime w) (isPlaying w) (lifecycle w)
    (devicePixelRatio w) (rafPending w) (rafNext w) (sources w) (pendingDecode w) (calls w)
    (unhandled w).

Definition set_audioBufferRef (v : option AudioBuffer) (w : World) : World :=
  mkWorld (canvasRef w) (audioContextRef w) (analyserRef w) (sourceRef w) (animationRef w)
    (startTimeRef w) v (duration w) (currentTime w) (isPlaying w) (lifecycle w)
    (devicePixelRatio w) (rafPending w) (rafNext w) (sources w) (pendingDecode w) (calls w)
    (unhandled w).

Definition set_duration (v : Q) (w : World) : World :=
  mkWorld (canvasRef w) (audioContextRef w) (analyserRef w) (sourceRef w) (animationRef w)
    (startTimeRef w) (audioBufferRef w) v (currentTime w) (isPlaying w) (lifecycle w)
    (devicePixelRatio w) (rafPending w) (rafNext w) (sources w) (pendingDecode w) (calls w)
    (unhandled w).

Definition set_currentTime (v : Q) (w : World) : World :=
  mkWorld (canvasRef w) (audioContextRef w) (analyserRef w) (sourceRef w) (animationRef w)
    (startTimeRef w) (audioBufferRef w) (duration w) v (isPlaying w) (lifecycle w)
    (devicePixelRatio w) (rafPending w) (rafNext w) (sources w) (pendingDecode w) (calls w)
    (unhandled w).

Definition set_isPlaying (v : bool) (w : World) : World :=
  mkWorld (canvasRef w) (audioContextRef w) (analyserRef w) (sourceRef w) (animationRef w)
    (startTimeRef w) (audioBufferRef w) (duration w) (currentTime w) v (lifecycle w)
    (devicePixelRatio w) (rafPending w) (rafNext w) (sources w) (pendingDecode w) (calls w)
    (unhandled w).

Definition set_lifecycle (v : Lifecycle) (w : World) : World :=
  mkWorld (canvasRef w) (audioContextRef w) (analyserRef w) (sourceRef w) (animationRef w)
    (startTimeRef w) (audioBufferRef w) (duration w) (currentTime w) (isPlaying w) v
    (devicePixelRatio w) (rafPending w) (rafNext w) (sources w) (pendingDecode w) (calls w)
    (unhandled w).

Definition set_devicePixelRatio (v : Q) (w : World) : World :=
  mkWorld (canvasRef w) (audioContextRef w) (analyserRef w) (sourceRef w) (animationRef w)
    (startTimeRef w) (audioBufferRef w) (duration w) (currentTime w) (isPlaying w) (lifecycle w)
    v (rafPending w) (rafNext w) (sources w) (pendingDecode w) (calls w) (unhandled w).

Definition set_rafPending (v : gset nat) (w : World) : World :=
  mkWorld (canvasRef w) (audioContextRef w) (analyserRef w) (sourceRef w) (animationRef w)
    (startTimeRef w) (audioBufferRef w) (duration w) (currentTime w) (isPlaying w) (lifecycle w)
    (devicePixelRatio w) v (rafNext w) (sources w) (pendingDecode w) (calls w) (unhandled w).

Definition set_rafNext (v : nat) (w : World) : World :=
  mkWorld (canvasRef w) (audioContextRef w) (analyserRef w) (sourceRef w) (animationRef w)
    (startTimeRef w) (audioBufferRef w) (duration w) (currentTime w) (isPlaying w) (lifecycle w)
    (devicePixelRatio w) (rafPending w) v (sources w) (pendingDecode w) (calls w) (unhandled w).

Definition set_sources (v : list SourceNode) (w : World) : World :=
  mkWorld (canvasRef w) (audioContextRef w) (analyserRef w) (sourceRef w) (animationRef w)
    (startTimeRef w) (audioBufferRef w) (duration w) (currentTime w) (isPlaying w) (lifecycle w)
    (devicePixelRatio w) (rafPending w) (rafNext w) v (pendingDecode w) (calls w) (unhandled w).

Definition set_pendingDecode (v : option (list Byte.byte)) (w : World) : World :=
  mkWorld (canvasRef w) (audioContextRef w) (analyserRef w) (sourceRef w) (animationRef w)
    (startTimeRef w) (audioBufferRef w) (duration w) (currentTime w) (isPlaying w) (lifecycle w)
    (devicePixelRatio w) (rafPending w) (rafNext w) (sources w) v (calls w) (unhandled w).

Definition set_calls (v : list Call) (w : World) : World :=
  mkWorld (canvasRef w) (audioContextRef w) (analyserRef w) (sourceRef w) (animationRef w)
    (startTimeRef w) (audioBufferRef w) (duration w) (currentTime w) (isPlaying w) (lifecycle w)
    (devicePixelRatio w) (rafPending w) (rafNext w) (sources w) (pendingDecode w) v
    (unhandled w).

Definition set_unhandled (v : list DOMException) (w : World) : World :=
  mkWorld (canvasRef w) (audioContextRef w) (analyserRef w) (sourceRef w) (animationRef w)
    (startTimeRef w) (audioBufferRef w) (duration w) (currentTime w) (isPlaying w) (lifecycle w)
    (devicePixelRatio w) (rafPending w) (rafNext w) (sources w) (pendingDecode w) (calls w) v.

(** ** Browser primitives used by the component *)

(** [requestAnimationFrame(cb)]: a fresh handle, queued. *)
Definition requestAnimationFrame (w : World) : nat * World :=
  let h := rafNext w in
  (h, set_rafNext (S h) (set_rafPending ({[h]} ∪ rafPending w) w)).

(** [cancelAnimationFrame(h)]: an unknown handle is ignored. *)
Definition cancelAnimationFrame (h : nat) (w : World) : World :=
  set_rafPending (rafPending w ∖ {[h]}) w.

(** The points on which the component's behaviour depends on the engine or on
    the payload: which strings [atob] accepts ([None]: it throws
    InvalidCharacterError), which byte sequences [decodeAudioData] decodes
    ([None]: the promise is rejected), whether [stop()] throws on a started
    source in a given status (engines that followed early drafts of Web Audio
    threw on a second [stop()]), and the state of a context created without
    a user gesture (suspended under an autoplay policy, running otherwise). *)
Record Platform := mkPlatform {
  atob : string -> option string;
  decodeAudioData : list Byte.byte -> option AudioBuffer;
  stop_throws : SourceStatus -> bool;
  new_context_state : ContextState
}.

Definition set_status (s : SourceStatus) (n : SourceNode) : SourceNode :=
  mkSource (node_buffer n) (node_startedAt n) s (node_onended n).

(** [source.start(0)] at audio time [now]: InvalidStateError when already started. *)
Definition node_start (id : nat) (now : Q) (w : World) : outcome :=
  match sources w !! id with
  | Some n =>
      match node_status n with
      | Created =>
          Returned (set_sources
                      (<[id := mkSource (node_buffer n) now Playing (node_onended n)]> (sources w)) w)
      | _ => Threw InvalidStateError w
      end
  | None => Threw InvalidStateError w
  end.

(** [source.stop()]: InvalidStateError when never started; a playing source
    stops and its ended event is queued; on a source that has already ended
    nothing changes. *)
Definition node_stop (P : Platform) (id : nat) (w : World) : outcome :=
  match sources w !! id with
  | Some n =>
      match node_status n with
      | Created => Threw InvalidStateError w
      | Playing =>
          if stop_throws P Playing then Threw InvalidStateError w
          else Returned (set_sources (<[id := set_status EndQueued n]> (sources w)) w)
      | s => if stop_throws P s then Threw InvalidStateError w else Returned w
      end
  | None => Threw InvalidStateError w
  end.

(** ** The component's functions *)

Definition drawStaticWaveform (buffer : AudioBuffer) (w : World) : outcome :=
  match canvasRef w with
  | None => Returned w
  | Some canvas =>
      if negb (context2d canvas) then Returned w else
      let dpr := JS.or_1 (devicePixelRatio w) in
      let rect := boundingClientRect canvas in
      let ctx := ops canvas ++
                 [SetSize (JS.mul (rect_width rect) dpr) (JS.mul (rect_height rect) dpr);
                  Scale dpr dpr] in
      let width := rect_width rect in
      let height := rect_height rect in
      let data := channelData0 buffer in
      let data_length := inject_Z (Z.of_nat (length data)) in
      (* const step = Math.ceil(data.length / width) is never read *)
      let barWidth := 2 in
      let gap := 3 # 2 in
      let totalBarWidth := JS.add barWidth gap in
      let barCount := JS.Math_floor (JS.div width totalBarWidth) in
      let ctx := ctx ++ [ClearRect 0 0 width height] in
      let ctx :=
        JS.for_range 0 barCount (fun i ctx =>
          let start :=
            JS.Math_floor (JS.mul (JS.div (inject_Z i) (inject_Z barCount)) data_length) in
          let end_ :=
            JS.Math_floor (JS.mul (JS.div (inject_Z (i + 1)) (inject_Z barCount)) data_length) in
          let max :=
            JS.for_range start end_ (fun j max =>
              match JS.index data j with
              | Some v => let abs := JS.Math_abs v in if JS.gt abs max then abs else max
              | None => max
              end) 0 in
          let barHeight := JS.Math_max 2 (JS.mul (JS.mul max height) (JS.rnd (8 # 10))) in
          let x := JS.mul (inject_Z i) totalBarWidth in
          let y := JS.div (JS.sub height barHeight) 2 in
          ctx ++ [FillRoundRect neutral_style x y barWidth barHeight 1]) ctx in
      Returned (set_canvasRef (Some (mkCanvas rect (context2d canvas) ctx)) w)
  end.

Definition drawLiveWaveform (w : World) : outcome :=
  match canvasRef w, analyserRef w, audioContextRef w with
  | Some canvas, Some analyser, Some ctx =>
      if negb (context2d canvas) then Returned w else
      let dpr := JS.or_1 (devicePixelRatio w) in
      let rect := boundingClientRect canvas in
      let canvasCtx := ops canvas ++
                       [SetSize (JS.mul (rect_width rect) dpr) (JS.mul (rect_height rect) dpr);
                        Scale dpr dpr] in
      let width := rect_width rect in
      let height := rect_height rect in
      let elapsed := JS.sub (ctx_currentTime ctx) (startTimeRef w) in
      let w := set_calls (calls w ++ [FrameElapsed elapsed]) (set_currentTime elapsed w) in
      (* analyser.getByteFrequencyData(dataArray) fills a local array that is never read;
         [duration] below is the state captured by the closure, which is the decoded
         duration: startPlayback runs only once the buffer is stored, and the render
         that runs the play effect follows the one that stored it *)
      let buffer := audioBufferRef w in
      let barWidth := 2 in
      let gap := 3 # 2 in
      let totalBarWidth := JS.add barWidth gap in
      let barCount := JS.Math_floor (JS.div width totalBarWidth) in
      let canvasCtx := canvasCtx ++ [ClearRect 0 0 width height] in
      let canvasCtx :=
        match buffer with
        | Some buffer =>
            let channelData := channelData0 buffer in
            let channelData_length := inject_Z (Z.of_nat (length channelData)) in
            let progress := if JS.gt (duration w) 0 then JS.div elapsed (duration w) else 0 in
            let canvasCtx :=
              JS.for_range 0 barCount (fun i canvasCtx =>
                let start :=
                  JS.Math_floor (JS.mul (JS.div (inject_Z i) (inject_Z barCount))
                                        channelData_length) in
                let end_ :=
                  JS.Math_floor (JS.mul (JS.div (inject_Z (i + 1)) (inject_Z barCount))
                                        channelData_length) in
                let max :=
                  JS.for_range start end_ (fun j max =>
                    match JS.index channelData j with
                    | Some v => let abs := JS.Math_abs v in if JS.gt abs max then abs else max
                    | None => max
                    end) 0 in
                let barHeight :=
                  JS.Math_max 2 (JS.mul (JS.mul max height) (JS.rnd (8 # 10))) in
                let x := JS.mul (inject_Z i) totalBarWidth in
                let y := JS.div (JS.sub height barHeight) 2 in
                let barProgress := JS.div (inject_Z i) (inject_Z barCount) in
                let fillStyle :=
                  if JS.le barProgress progress then played_style else neutral_style in
                canvasCtx ++ [FillRoundRect fillStyle x y barWidth barHeight 1]) canvasCtx in
            let playheadX := JS.mul progress width in
            canvasCtx ++ [FillRoundRect played_style (JS.sub playheadX 1) 0 2 height 1]
        | None => canvasCtx
        end in
      let w := set_canvasRef (Some (mkCanvas rect (context2d canvas) canvasCtx)) w in
      let (h, w) := requestAnimationFrame w in
      Returned (set_animationRef h w)
  | _, _, _ => Returned w
  end.

(** [source.onended = () => { onEnded(); setCurrentTime(0); }] *)
Definition onended_handler (w : World) : World :=
  set_currentTime 0 (set_calls (calls w ++ [EndedNotified; ElapsedReset]) w).

Definition startPlayback (w : World) : outcome :=
  match audioContextRef w, audioBufferRef w with
  | Some ctx, Some buffer =>
      let ctx :=
        match ctx_state ctx with
        | Suspended => mkContext (ctx_currentTime ctx) Running      (* ctx.resume() *)
        | _ => ctx
        end in
      let w := set_audioContextRef (Some ctx) w in
      let analyser := mkAnalyser 256 in
      let w := set_analyserRef (Some analyser) w in
      let source := length (sources w) in
      let w := set_sources (sources w ++ [mkSource buffer 0 Created false]) w in
      let w := set_sourceRef (Some source) w in
      let w := set_startTimeRef (ctx_currentTime ctx) w in
      let* w := node_start source (ctx_currentTime ctx) w in
      let w := set_sources (alter (fun n => mkSource (node_buffer n) (node_startedAt n)
                                               (node_status n) true) source (sources w)) w in
      drawLiveWaveform w
  | _, _ => Returned w
  end.

Definition stopPlayback (P : Platform) (w : World) : outcome :=
  let w := cancelAnimationFrame (animationRef w) w in
  let* w :=
    match sourceRef w with
    | Some source =>
        let* w := try_catch (node_stop P source w) (fun w => Returned w) in
        Returned (set_sourceRef None w)
    | None => Returned w
    end in
  match audioBufferRef w with
  | Some buffer => drawStaticWaveform buffer w
  | None => Returned w
  end.

Definition formatTime (seconds : Q) : string :=
  let m := JS.Math_floor (JS.div seconds 60) in
  let s := JS.Math_floor (JS.rem seconds 60) in
  append (JS.toString m) (append ":" (JS.padStart 2 "0" (JS.toString s))).

(** The effect on [audioBase64]: a new context, the payload turned into
    bytes, and the decode promise started with a fulfilment callback only. *)
Definition decodeEffect (P : Platform) (audioBase64 : string) (w : World) : outcome :=
  let w := set_audioContextRef (Some (mkContext 0 (new_context_state P))) w in
  match atob P audioBase64 with
  | None => Threw InvalidCharacterError w
  | Some byteChars =>
      let byteArray := list_byte_of_string byteChars in
      Returned (set_pendingDecode (Some byteArray) w)
  end.

(** [.then((buffer) => { ... })] *)
Definition decoded (buffer : AudioBuffer) (w : World) : outcome :=
  let w := set_audioBufferRef (Some buffer) w in
  let w := set_duration (buffer_duration buffer) w in
  drawStaticWaveform buffer w.

(** The cleanup of the effect on [audioBase64]. *)
Definition decodeCleanup (w : World) : World :=
  let w := cancelAnimationFrame (animationRef w) w in
  match audioContextRef w with
  | Some ctx => set_audioContextRef (Some (mkContext (ctx_currentTime ctx) Closed)) w
  | None => w
  end.

(** The effect on [isPlaying]. *)
Definition playEffect (P : Platform) (w : World) : outcome :=
  if isPlaying w then startPlayback w else stopPlayback P w.

(** ** Browser events *)

Inductive Event :=
| Mount (canvas : Canvas) (audioBase64 : string)   (* first commit: the ref is attached, both effects run *)
| Unmount
| SetIsPlaying (b : bool)          (* the owner flips the isPlaying prop *)
| DecodeSettled                    (* the decodeAudioData promise settles *)
| AnimationFrame (h : nat)         (* the display runs the callback queued under handle h *)
| ClockAdvance (dt : Q)            (* the audio clock moves on *)
| Layout (rect : DOMRect) (dpr : Q)
| SourceFinished (id : nat)        (* source id has played its whole buffer *)
| EndedDispatch (id : nat).        (* the ended event of source id is dispatched *)

(** An exception that leaves a callback is reported and the event loop goes on. *)
Definition report (o : outcome) : World :=
  match o with
  | Returned w => w
  | Threw e w => set_unhandled (unhandled w ++ [e]) w
  end.

(** An exception that leaves an effect takes the component down. *)
Definition commit (o : outcome) : World :=
  match o with
  | Returned w => w
  | Threw e w => set_lifecycle Unmounted (set_canvasRef None (set_unhandled (unhandled w ++ [e]) w))
  end.

Definition is_mounted (w : World) : bool :=
  match lifecycle w with Mounted => true | _ => false end.

Definition set_rect (rect : DOMRect) (canvas : Canvas) : Canvas :=
  mkCanvas rect (context2d canvas) (ops canvas).

Definition step (P : Platform) (ev : Event) (w : World) : option World :=
  match ev with
  | Mount canvas audioBase64 =>
      match lifecycle w with
      | Fresh =>
          let w := set_lifecycle Mounted (set_canvasRef (Some canvas) w) in
          match decodeEffect P audioBase64 w with
          | Returned w => Some (commit (playEffect P w))
          | Threw e w => Some (commit (Threw e w))
          end
      | _ => None
      end
  | Unmount =>
      if is_mounted w
      then Some (set_lifecycle Unmounted (set_canvasRef None (decodeCleanup w)))
      else None
  | SetIsPlaying b =>
      if is_mounted w && negb (eqb b (isPlaying w))
      then Some (commit (playEffect P (set_isPlaying b w)))
      else None
  | DecodeSettled =>
      match pendingDecode w with
      | Some byteArray =>
          let w := set_pendingDecode None w in
          match decodeAudioData P byteArray with
          | Some buffer => Some (report (decoded buffer w))
          | None => Some (report (Threw EncodingError w))   (* no rejection callback was given *)
          end
      | None => None
      end
  | AnimationFrame h =>
      if decide (h ∈ rafPending w)
      then Some (report (drawLiveWaveform (set_rafPending (rafPending w ∖ {[h]}) w)))
      else None
  | ClockAdvance dt =>
      match audioContextRef w with
      | Some ctx =>
          match ctx_state ctx with
          | Running =>
              if Qle_bool 0 dt
              then Some (set_audioContextRef (Some (mkContext (ctx_currentTime ctx + dt) Running)) w)
              else None
          | _ => None
          end
      | None => None
      end
  | Layout rect dpr =>
      Some (set_devicePixelRatio dpr (set_canvasRef (set_rect rect <$> canvasRef w) w))
  | SourceFinished id =>
      match sources w !! id, audioContextRef w with
      | Some n, Some ctx =>
          match node_status n with
          | Playing =>
              if Qle_bool (node_startedAt n + buffer_duration (node_buffer n)) (ctx_currentTime ctx)
              then Some (set_sources (<[id := set_status EndQueued n]> (sources w)) w)
              else None
          | _ => None
          end
      | _, _ => None
      end
  | EndedDispatch id =>
      match sources w !! id with
      | Some n =>
          match node_status n with
          | EndQueued =>
              let w := set_sources (<[id := set_status Ended n]> (sources w)) w in
              Some (if node_onended n then onended_handler w else w)
          | _ => None
          end
      | None => None
      end
  end.

Fixpoint run (P : Platform) (evs : list Event) (w : World) : option World :=
  match evs with
  | [] => Some w
  | ev :: evs' =>
      match step P ev w with
      | Some w' => run P evs' w'
      | None => None
      end
  end.

(** The component before its first commit. *)
Definition initial : World :=
  mkWorld None None None None 0 0 None 0 0 false Fresh 1 ∅ 1 [] None [] [].

(** ** Vocabulary of the statements *)

(** The integers [j, j+1, ..., j+n-1]: the values a counting loop gives its index. *)
Fixpoint zrange_from (j : Z) (n : nat) : list Z :=
  match n with
  | O => []
  | S n' => j :: zrange_from (j + 1)%Z n'
  end.

Definition zrange (n : Z) : list Z := zrange_from 0 (Z.to_nat n).

Definition is_bar (op : DrawOp) : bool :=
  match op with
  | FillRoundRect _ _ _ _ _ _ => true
  | _ => false
  end.

(** Position and size of a filled rounded rectangle: x, y, width, height, radius. *)
Definition geometry (op : DrawOp) : option (Q * Q * Q * Q * Q) :=
  match op with
  | FillRoundRect _ x y w h r => Some (x, y, w, h, r)
  | _ => None
  end.

Definition style_of (op : DrawOp) : option string :=
  match op with
  | FillRoundRect style _ _ _ _ _ => Some style
  | _ => None
  end.

(** [m] is the largest absolute amplitude among the samples with index in
    [lo, hi), every one of which exists; it is 0 when the range is empty. *)
Definition is_peak (data : list Q) (lo hi : Z) (m : Q) : Prop :=
  (forall j, (lo <= j < hi)%Z -> exists v, JS.index data j = Some v /\ Qabs v <= m) /\
  (((hi <= lo)%Z /\ m == 0) \/
   exists j v, (lo <= j < hi)%Z /\ JS.index data j = Some v /\ m == Qabs v).

(** What one call drew: the commands after those already on the canvas. *)
Definition drawn_since (before after : World) : list DrawOp :=
  match canvasRef before, canvasRef after with
  | Some c, Some c' => drop (length (ops c)) (ops c')
  | _, _ => []
  end.

(** The value of a string of decimal digits. *)
Fixpoint parse_from (a : Z) (s : string) : Z :=
  match s with
  | EmptyString => a
  | String c s' => parse_from (10 * a + (Z.of_nat (nat_of_ascii c) - 48))%Z s'
  end.

Definition parse_decimal (s : string) : Z := parse_from 0 s.

Fixpoint all_digits (s : string) : bool :=
  match s with
  | EmptyString => true
  | String c s' =>
      (48 <=? nat_of_ascii c)%nat && (nat_of_ascii c <=? 57)%nat && all_digits s'
  end.

(** The elapsed times reported by frames, in order. *)
Fixpoint frame_values (cs : list Call) : list Q :=
  match cs with
  | [] => []
  | FrameElapsed v :: cs' => v :: frame_values cs'
  | _ :: cs' => frame_values cs'
  end.

Definition is_ended (n : SourceNode) : bool :=
  match node_status n with Ended => true | _ => false end.

Definition is_notification (c : Call) : bool :=
  match c with EndedNotified => true | _ => false end.

(** How many sources have had their ended event dispatched with the
    component's handler attached, and how many times onEnded was called. *)
Definition count_ended (ns : list SourceNode) : nat :=
  length (List.filter (fun n => is_ended n && node_onended n) ns).

Definition count_notified (cs : list Call) : nat :=
  length (List.filter is_notification cs).

(** Names for the pieces of the two drawing loops, used to state what the
    loops compute. *)
Definition peak_step (data : list Q) (j : Z) (max : Q) : Q :=
  match JS.index data j with
  | Some v => let abs := JS.Math_abs v in if JS.gt abs max then abs else max
  | None => max
  end.

Definition peak (data : list Q) (lo hi : Z) : Q := JS.for_range lo hi (peak_step data) 0.

Definition bar_bound (data : list Q) (barCount i : Z) : Z :=
  JS.Math_floor (JS.mul (JS.div (inject_Z i) (inject_Z barCount))
                        (inject_Z (Z.of_nat (length data)))).

Definition bar_count (rect : DOMRect) : Z :=
  JS.Math_floor (JS.div (rect_width rect) (JS.add 2 (3 # 2))).

Definition bar_height (rect : DOMRect) (data : list Q) (i : Z) : Q :=
  JS.Math_max 2 (JS.mul (JS.mul (peak data (bar_bound data (bar_count rect) i)
                                           (bar_bound data (bar_count rect) (i + 1)))
                                (rect_height rect))
                        (JS.rnd (8 # 10))).

Definition bar (style : Z -> string) (rect : DOMRect) (data : list Q) (i : Z) : DrawOp :=
  FillRoundRect (style i) (JS.mul (inject_Z i) (JS.add 2 (3 # 2)))
                (JS.div (JS.sub (rect_height rect) (bar_height rect data i)) 2)
                2 (bar_height rect data i) 1.

Definition prelude (dpr : Q) (rect : DOMRect) : list DrawOp :=
  [SetSize (JS.mul (rect_width rect) (JS.or_1 dpr)) (JS.mul (rect_height rect) (JS.or_1 dpr));
   Scale (JS.or_1 dpr) (JS.or_1 dpr);
   ClearRect 0 0 (rect_width rect) (rect_height rect)].

Definition progress_of (duration elapsed : Q) : Q :=
  if JS.gt duration 0 then JS.div elapsed duration else 0.

Definition live_style (rect : DOMRect) (progress : Q) (i : Z) : string :=
  if JS.le (JS.div (inject_Z i) (inject_Z (bar_count rect))) progress
  then played_style else neutral_style.

(** The commands of one live frame. *)
Definition live_frame (w : World) (canvas : Canvas) (ctx : AudioContext) : list DrawOp :=
  let rect := boundingClientRect canvas in
  let elapsed := JS.sub (ctx_currentTime ctx) (startTimeRef w) in
  prelude (devicePixelRatio w) rect ++
  match audioBufferRef w with
  | Some buffer =>
      (bar (live_style rect (progress_of (duration w) elapsed)) rect (channelData0 buffer)
         <$> zrange (bar_count rect)) ++
      [FillRoundRect played_style
                     (JS.sub (JS.mul (progress_of (duration w) elapsed) (rect_width rect)) 1)
                     0 2 (rect_height rect) 1]
  | None => []
  end.

(** Two commands that differ at most in the fill colour. *)
Definition same_shape (a b : DrawOp) : Prop :=
  geometry a = geometry b /\ (is_bar a = false -> a = b).

(** ** Concrete inputs used to exercise the statements *)

Definition demo_canvas : Canvas := mkCanvas (mkRect 14 64) true [].

Definition demo_buffer : AudioBuffer := mkBuffer [1 # 2; - (3 # 4); 0; 1 # 4; 1; 0; 0] 1.

Definition silent_buffer : AudioBuffer := mkBuffer [0; 0; 0; 0; 0; 0; 0; 0] 1.

(** The base64 text of the four bytes RIFF. *)
Definition demo_payload : string := "UklGRg==".

(** [atob] on the two payloads used below; every other string is refused. *)
Definition demo_atob (s : string) : option string :=
  if String.eqb s "" then Some ""%string
  else if String.eqb s demo_payload then Some "RIFF"%string
  else None.

(** A stand-in for an engine: it rejects the empty byte sequence, decodes
    every other one to [demo_buffer], and never throws on [stop()]. *)
Definition demo_platform : Platform :=
  mkPlatform demo_atob
             (fun bytes => match bytes with [] => None | _ => Some demo_buffer end)
             (fun _ => false)
             Suspended.

(** The same with an engine of the older kind: [stop()] throws once the
    source has finished. *)
Definition strict_platform : Platform :=
  mkPlatform demo_atob
             (fun bytes => match bytes with [] => None | _ => Some demo_buffer end)
             (fun s => match s with Playing => false | _ => true end)
             Running.

(** The component right after its first commit, effects not yet run. *)
Definition mounted_world : World := set_lifecycle Mounted (set_canvasRef (Some demo_canvas) initial).


(** Half a second into the playback of [demo_buffer]. *)
Definition playing_events : list Event :=
  [Mount demo_canvas demo_payload; DecodeSettled; SetIsPlaying true; ClockAdvance (1 # 2)].

Definition playing_world : World :=
  Eval vm_compute in default initial (run demo_platform playing_events initial).

Definition canvas_of (w : World) : Canvas := default demo_canvas (canvasRef w).

Definition context_of (w : World) : AudioContext := default (mkContext 0 Closed) (audioContextRef w).

(** The seconds field, checked for each of the sixty values it can take. *)
Definition two_digits_ok (sec : Z) : bool :=
  let ss := JS.padStart 2 "0" (JS.toString sec) in
  (String.length ss =? 2)%nat && all_digits ss && (parse_decimal ss =? sec)%Z.

(** [ctx.resume()] where startPlayback calls it. *)
Definition resume (ctx : AudioContext) : AudioContext :=
  match ctx_state ctx with
  | Suspended => mkContext (ctx_currentTime ctx) Running
  | _ => ctx
  end.

(** The world just before the first frame of a playback session is drawn. *)
Definition started (ctx : AudioContext) (buffer : AudioBuffer) (w : World) : World :=
  set_sources (sources w ++ [mkSource buffer (ctx_currentTime ctx) Playing true])
    (set_startTimeRef (ctx_currentTime ctx)
       (set_sourceRef (Some (length (sources w)))
          (set_analyserRef (Some (mkAnalyser 256))
             (set_audioContextRef (Some (resume ctx)) w)))).

(** Playback to the natural end of the buffer, on the older engine. *)
Definition ended_events : list Event :=
  [Mount demo_canvas demo_payload; DecodeSettled; SetIsPlaying true; ClockAdvance 1;
   SourceFinished 0; EndedDispatch 0].

Definition ended_world : World :=
  Eval vm_compute in default initial (run strict_platform ended_events initial).

(** How many times a source played its buffer to the end. *)
Definition natural_completions (evs : list Event) : nat :=
  length (List.filter (fun ev => match ev with SourceFinished _ => true | _ => false end) evs).

(** Every source carries the component's handler, and the calls to onEnded
    are as many as the sources whose ended event has been dispatched. *)
Definition ended_inv (w : World) : Prop :=
  Forall (fun n => node_onended n = true) (sources w) /\
  count_notified (calls w) = count_ended (sources w).

(** Play, pause half a second in, and the ended event of the stopped source. *)
Definition paused_events : list Event :=
  [Mount demo_canvas demo_payload; DecodeSettled; SetIsPlaying true; ClockAdvance (1 # 2);
   SetIsPlaying false; EndedDispatch 0].

Definition paused_world : World :=
  Eval vm_compute in default initial (run demo_platform paused_events initial).

(** At most the frame whose handle is in [animationRef] is queued, and none
    is while [isPlaying] is false or after the component is gone. *)
Definition raf_inv (w : World) : Prop :=
  (forall h, h ∈ rafPending w -> h = animationRef w) /\
  (isPlaying w = false -> rafPending w = ∅) /\
  (lifecycle w = Fresh -> isPlaying w = false) /\
  (lifecycle w = Unmounted -> rafPending w = ∅).

(** Play, then pause at once. *)
Definition idle_events : list Event :=
  [Mount demo_canvas demo_payload; DecodeSettled; SetIsPlaying true; SetIsPlaying false].

Definition idle_world : World :=
  Eval vm_compute in default initial (run demo_platform idle_events initial).

(** [ctx.currentTime] of the component's audio context. *)
Definition clock (w : World) : Q :=
  match audioContextRef w with
  | Some ctx => ctx_currentTime ctx
  | None => 0
  end.

(** Events that do not begin a playback session. *)
Definition continues_session (ev : Event) : bool :=
  match ev with
  | Mount _ _ => false
  | SetIsPlaying true => false
  | _ => true
  end.

(** The audio clock passes the end of the one-second buffer and a frame runs
    before the owner has reacted. *)
Definition overrun_events : list Event :=
  [Mount demo_canvas demo_payload; DecodeSettled; SetIsPlaying true; ClockAdvance (1001 # 1000);
   SourceFinished 0; AnimationFrame 1].

Definition overrun_world : World :=
  Eval vm_compute in default initial (run demo_platform overrun_events initial).

(** The mounted component once [demo_buffer] is decoded, before any play. *)
Definition decoding_done_world : World :=
  Eval vm_compute in
    default initial (run demo_platform [Mount demo_canvas demo_payload; DecodeSettled] initial).

(** The empty payload. *)
Definition empty_payload_events : list Event := [Mount demo_canvas ""; DecodeSettled].

Definition undecoded_world : World :=
  Eval vm_compute in default initial (run demo_platform empty_payload_events initial).

(** A payload the component cannot turn into an audio buffer: atob refuses
    the string, or the engine rejects the bytes. *)
Definition invalid_payload (P : Platform) (audioBase64 : string) : Prop :=
  match atob P audioBase64 with
  | Some byteChars => decodeAudioData P (list_byte_of_string byteChars) = None
  | None => True
  end.

(** A canvas for 22 bars and a buffer of 22 samples, all zero but the one
    with index 14. *)
Definition spike_canvas : Canvas := mkCanvas (mkRect 77 64) true [].

Definition spike_buffer : AudioBuffer :=
  mkBuffer [0; 0; 0; 0; 0; 0; 0; 0; 0; 0; 0; 0; 0; 0; 1; 0; 0; 0; 0; 0; 0; 0] 1.

Definition spike_world : World := set_lifecycle Mounted (set_canvasRef (Some spike_canvas) initial).



(** A canvas for three bars, and playback of the one-second buffer at the
    moment the audio clock shows the double nearest to 1/3. *)
Definition third_canvas : Canvas := mkCanvas (mkRect (21 # 2) 64) true [].

Definition third_events : list Event :=
  [Mount third_canvas demo_payload; DecodeSettled; SetIsPlaying true;
   ClockAdvance (JS.rnd (1 # 3))].

Definition third_world : World :=
  Eval vm_compute in default initial (run demo_platform third_events initial).

(** ** Further vocabulary for the player *)

(** Bar [i] of the frame drawn in world [w] is filled in the played colour. *)
Definition played_in_frame (w : World) (i : Z) : Prop :=
  exists w' op,
    drawLiveWaveform w = Returned w' /\
    List.filter is_bar (drawn_since w w') !! Z.to_nat i = Some op /\
    style_of op = Some played_style.

(** Only the source in [sourceRef] can be playing, and there is none in the
    ref while [isPlaying] is false. *)
Definition source_inv (w : World) : Prop :=
  (forall id n, sources w !! id = Some n -> node_status n = Playing -> sourceRef w = Some id) /\
  (isPlaying w = false -> sourceRef w = None) /\
  (lifecycle w = Fresh -> isPlaying w = false).

(** Play, pause and play again: two sources exist, one of them playing. *)
Definition replay_events : list Event :=
  [Mount demo_canvas demo_payload; DecodeSettled; SetIsPlaying true; SetIsPlaying false;
   SetIsPlaying true].

Definition replay_world : World :=
  Eval vm_compute in default initial (run demo_platform replay_events initial).

(** The mounted component while the decode of [demo_payload] is pending. *)
Definition undecoded_yet_world : World :=
  Eval vm_compute in
    default initial (run demo_platform [Mount demo_canvas demo_payload] initial).

(** ** JavaScript strings as sequences of UTF-16 code units *)

Module Str.

(** A string literal of the source, all of whose characters are ASCII. *)
Definition lit (s : string) : list N := N_of_ascii <$> list_ascii_of_string s.

(** WhiteSpace and LineTerminator of ECMAScript: what [trim] removes. *)
Definition is_white_space (c : N) : bool :=
  match c with
  | 9 | 10 | 11 | 12 | 13 | 32 | 160 | 5760
  | 8192 | 8193 | 8194 | 8195 | 8196 | 8197 | 8198 | 8199 | 8200 | 8201 | 8202
  | 8232 | 8233 | 8239 | 8287 | 12288 | 65279 => true
  | _ => false
  end%N.

Fixpoint trimStart (s : list N) : list N :=
  match s with
  | [] => []
  | c :: s' => if is_white_space c then trimStart s' else s
  end.

Definition trimEnd (s : list N) : list N := rev (trimStart (rev s)).

(** [s.trim()] *)
Definition trim (s : list N) : list N := trimEnd (trimStart s).

(** [s.split(",")[0]]: the part before the first comma. *)
Fixpoint before_comma (s : list N) : list N :=
  match s with
  | [] => []
  | c :: s' => if (c =? 44)%N then [] else c :: before_comma s'
  end.

(** A string is falsy exactly when it is empty. *)
Definition truthy (s : list N) : bool :=
  match s with [] => false | _ => true end.

End Str.

(** ** The generate route: rate limiting and request validation
    (the second document of [src/unnamed/part_000]) *)

Module Route.

Definition MAX_INPUT_LENGTH : Z := 500.
Definition RATE_LIMIT_WINDOW_MS : Z := (60 * 1000)%Z.
Definition MAX_REQUESTS_PER_WINDOW : Z := 10.
Definition DAILY_GLOBAL_CAP : Z := 2000.
Definition DAY_MS : Z := (24 * 60 * 60 * 1000)%Z.

Record Entry := mkEntry { count : Z; resetAt : Z }.

(** The module-level variables. *)
Record Limits := mkLimits {
  ipRequestMap : gmap (list N) Entry;
  dailyCount : Z;
  dailyResetAt : Z
}.

(** The state when the module is loaded at time [now]. *)
Definition loaded (now : Z) : Limits := mkLimits ∅ 0 (now + DAY_MS)%Z.

(** [{ allowed, retryAfter? }] *)
Record Verdict := mkVerdict { allowed : bool; retryAfter : option Z }.

(** [Math.ceil(ms / 1000)] on an integer number of milliseconds. *)
Definition ceil_seconds (ms : Z) : Z := (- ((- ms) / 1000))%Z.

(** [request.headers.get("x-forwarded-for")?.split(",")[0]?.trim() ||
     request.headers.get("x-real-ip") || "unknown"] *)
Definition getClientIp (forwardedFor realIp : option (list N)) : list N :=
  let first := (fun v => Str.trim (Str.before_comma v)) <$> forwardedFor in
  match first with
  | Some s => if Str.truthy s then s else
      match realIp with
      | Some r => if Str.truthy r then r else Str.lit "unknown"
      | None => Str.lit "unknown"
      end
  | None =>
      match realIp with
      | Some r => if Str.truthy r then r else Str.lit "unknown"
      | None => Str.lit "unknown"
      end
  end.

(** [checkRateLimit(ip)] when [Date.now()] gives [now]. *)
Definition checkRateLimit (ip : list N) (now : Z) (st : Limits) : Verdict * Limits :=
  (* Reset daily counter *)
  let st :=
    if (now >? dailyResetAt st)%Z
    then mkLimits (ipRequestMap st) 0 (now + DAY_MS)%Z
    else st in
  if (dailyCount st >=? DAILY_GLOBAL_CAP)%Z
  then (mkVerdict false (Some (ceil_seconds (dailyResetAt st - now)%Z)), st)
  else
    (* Per-IP rate limit *)
    match ipRequestMap st !! ip with
    | Some entry =>
        if (now >? resetAt entry)%Z
        then (mkVerdict true None,
              mkLimits (<[ip := mkEntry 1 (now + RATE_LIMIT_WINDOW_MS)%Z]> (ipRequestMap st))
                       (dailyCount st + 1)%Z (dailyResetAt st))
        else if (count entry >=? MAX_REQUESTS_PER_WINDOW)%Z
        then (mkVerdict false (Some (ceil_seconds (resetAt entry - now)%Z)), st)
        else (mkVerdict true None,
              mkLimits (<[ip := mkEntry (count entry + 1)%Z (resetAt entry)]> (ipRequestMap st))
                       (dailyCount st + 1)%Z (dailyResetAt st))
    | None =>
        (mkVerdict true None,
         mkLimits (<[ip := mkEntry 1 (now + RATE_LIMIT_WINDOW_MS)%Z]> (ipRequestMap st))
                  (dailyCount st + 1)%Z (dailyResetAt st))
    end.

(** The body of the five-minute interval: stale entries are deleted. *)
Definition sweep (now : Z) (st : Limits) : Limits :=
  mkLimits (filter (fun kv => ¬ (now > resetAt kv.2)%Z) (ipRequestMap st))
           (dailyCount st) (dailyResetAt st).

(** What [request.json()] gives: [None] when it throws or the value cannot
    be destructured; otherwise the [text] field, [None] when it is not a
    string, and the [speaker] field. *)
Record Body := mkBody { body_text : option (list N); body_speaker : option (list N) }.

Record Request := mkRequest {
  forwardedFor : option (list N);
  realIp : option (list N);
  json : option Body
}.

(** The environment of a call: the two API keys and what the two remote
    calls give for a text and a speaker ([None]: one of them throws). *)
Record Env := mkEnv {
  anthropicKey : bool;
  sarvamKey : bool;
  generate : list N -> option (list N) -> option (list N * list N)
}.

Inductive Response :=
| RateLimited (isDaily : bool) (retry : Z)       (* 429, code RATE_LIMITED, Retry-After: retry *)
| TextRequired                                   (* 400 *)
| InputTooLong                                   (* 400, code INPUT_TOO_LONG *)
| AnthropicKeyMissing                            (* 500 *)
| SarvamKeyMissing                               (* 500 *)
| Generated (originalText bangaloreText audioBase64 : list N)   (* 200 *)
| ServerError                                    (* 500, code SERVER_ERROR *)
| Unhandled.                                     (* request.json() threw: the exception leaves POST *)

(** [retryAfter && retryAfter > RATE_LIMIT_WINDOW_MS / 1000] *)
Definition isDaily (retryAfter : option Z) : bool :=
  match retryAfter with
  | Some r => if (r =? 0)%Z then false else (r >? RATE_LIMIT_WINDOW_MS / 1000)%Z
  | None => false
  end.

Definition POST (env : Env) (now : Z) (request : Request) (st : Limits) : Response * Limits :=
  let ip := getClientIp (forwardedFor request) (realIp request) in
  let '(verdict, st) := checkRateLimit ip now st in
  if negb (allowed verdict)
  then (RateLimited (isDaily (retryAfter verdict)) (default 0%Z (retryAfter verdict)), st)
  else
    match json request with
    | None => (Unhandled, st)
    | Some body =>
        match body_text body with
        | None => (TextRequired, st)
        | Some text =>
            if negb (Str.truthy text) || (Z.of_nat (length (Str.trim text)) =? 0)%Z
            then (TextRequired, st)
            else if (Z.of_nat (length text) >? MAX_INPUT_LENGTH)%Z
            then (InputTooLong, st)
            else if negb (anthropicKey env) then (AnthropicKeyMissing, st)
            else if negb (sarvamKey env) then (SarvamKeyMissing, st)
            else
              match generate env text (body_speaker body) with
              | Some (bangaloreText, audioBase64) =>
                  (Generated text bangaloreText audioBase64, st)
              | None => (ServerError, st)
              end
        end
    end.

(** The calls the server receives, each at its own time. *)
Inductive Op :=
| Check (ip : list N)       (* a request from this address reaches checkRateLimit *)
| Sweep.                    (* the interval fires *)

Definition apply_op (now : Z) (op : Op) (st : Limits) : Limits :=
  match op with
  | Check ip => snd (checkRateLimit ip now st)
  | Sweep => sweep now st
  end.

Fixpoint run_ops (ops : list (Z * Op)) (st : Limits) : Limits :=
  match ops with
  | [] => st
  | (now, op) :: ops' => run_ops ops' (apply_op now op st)
  end.

(** How many of the calls in [ops] for address [ip] are allowed. *)
Fixpoint allowed_count (ip : list N) (ops : list (Z * Op)) (st : Limits) : nat :=
  match ops with
  | [] => 0
  | (now, op) :: ops' =>
      ((match op with
        | Check ip' =>
            if decide (ip' = ip)
            then (if allowed (fst (checkRateLimit ip' now st)) then 1 else 0)
            else 0
        | Sweep => 0
        end) + allowed_count ip ops' (apply_op now op st))%nat
  end.

(** Clock readings never go back: each is at least the one before. *)
Fixpoint timed_from (t : Z) (ops : list (Z * Op)) : Prop :=
  match ops with
  | [] => True
  | (now, _) :: ops' => (t <= now)%Z /\ timed_from now ops'
  end.

(** The last clock reading: [t] when nothing has been called since. *)
Fixpoint last_time (t : Z) (ops : list (Z * Op)) : Z :=
  match ops with
  | [] => t
  | (now, _) :: ops' => last_time now ops'
  end.

(** The limiter's state after the daily reset at the head of checkRateLimit. *)
Definition rolled (now : Z) (st : Limits) : Limits :=
  if (now >? dailyResetAt st)%Z then mkLimits (ipRequestMap st) 0 (now + DAY_MS)%Z else st.

(** What holds of the limiter's state when the last clock reading was [t]. *)
Definition limits_inv (t : Z) (st : Limits) : Prop :=
  (0 <= dailyCount st <= DAILY_GLOBAL_CAP)%Z /\
  (dailyResetAt st <= t + DAY_MS)%Z /\
  (forall ip e, ipRequestMap st !! ip = Some e ->
     (1 <= count e <= MAX_REQUESTS_PER_WINDOW)%Z /\ (resetAt e <= t + RATE_LIMIT_WINDOW_MS)%Z).

(** The four ways checkRateLimit can go. *)
Inductive check_outcome (ip : list N) (now : Z) (st : Limits) : Verdict * Limits -> Prop :=
| DailyCapHit :
    (DAILY_GLOBAL_CAP <= dailyCount (rolled now st))%Z ->
    check_outcome ip now st
      (mkVerdict false (Some (ceil_seconds (dailyResetAt (rolled now st) - now))),
       rolled now st)
| WindowOpened :
    (dailyCount (rolled now st) < DAILY_GLOBAL_CAP)%Z ->
    (ipRequestMap st !! ip = None \/
     exists e, ipRequestMap st !! ip = Some e /\ (resetAt e < now)%Z) ->
    check_outcome ip now st
      (mkVerdict true None,
       mkLimits (<[ip := mkEntry 1 (now + RATE_LIMIT_WINDOW_MS)]> (ipRequestMap st))
                (dailyCount (rolled now st) + 1) (dailyResetAt (rolled now st)))
| WindowFull (e : Entry) :
    (dailyCount (rolled now st) < DAILY_GLOBAL_CAP)%Z ->
    ipRequestMap st !! ip = Some e -> (now <= resetAt e)%Z ->
    (MAX_REQUESTS_PER_WINDOW <= count e)%Z ->
    check_outcome ip now st
      (mkVerdict false (Some (ceil_seconds (resetAt e - now))), rolled now st)
| WindowCounted (e : Entry) :
    (dailyCount (rolled now st) < DAILY_GLOBAL_CAP)%Z ->
    ipRequestMap st !! ip = Some e -> (now <= resetAt e)%Z ->
    (count e < MAX_REQUESTS_PER_WINDOW)%Z ->
    check_outcome ip now st
      (mkVerdict true None,
       mkLimits (<[ip := mkEntry (count e + 1) (resetAt e)]> (ipRequestMap st))
                (dailyCount (rolled now st) + 1) (dailyResetAt (rolled now st))).

(** Twelve requests from one address within twelve milliseconds. *)
Definition burst : list (Z * Op) :=
  (fun t => (Z.of_nat t, Check (Str.lit "1.2.3.4"))) <$> seq 1 12.

(** A server with both keys whose remote calls echo the text. *)
Definition demo_env : Env := mkEnv true true (fun text _ => Some (text, Str.lit "UklGRg==")).

(** A request for the text hello from the address of [burst]. *)
Definition demo_request : Request :=
  mkRequest (Some (Str.lit "1.2.3.4, 10.0.0.1")) None
            (Some (mkBody (Some (Str.lit "hello")) (Some (Str.lit "sunny")))).

(** An entry that no call at time [t] or later can read: absent, or stale. *)
Definition stale (t : Z) (o : option Entry) : Prop :=
  match o with
  | Some e => (resetAt e < t)%Z
  | None => True
  end.

(** Two states of the limiter that differ at most in stale entries. *)
Definition same_live (t : Z) (st1 st2 : Limits) : Prop :=
  dailyCount st1 = dailyCount st2 /\ dailyResetAt st1 = dailyResetAt st2 /\
  forall ip, ipRequestMap st1 !! ip = ipRequestMap st2 !! ip \/
             (stale t (ipRequestMap st1 !! ip) /\ stale t (ipRequestMap st2 !! ip)).

(** The verdicts given to the requests among [ops]. *)
Fixpoint verdicts (ops : list (Z * Op)) (st : Limits) : list Verdict :=
  match ops with
  | [] => []
  | (now, Check ip) :: ops' =>
      fst (checkRateLimit ip now st) :: verdicts ops' (snd (checkRateLimit ip now st))
  | (now, Sweep) :: ops' => verdicts ops' (sweep now st)
  end.

End Route.

(** ** The page: form state, the generate request and the player's props
    (the first document of [src/unnamed/part_000]) *)

Module Page.

Definition SPEAKERS : list (list N) :=
  Str.lit <$> ["sunny"; "shubh"; "ritu"; "priya"; "neha";
               "rahul"; "pooja"; "rohan"; "simran"; "kavya"]%string.

(** The parsed body of a response: a JSON object, of which the page reads
    these fields ([None]: the field is absent). *)
Record Data := mkData {
  data_error : option (list N);
  data_code : option (list N);
  data_retryAfter : option Z;
  data_bangaloreText : option (list N);
  data_audioBase64 : option (list N)
}.

Inductive Message :=
| FromServer (message : list N)     (* data.error *)
| SomethingWentWrong                (* "Something went wrong" *)
| NetworkError.                     (* "Network error ..." *)

Record Error := mkError {
  message : Message;
  code : option (list N);
  error_retryAfter : option Z
}.

(** How the awaited part of [handleGenerate] ends. *)
Inductive Reply :=
| Rejected                                  (* fetch or response.json() throws *)
| Resolved (ok : bool) (data : Data).       (* response.ok and the parsed body *)

(** The component's state, with the requests it has sent ([sent], latest
    first) and the number of them not yet answered ([pending]). *)
Record State := mkState {
  text : list N;
  speaker : list N;
  loading : bool;
  result : option Data;
  error : option Error;
  isPlaying : bool;
  pending : nat;
  sent : list Route.Body
}.

Definition initial : State :=
  mkState [] (Str.lit "sunny") false None None false 0 [].

(** [onChange={(e) => setText(e.target.value.slice(0, 500))}] *)
Definition onChange (value : list N) (s : State) : State :=
  mkState (take 500 value) (speaker s) (loading s) (result s) (error s)
          (isPlaying s) (pending s) (sent s).

Definition setSpeaker (v : list N) (s : State) : State :=
  mkState (text s) v (loading s) (result s) (error s) (isPlaying s) (pending s) (sent s).

(** [disabled={loading || !text.trim()}] *)
Definition disabled (s : State) : bool :=
  loading s || negb (Str.truthy (Str.trim (text s))).

(** [handleGenerate()] up to its first [await]: the request is sent. *)
Definition handleGenerate (s : State) : State :=
  if negb (Str.truthy (Str.trim (text s))) then s
  else
    mkState (text s) (speaker s) true None None false
            (S (pending s))
            (Route.mkBody (Some (text s)) (Some (speaker s)) :: sent s).

(** [handleGenerate()] from its first [await] on.  [captured] tells whether
    [posthog.capture] returns; when it throws, the [catch] block runs. *)
Definition settle (reply : Reply) (captured : bool) (s : State) : State :=
  let network := Some (mkError NetworkError None None) in
  let '(result', error') :=
    match reply with
    | Rejected => (result s, network)
    | Resolved ok data =>
        if negb ok
        then (result s,
              Some (mkError
                      (match data_error data with
                       | Some m => if Str.truthy m then FromServer m else SomethingWentWrong
                       | None => SomethingWentWrong
                       end)
                      (data_code data) (data_retryAfter data)))
        else (Some data, if captured then error s else network)
    end in
  mkState (text s) (speaker s) false result' error' (isPlaying s)
          (Nat.pred (pending s)) (sent s).

(** [setIsPlaying((prev) => !prev)] *)
Definition handlePlayPause (s : State) : State :=
  mkState (text s) (speaker s) (loading s) (result s) (error s) (negb (isPlaying s))
          (pending s) (sent s).

(** [onEnded={() => setIsPlaying(false)}] *)
Definition onEnded (s : State) : State :=
  mkState (text s) (speaker s) (loading s) (result s) (error s) false
          (pending s) (sent s).

(** What the user, the network and the player can do to the page. *)
Inductive Event :=
| Change (value : list N)                   (* typing or pasting in the text area *)
| SelectSpeaker (v : list N)                (* choosing an item of the voice list *)
| ClickGenerate                             (* the Generate button *)
| Settle (reply : Reply) (captured : bool)  (* the request is answered *)
| ClickPlayPause                            (* the player's button *)
| Ended.                                    (* the player calls onEnded *)

(** One event; [None] when it cannot happen: a disabled button is not
    clicked, only listed voices are offered, an answer needs a request, and
    the player is rendered only when there is a result. *)
Definition step (e : Event) (s : State) : option State :=
  match e with
  | Change value => Some (onChange value s)
  | SelectSpeaker v =>
      if bool_decide (v ∈ SPEAKERS) then Some (setSpeaker v s) else None
  | ClickGenerate =>
      if disabled s then None else Some (handleGenerate s)
  | Settle reply captured =>
      match pending s with
      | O => None
      | S _ => Some (settle reply captured s)
      end
  | ClickPlayPause =>
      match result s with
      | Some _ => Some (handlePlayPause s)
      | None => None
      end
  | Ended => Some (onEnded s)
  end.

Fixpoint run (events : list Event) (s : State) : option State :=
  match events with
  | [] => Some s
  | e :: events' =>
      match step e s with
      | Some s' => run events' s'
      | None => None
      end
  end.

(** What every reachable state of the page satisfies. *)
Definition inv (s : State) : Prop :=
  (length (text s) <= 500)%nat /\
  speaker s ∈ SPEAKERS /\
  pending s = (if loading s then 1 else 0)%nat /\
  (loading s = true -> result s = None /\ error s = None) /\
  (result s = None -> isPlaying s = false) /\
  (forall b, b ∈ sent s ->
     exists t v, b = Route.mkBody (Some t) (Some v) /\
                 Str.trim t <> [] /\ (length t <= 500)%nat /\ v ∈ SPEAKERS).

(** A session: a text is typed, a voice chosen, the request sent and
    answered, and the result played. *)
Definition session : list Event :=
  [Change (Str.lit "hello"); SelectSpeaker (Str.lit "ritu"); ClickGenerate;
   Settle (Resolved true (mkData None None None (Some (Str.lit "hello da"))
                                 (Some (Str.lit "UklGRg==")))) true;
   ClickPlayPause].

Definition session_state : State :=
  Eval vm_compute in default initial (run session initial).

End Page.

(** ** Binary64 rounding *)

Lemma pow2_pos (e : Z) : 0 < JS.pow2 e.
Proof. apply Qpower_0_lt. reflexivity. Qed.

Lemma pow2_add (a b : Z) : JS.pow2 (a + b) == JS.pow2 a * JS.pow2 b.
Proof. apply Qpower_plus. discriminate. Qed.

Lemma pow2_le (a b : Z) : (a <= b)%Z -> JS.pow2 a <= JS.pow2 b.
Proof. intros H. apply Qpower_le_compat_l; [exact H | discriminate]. Qed.

Lemma pow2_lt (a b : Z) : (a < b)%Z -> JS.pow2 a < JS.pow2 b.
Proof. intros H. apply Qpower_lt_compat_l; [exact H | reflexivity]. Qed.

Lemma pow2_lt_inv (a b : Z) : JS.pow2 a < JS.pow2 b -> (a < b)%Z.
Proof. intros H. apply (Qpower_lt_compat_l_inv 2); [exact H | reflexivity]. Qed.

Lemma pow2_Z (n : Z) : (0 <= n)%Z -> JS.pow2 n == inject_Z (2 ^ n).
Proof. intros H. unfold JS.pow2. rewrite Zpower_Qpower by exact H. reflexivity. Qed.

Lemma pow2_succ (e : Z) : JS.pow2 (e + 1) == 2 * JS.pow2 e.
Proof. rewrite pow2_add. unfold JS.pow2 at 2. rewrite Qpower_1_r. ring. Qed.

Lemma pow2_pred (e : Z) : JS.pow2 (e - 1) == (1 # 2) * JS.pow2 e.
Proof.
  assert (H := pow2_succ (e - 1)). replace (e - 1 + 1)%Z with e in H by lia.
  rewrite H. ring.
Qed.

Lemma ilog2_spec (x : Q) :
  0 < x -> JS.pow2 (JS.ilog2 x) <= x /\ x < JS.pow2 (JS.ilog2 x + 1).
Proof.
  intros Hx. destruct x as [n d]. unfold JS.ilog2. cbn [Qnum Qden].
  assert (Hn : (0 < n)%Z).
  { unfold Qlt in Hx. cbn in Hx. lia. }
  set (a := Z.log2 n). set (b := Z.log2 (Z.pos d)).
  assert (Ha : (2 ^ a <= n < 2 ^ (a + 1))%Z).
  { subst a. pose proof (Z.log2_spec n Hn). rewrite <- Z.add_1_r in H. exact H. }
  assert (Hb : (2 ^ b <= Z.pos d < 2 ^ (b + 1))%Z).
  { subst b. pose proof (Z.log2_spec (Z.pos d) eq_refl). rewrite <- Z.add_1_r in H. exact H. }
  assert (Ha0 : (0 <= a)%Z) by apply Z.log2_nonneg.
  assert (Hb0 : (0 <= b)%Z) by apply Z.log2_nonneg.
  assert (Hxd : n # d == inject_Z n / inject_Z (Z.pos d)) by apply Qmake_Qdiv.
  assert (Hd : 0 < inject_Z (Z.pos d)) by (unfold Qlt; cbn; lia).
  assert (HaQ : JS.pow2 a <= inject_Z n /\ inject_Z n < JS.pow2 (a + 1)).
  { rewrite !pow2_Z by lia. split; [rewrite <- Zle_Qle | rewrite <- Zlt_Qlt]; lia. }
  assert (HbQ : JS.pow2 b <= inject_Z (Z.pos d) /\ inject_Z (Z.pos d) < JS.pow2 (b + 1)).
  { rewrite !pow2_Z by lia. split; [rewrite <- Zle_Qle | rewrite <- Zlt_Qlt]; lia. }
  assert (Hmul : (n # d) * inject_Z (Z.pos d) == inject_Z n).
  { rewrite Hxd. field. intros H0. rewrite H0 in Hd. discriminate. }
  (* x < 2^(a-b+1) and 2^(a-b-1) < x *)
  assert (Hup : n # d < JS.pow2 (a - b + 1)).
  { assert (E : JS.pow2 (a + 1) == JS.pow2 (a - b + 1) * JS.pow2 b).
    { rewrite <- pow2_add. replace (a - b + 1 + b)%Z with (a + 1)%Z by lia. reflexivity. }
    pose proof (pow2_pos (a - b + 1)) as Hp. pose proof (pow2_pos b) as Hpb.
    destruct HaQ as [_ HaQ]. destruct HbQ as [HbQ _].
    rewrite E in HaQ. rewrite <- Hmul in HaQ.
    set (X := n # d) in *. set (D := inject_Z (Z.pos d)) in *.
    set (P := JS.pow2 (a - b + 1)) in *. set (B := JS.pow2 b) in *.
    apply Qnot_le_lt. intros Hc. nra. }
  assert (Hlo : JS.pow2 (a - b - 1) < n # d).
  { assert (E : JS.pow2 a == JS.pow2 (a - b - 1) * JS.pow2 (b + 1)).
    { rewrite <- pow2_add. replace (a - b - 1 + (b + 1))%Z with a by lia. reflexivity. }
    pose proof (pow2_pos (a - b - 1)) as Hp. pose proof (pow2_pos (b + 1)) as Hpb.
    destruct HaQ as [HaQ _]. destruct HbQ as [_ HbQ].
    rewrite E in HaQ. rewrite <- Hmul in HaQ.
    set (X := n # d) in *. set (D := inject_Z (Z.pos d)) in *.
    set (P := JS.pow2 (a - b - 1)) in *. set (B := JS.pow2 (b + 1)) in *.
    apply Qnot_le_lt. intros Hc. nra. }
  destruct (Qle_bool (JS.pow2 (a - b)) (n # d)) eqn:Ht.
  - apply Qle_bool_iff in Ht. split; [exact Ht | exact Hup].
  - assert (Hlt : n # d < JS.pow2 (a - b)).
    { apply Qnot_le_lt. intros Hc. apply Qle_bool_iff in Hc. congruence. }
    replace (a - b - 1 + 1)%Z with (a - b)%Z by lia.
    split; [apply Qlt_le_weak; exact Hlo | exact Hlt].
Qed.

Lemma ilog2_unique (x : Q) (k : Z) :
  JS.pow2 k <= x -> x < JS.pow2 (k + 1) -> JS.ilog2 x = k.
Proof.
  intros Hlo Hhi.
  assert (Hx : 0 < x) by (eapply Qlt_le_trans; [apply (pow2_pos k) | exact Hlo]).
  destruct (ilog2_spec x Hx) as [Hl Hh].
  assert (H1 : (k < JS.ilog2 x + 1)%Z).
  { apply pow2_lt_inv. eapply Qle_lt_trans; [exact Hlo | exact Hh]. }
  assert (H2 : (JS.ilog2 x < k + 1)%Z).
  { apply pow2_lt_inv. eapply Qle_lt_trans; [exact Hl | exact Hhi]. }
  lia.
Qed.

Lemma ilog2_mono (x y : Q) : 0 < x -> x <= y -> (JS.ilog2 x <= JS.ilog2 y)%Z.
Proof.
  intros Hx Hxy.
  assert (Hy : 0 < y) by (eapply Qlt_le_trans; eassumption).
  destruct (ilog2_spec x Hx) as [Hl _]. destruct (ilog2_spec y Hy) as [_ Hh].
  assert (H : (JS.ilog2 x < JS.ilog2 y + 1)%Z).
  { apply pow2_lt_inv. eapply Qle_lt_trans; [exact Hl |]. eapply Qle_lt_trans; eassumption. }
  lia.
Qed.

(** The canonical exponent. *)

Lemma cexp_compat (x y : Q) : x == y -> JS.cexp x = JS.cexp y.
Proof.
  intros H. unfold JS.cexp.
  assert (E : Qred (Qabs x) = Qred (Qabs y)).
  { apply Qred_complete. rewrite H. reflexivity. }
  rewrite E. reflexivity.
Qed.

Lemma cexp_min (x : Q) : (-1074 <= JS.cexp x)%Z.
Proof. unfold JS.cexp. lia. Qed.

Lemma cexp_pos (x : Q) :
  0 < x ->
  exists l, JS.cexp x = Z.max (l - 52) (-1074) /\ JS.pow2 l <= x /\ x < JS.pow2 (l + 1).
Proof.
  intros Hx. exists (JS.ilog2 (Qred (Qabs x))). split; [reflexivity|].
  assert (E : Qred (Qabs x) == x).
  { rewrite Qred_correct. apply Qabs_pos. apply Qlt_le_weak. exact Hx. }
  assert (Hp : 0 < Qred (Qabs x)) by (rewrite E; exact Hx).
  destruct (ilog2_spec _ Hp) as [H1 H2]. split.
  - eapply Qle_trans; [exact H1 | rewrite E; apply Qle_refl].
  - eapply Qle_lt_trans; [|exact H2]. rewrite E. apply Qle_refl.
Qed.

Lemma cexp_of (x : Q) (l : Z) :
  JS.pow2 l <= x -> x < JS.pow2 (l + 1) -> JS.cexp x = Z.max (l - 52) (-1074).
Proof.
  intros Hlo Hhi.
  assert (Hx : 0 < x) by (eapply Qlt_le_trans; [apply (pow2_pos l) | exact Hlo]).
  destruct (cexp_pos x Hx) as (l' & -> & H1 & H2).
  assert (l' = l); [|subst; reflexivity].
  assert (A : (l < l' + 1)%Z).
  { apply pow2_lt_inv. eapply Qle_lt_trans; eassumption. }
  assert (B : (l' < l + 1)%Z).
  { apply pow2_lt_inv. eapply Qle_lt_trans; eassumption. }
  lia.
Qed.

Lemma cexp_mono (x y : Q) : 0 < x -> x <= y -> (JS.cexp x <= JS.cexp y)%Z.
Proof.
  intros Hx Hxy.
  assert (Hy : 0 < y) by (eapply Qlt_le_trans; eassumption).
  destruct (cexp_pos x Hx) as (lx & -> & H1 & H2).
  destruct (cexp_pos y Hy) as (ly & -> & H3 & H4).
  assert (A : (lx < ly + 1)%Z).
  { apply pow2_lt_inv. eapply Qle_lt_trans; [exact H1|]. eapply Qle_lt_trans; eassumption. }
  lia.
Qed.

(** Rounding to the nearest integer, ties to even. *)

Lemma rne_compat (p q : Q) : p == q -> JS.rne p = JS.rne q.
Proof.
  intros H. unfold JS.rne.
  assert (E : Qfloor p = Qfloor q) by (apply Qfloor_comp; exact H).
  rewrite E.
  assert (C : Qcompare (p - inject_Z (Qfloor q)) (1 # 2) =
              Qcompare (q - inject_Z (Qfloor q)) (1 # 2)).
  { apply Qcompare_comp; [rewrite H; reflexivity | reflexivity]. }
  rewrite C. reflexivity.
Qed.

Lemma rne_cases (q : Q) :
  let f := Qfloor q in
  (JS.rne q = f /\ q - inject_Z f <= 1 # 2) \/
  (JS.rne q = (f + 1)%Z /\ 1 # 2 <= q - inject_Z f).
Proof.
  intros f. unfold JS.rne. fold f.
  destruct (Qcompare (q - inject_Z f) (1 # 2)) eqn:C.
  - apply Qeq_alt in C. destruct (Z.even f).
    + left. split; [reflexivity | rewrite C; apply Qle_refl].
    + right. split; [reflexivity | rewrite C; apply Qle_refl].
  - apply Qlt_alt in C. left. split; [reflexivity | apply Qlt_le_weak; exact C].
  - apply Qgt_alt in C. right. split; [reflexivity | apply Qlt_le_weak; exact C].
Qed.

Lemma floor_bounds (q : Q) : inject_Z (Qfloor q) <= q /\ q < inject_Z (Qfloor q) + 1.
Proof.
  split; [apply Qfloor_le|].
  pose proof (Qlt_floor q) as H. rewrite inject_Z_plus in H. exact H.
Qed.

Lemma rne_err (q : Q) :
  inject_Z (JS.rne q) - q <= 1 # 2 /\ q - inject_Z (JS.rne q) <= 1 # 2.
Proof.
  destruct (floor_bounds q) as [H1 H2].
  destruct (rne_cases q) as [[-> H] | [-> H]].
  - split; lra.
  - rewrite inject_Z_plus. change (inject_Z 1) with 1. split; lra.
Qed.

Lemma rne_Z (z : Z) : JS.rne (inject_Z z) = z.
Proof.
  unfold JS.rne. rewrite Qfloor_Z.
  assert (C : Qcompare (inject_Z z - inject_Z z) (1 # 2) = Lt).
  { rewrite <- Qlt_alt. lra. }
  rewrite C. reflexivity.
Qed.

Lemma Qfloor_mono (p q : Q) : p <= q -> (Qfloor p <= Qfloor q)%Z.
Proof. apply Qfloor_resp_le. Qed.

Lemma rne_spec (q : Q) :
  let f := Qfloor q in
  (q - inject_Z f < 1 # 2 /\ JS.rne q = f) \/
  (1 # 2 < q - inject_Z f /\ JS.rne q = (f + 1)%Z) \/
  (q - inject_Z f == 1 # 2 /\ JS.rne q = if Z.even f then f else (f + 1)%Z).
Proof.
  intros f. unfold JS.rne. fold f.
  destruct (Qcompare (q - inject_Z f) (1 # 2)) eqn:C.
  - rewrite <- Qeq_alt in C. right. right. split; [exact C | reflexivity].
  - rewrite <- Qlt_alt in C. left. split; [exact C | reflexivity].
  - rewrite <- Qgt_alt in C. right. left. split; [exact C | reflexivity].
Qed.

Lemma rne_mono (p q : Q) : p <= q -> (JS.rne p <= JS.rne q)%Z.
Proof.
  intros H. pose proof (Qfloor_mono p q H) as Hf.
  destruct (Z.eq_dec (Qfloor p) (Qfloor q)) as [E | NE].
  - pose proof (rne_spec p) as Sp. pose proof (rne_spec q) as Sq. cbv zeta in Sp, Sq.
    rewrite <- E in Sq.
    destruct Sp as [[Cp ->] | [[Cp ->] | [Cp ->]]];
      destruct Sq as [[Cq ->] | [[Cq ->] | [Cq ->]]];
      try (destruct (Z.even (Qfloor p))); try lia; exfalso; lra.
  - destruct (rne_cases p) as [[-> _] | [-> _]]; destruct (rne_cases q) as [[-> _] | [-> _]]; lia.
Qed.

Lemma rne_nonneg (q : Q) : 0 <= q -> (0 <= JS.rne q)%Z.
Proof.
  intros H. change 0%Z with (JS.rne (inject_Z 0)) at 1 || idtac.
  pose proof (rne_mono (inject_Z 0) q H) as M. rewrite rne_Z in M. exact M.
Qed.

(** Rounding a non-negative rational to binary64. *)

Lemma scaled_mul (a : Q) (e : Z) : a / JS.pow2 e * JS.pow2 e == a.
Proof. field. pose proof (pow2_pos e) as H. intros E. rewrite E in H. discriminate. Qed.

Lemma rnd_abs_compat (a b : Q) : a == b -> JS.rnd_abs a == JS.rnd_abs b.
Proof.
  intros H. unfold JS.rnd_abs. rewrite (cexp_compat a b H).
  rewrite (rne_compat (a / JS.pow2 (JS.cexp b)) (b / JS.pow2 (JS.cexp b))).
  - reflexivity.
  - rewrite H. reflexivity.
Qed.

Lemma rnd_abs_zero (a : Q) : a == 0 -> JS.rnd_abs a == 0.
Proof.
  intros H. unfold JS.rnd_abs.
  rewrite (rne_compat (a / JS.pow2 (JS.cexp a)) (inject_Z 0)).
  - rewrite rne_Z. ring.
  - set (P := JS.pow2 (JS.cexp a)). rewrite H. unfold Qdiv. ring.
Qed.

Lemma pow2_53 : JS.pow2 53 == inject_Z (2 ^ 53).
Proof. apply pow2_Z. lia. Qed.

Lemma pow2_52 : JS.pow2 52 == inject_Z (2 ^ 52).
Proof. apply pow2_Z. lia. Qed.

Lemma scaled_bounds (a : Q) :
  0 < a ->
  a / JS.pow2 (JS.cexp a) < inject_Z (2 ^ 53) /\
  ((-1074 < JS.cexp a)%Z -> inject_Z (2 ^ 52) <= a / JS.pow2 (JS.cexp a)).
Proof.
  intros Ha. destruct (cexp_pos a Ha) as (l & He & Hlo & Hhi).
  set (e := JS.cexp a) in *.
  pose proof (pow2_pos e) as Hp. pose proof (scaled_mul a e) as Hm.
  set (q := a / JS.pow2 e) in *.
  split.
  - assert (H1 : JS.pow2 (l + 1) <= JS.pow2 (e + 53)) by (apply pow2_le; lia).
    rewrite (pow2_add e 53), pow2_53 in H1.
    set (P := JS.pow2 e) in *. set (B := inject_Z (2 ^ 53)) in *.
    apply Qnot_le_lt. intros Hc.
    assert (B * P <= q * P) by nra. lra.
  - intros Hnc. assert (El : l = (e + 52)%Z) by lia.
    rewrite El, (pow2_add e 52), pow2_52 in Hlo.
    set (P := JS.pow2 e) in *. set (B := inject_Z (2 ^ 52)) in *.
    apply Qnot_lt_le. intros Hc.
    assert (q * P < B * P) by nra. lra.
Qed.

Lemma rnd_abs_mantissa (a : Q) :
  0 < a ->
  (0 <= JS.rne (a / JS.pow2 (JS.cexp a)) <= 2 ^ 53)%Z /\
  ((-1074 < JS.cexp a)%Z -> (2 ^ 52 <= JS.rne (a / JS.pow2 (JS.cexp a)))%Z).
Proof.
  intros Ha. destruct (scaled_bounds a Ha) as [H1 H2].
  assert (Hq : 0 <= a / JS.pow2 (JS.cexp a)).
  { pose proof (pow2_pos (JS.cexp a)) as Hp. pose proof (scaled_mul a (JS.cexp a)) as Hm.
    set (q := a / JS.pow2 (JS.cexp a)) in *. set (P := JS.pow2 (JS.cexp a)) in *.
    apply Qnot_lt_le. intros Hc. assert (q * P < 0) by nra. lra. }
  split; [split|].
  - apply rne_nonneg. exact Hq.
  - rewrite <- (rne_Z (2 ^ 53)). apply rne_mono. apply Qlt_le_weak. exact H1.
  - intros Hnc. rewrite <- (rne_Z (2 ^ 52)). apply rne_mono. apply H2. exact Hnc.
Qed.

Lemma rnd_abs_nonneg (a : Q) : 0 <= a -> 0 <= JS.rnd_abs a.
Proof.
  intros Ha. unfold JS.rnd_abs.
  pose proof (pow2_pos (JS.cexp a)) as Hp.
  assert (Hq : 0 <= a / JS.pow2 (JS.cexp a)).
  { pose proof (scaled_mul a (JS.cexp a)) as Hm.
    set (q := a / JS.pow2 (JS.cexp a)) in *. set (P := JS.pow2 (JS.cexp a)) in *.
    apply Qnot_lt_le. intros Hc. assert (q * P < 0) by nra. lra. }
  pose proof (rne_nonneg _ Hq) as Hr.
  assert (0 <= inject_Z (JS.rne (a / JS.pow2 (JS.cexp a)))).
  { change 0 with (inject_Z 0). rewrite <- Zle_Qle. exact Hr. }
  apply Qmult_le_0_compat; [assumption | apply Qlt_le_weak; assumption].
Qed.

Lemma rnd_abs_mono (a b : Q) : 0 <= a -> a <= b -> JS.rnd_abs a <= JS.rnd_abs b.
Proof.
  intros Ha Hab.
  destruct (Qlt_le_dec 0 a) as [Hpos | Hz].
  2:{ rewrite (rnd_abs_zero a) by lra. apply rnd_abs_nonneg. lra. }
  assert (Hb : 0 < b) by lra.
  pose proof (cexp_mono a b Hpos Hab) as He.
  destruct (Z.eq_dec (JS.cexp a) (JS.cexp b)) as [E | NE].
  - unfold JS.rnd_abs. rewrite E.
    pose proof (pow2_pos (JS.cexp b)) as Hp.
    assert (Hq : a / JS.pow2 (JS.cexp b) <= b / JS.pow2 (JS.cexp b)).
    { apply Qmult_le_compat_r; [exact Hab | apply Qlt_le_weak, Qinv_lt_0_compat; exact Hp]. }
    pose proof (rne_mono _ _ Hq) as Hr. rewrite Zle_Qle in Hr.
    apply Qmult_le_compat_r; [exact Hr | apply Qlt_le_weak; exact Hp].
  - assert (Hlt : (JS.cexp a < JS.cexp b)%Z) by lia.
    destruct (rnd_abs_mantissa a Hpos) as [[_ Ha53] _].
    destruct (rnd_abs_mantissa b Hb) as [_ Hb52].
    pose proof (cexp_min a) as Hmin.
    specialize (Hb52 ltac:(lia)).
    unfold JS.rnd_abs.
    rewrite Zle_Qle in Ha53, Hb52. rewrite <- pow2_53 in Ha53. rewrite <- pow2_52 in Hb52.
    pose proof (pow2_pos (JS.cexp a)) as Hpa. pose proof (pow2_pos (JS.cexp b)) as Hpb.
    assert (Hstep : JS.pow2 53 * JS.pow2 (JS.cexp a) <= JS.pow2 52 * JS.pow2 (JS.cexp b)).
    { rewrite <- !pow2_add. apply pow2_le. lia. }
    pose proof (pow2_pos 53) as H53. pose proof (pow2_pos 52) as H52.
    set (ma := inject_Z (JS.rne (a / JS.pow2 (JS.cexp a)))) in *.
    set (mb := inject_Z (JS.rne (b / JS.pow2 (JS.cexp b)))) in *.
    set (Pa := JS.pow2 (JS.cexp a)) in *. set (Pb := JS.pow2 (JS.cexp b)) in *.
    set (A := JS.pow2 53) in *. set (B := JS.pow2 52) in *.
    assert (ma * Pa <= A * Pa) by nra.
    assert (B * Pb <= mb * Pb) by nra.
    lra.
Qed.

Lemma rnd_abs_fixed (a : Q) (M E : Z) :
  (0 <= M < 2 ^ 53)%Z -> (-1074 <= E)%Z -> a == inject_Z M * JS.pow2 E ->
  JS.rnd_abs a == a.
Proof.
  intros HM HE Ha.
  destruct (Z.eq_dec M 0%Z) as [-> | HM0].
  { rewrite rnd_abs_zero; [|rewrite Ha; ring]. rewrite Ha. ring. }
  pose proof (pow2_pos E) as HpE.
  assert (HMq : 0 < inject_Z M) by (change 0 with (inject_Z 0); rewrite <- Zlt_Qlt; lia).
  assert (Hpos : 0 < a).
  { rewrite Ha. apply Qmult_lt_0_compat; assumption. }
  destruct (cexp_pos a Hpos) as (l & He & Hlo & Hhi).
  assert (Hl : (l < 53 + E)%Z).
  { apply pow2_lt_inv. eapply Qle_lt_trans; [exact Hlo|]. rewrite Ha, pow2_add, pow2_53.
    assert (inject_Z M < inject_Z (2 ^ 53)) by (rewrite <- Zlt_Qlt; lia).
    set (m := inject_Z M) in *. set (B := inject_Z (2 ^ 53)) in *. set (P := JS.pow2 E) in *.
    nra. }
  set (e := JS.cexp a) in *.
  assert (Hee : (e <= E)%Z) by lia.
  unfold JS.rnd_abs. fold e.
  assert (Hq : a / JS.pow2 e == inject_Z (M * 2 ^ (E - e))).
  { rewrite inject_Z_mult, <- pow2_Z by lia. rewrite Ha.
    replace E with (E - e + e)%Z at 1 by lia. rewrite pow2_add.
    field. pose proof (pow2_pos e) as H. intros H0. rewrite H0 in H. discriminate. }
  rewrite (rne_compat _ _ Hq), rne_Z, <- Hq. apply scaled_mul.
Qed.

Lemma rnd_abs_err (a : Q) :
  0 <= a ->
  JS.rnd_abs a - a <= JS.pow2 (JS.cexp a - 1) /\ a - JS.rnd_abs a <= JS.pow2 (JS.cexp a - 1).
Proof.
  intros Ha. unfold JS.rnd_abs. set (e := JS.cexp a).
  pose proof (pow2_pos e) as Hp. pose proof (scaled_mul a e) as Hm.
  destruct (rne_err (a / JS.pow2 e)) as [H1 H2].
  rewrite pow2_pred.
  set (q := a / JS.pow2 e) in *. set (m := inject_Z (JS.rne q)) in *. set (P := JS.pow2 e) in *.
  split.
  - assert ((m - q) * P <= (1 # 2) * P) by nra. nra.
  - assert ((q - m) * P <= (1 # 2) * P) by nra. nra.
Qed.

(** Rounding a rational to binary64: round to nearest, ties to even. *)

Lemma rnd_nonneg_eq (x : Q) : 0 <= x -> JS.rnd x == JS.rnd_abs x.
Proof.
  intros H. unfold JS.rnd. rewrite Qred_correct.
  destruct (Qlt_le_dec x 0) as [Hn | _]; [exfalso; lra | reflexivity].
Qed.

Lemma rnd_neg_eq (x : Q) : x < 0 -> JS.rnd x == - JS.rnd_abs (- x).
Proof.
  intros H. unfold JS.rnd. rewrite Qred_correct.
  destruct (Qlt_le_dec x 0) as [_ | Hn]; [reflexivity | exfalso; lra].
Qed.

Lemma rnd_compat (x y : Q) : x == y -> JS.rnd x = JS.rnd y.
Proof.
  intros H. unfold JS.rnd. apply Qred_complete.
  destruct (Qlt_le_dec x 0) as [Hx | Hx]; destruct (Qlt_le_dec y 0) as [Hy | Hy];
    try (exfalso; lra).
  - apply Qopp_comp. apply rnd_abs_compat. rewrite H. reflexivity.
  - apply rnd_abs_compat. exact H.
Qed.

Lemma rnd_0 : JS.rnd 0 == 0.
Proof. rewrite rnd_nonneg_eq by lra. apply rnd_abs_zero. reflexivity. Qed.

Lemma rnd_opp (x : Q) : JS.rnd (- x) == - JS.rnd x.
Proof.
  destruct (Qlt_le_dec x 0) as [Hn | Hp].
  - rewrite (rnd_neg_eq x Hn), (rnd_nonneg_eq (- x)) by lra. ring.
  - destruct (Qlt_le_dec 0 x) as [Hpos | Hz].
    + rewrite (rnd_neg_eq (- x)) by lra. rewrite (rnd_nonneg_eq x) by lra.
      rewrite (rnd_abs_compat (- - x) x) by ring. reflexivity.
    + assert (E : x == 0) by lra.
      rewrite (rnd_compat (- x) 0) by (rewrite E; ring).
      rewrite (rnd_compat x 0) by exact E. rewrite rnd_0. ring.
Qed.

Lemma rnd_nonneg (x : Q) : 0 <= x -> 0 <= JS.rnd x.
Proof. intros H. rewrite rnd_nonneg_eq by exact H. apply rnd_abs_nonneg. exact H. Qed.

Lemma rnd_nonpos (x : Q) : x <= 0 -> JS.rnd x <= 0.
Proof.
  intros H. assert (E : x == - - x) by ring. rewrite (rnd_compat _ _ E), rnd_opp.
  assert (0 <= JS.rnd (- x)) by (apply rnd_nonneg; lra). lra.
Qed.

Lemma rnd_mono (x y : Q) : x <= y -> JS.rnd x <= JS.rnd y.
Proof.
  intros H. destruct (Qlt_le_dec x 0) as [Hx | Hx]; destruct (Qlt_le_dec y 0) as [Hy | Hy].
  - rewrite (rnd_neg_eq x Hx), (rnd_neg_eq y Hy).
    assert (JS.rnd_abs (- y) <= JS.rnd_abs (- x)) by (apply rnd_abs_mono; lra). lra.
  - assert (JS.rnd x <= 0) by (apply rnd_nonpos; lra).
    assert (0 <= JS.rnd y) by (apply rnd_nonneg; lra). lra.
  - exfalso. lra.
  - rewrite (rnd_nonneg_eq x Hx), (rnd_nonneg_eq y Hy). apply rnd_abs_mono; assumption.
Qed.

Lemma rnd_fixed (x : Q) (M E : Z) :
  (Z.abs M < 2 ^ 53)%Z -> (-1074 <= E)%Z -> x == inject_Z M * JS.pow2 E -> JS.rnd x == x.
Proof.
  intros HM HE Hx. pose proof (pow2_pos E) as Hp.
  destruct (Z_lt_le_dec M 0%Z) as [Hneg | Hpos].
  - assert (Hxn : x < 0).
    { rewrite Hx. assert (inject_Z M < 0) by (change 0 with (inject_Z 0); rewrite <- Zlt_Qlt; lia).
      set (m := inject_Z M) in *. set (P := JS.pow2 E) in *. nra. }
    rewrite (rnd_neg_eq x Hxn).
    rewrite (rnd_abs_fixed (- x) (- M) E); [ring | lia | exact HE |].
    rewrite Hx, inject_Z_opp. ring.
  - assert (Hxp : 0 <= x).
    { rewrite Hx. assert (0 <= inject_Z M) by (change 0 with (inject_Z 0); rewrite <- Zle_Qle; lia).
      set (m := inject_Z M) in *. set (P := JS.pow2 E) in *. nra. }
    rewrite (rnd_nonneg_eq x Hxp). apply (rnd_abs_fixed x M E); [lia | exact HE | exact Hx].
Qed.

Lemma pow2_0 : JS.pow2 0 == 1.
Proof. reflexivity. Qed.

Lemma pow2_1 : JS.pow2 1 == 2.
Proof. reflexivity. Qed.

Lemma rnd_Z (z : Z) : (Z.abs z <= 2 ^ 53)%Z -> JS.rnd (inject_Z z) == inject_Z z.
Proof.
  intros Hz. destruct (Z.eq_dec (Z.abs z) (2 ^ 53)%Z) as [E | NE].
  - apply (rnd_fixed _ (z / 2) 1); [| lia |].
    + assert (z = 2 ^ 53 \/ z = - 2 ^ 53)%Z as [-> | ->] by lia; vm_compute; reflexivity.
    + assert (z = 2 ^ 53 \/ z = - 2 ^ 53)%Z as [-> | ->] by lia; vm_compute; reflexivity.
  - apply (rnd_fixed _ z 0); [lia | lia | rewrite pow2_0; ring].
Qed.

(** Every result of rounding has the form M * 2^E with |M| < 2^53 and
    E >= -1074, and rounding leaves such numbers as they are. *)
Lemma rnd_abs_format (a : Q) :
  0 <= a ->
  exists M E, JS.rnd_abs a == inject_Z M * JS.pow2 E /\ (0 <= M < 2 ^ 53)%Z /\ (-1074 <= E)%Z.
Proof.
  intros Ha. destruct (Qlt_le_dec 0 a) as [Hpos | Hz].
  2:{ exists 0%Z, 0%Z. split; [|lia]. rewrite rnd_abs_zero by lra. ring. }
  destruct (rnd_abs_mantissa a Hpos) as [[H0 H53] _]. pose proof (cexp_min a) as Hmin.
  destruct (Z.eq_dec (JS.rne (a / JS.pow2 (JS.cexp a))) (2 ^ 53)%Z) as [E | NE].
  - exists (2 ^ 52)%Z, (JS.cexp a + 1)%Z. split; [|lia].
    unfold JS.rnd_abs. rewrite E, pow2_succ.
    change (inject_Z (2 ^ 53)) with (2 * inject_Z (2 ^ 52)). ring.
  - exists (JS.rne (a / JS.pow2 (JS.cexp a))), (JS.cexp a). split; [reflexivity | lia].
Qed.

Lemma rnd_format (x : Q) :
  exists M E, JS.rnd x == inject_Z M * JS.pow2 E /\ (Z.abs M < 2 ^ 53)%Z /\ (-1074 <= E)%Z.
Proof.
  destruct (Qlt_le_dec x 0) as [Hn | Hp].
  - destruct (rnd_abs_format (- x)) as (M & E & H & HM & HE); [lra|].
    exists (- M)%Z, E. split; [|lia]. rewrite (rnd_neg_eq x Hn), H, inject_Z_opp. ring.
  - destruct (rnd_abs_format x Hp) as (M & E & H & HM & HE).
    exists M, E. split; [|lia]. rewrite (rnd_nonneg_eq x Hp). exact H.
Qed.

Lemma rnd_idem (x : Q) : JS.rnd (JS.rnd x) == JS.rnd x.
Proof.
  destruct (rnd_format x) as (M & E & H & HM & HE). apply (rnd_fixed _ M E); assumption.
Qed.

Lemma is_double_rnd (x : Q) : JS.is_double (JS.rnd x).
Proof. apply rnd_idem. Qed.

Lemma is_double_Z (z : Z) : (Z.abs z <= 2 ^ 53)%Z -> JS.is_double (inject_Z z).
Proof. apply rnd_Z. Qed.

Lemma rnd_le_double (x c : Q) : JS.is_double c -> x <= c -> JS.rnd x <= c.
Proof. intros Hc H. unfold JS.is_double in Hc. rewrite <- Hc. apply rnd_mono. exact H. Qed.

Lemma rnd_ge_double (x c : Q) : JS.is_double c -> c <= x -> c <= JS.rnd x.
Proof. intros Hc H. unfold JS.is_double in Hc. rewrite <- Hc. apply rnd_mono. exact H. Qed.

Lemma cexp_opp (x : Q) : JS.cexp (- x) = JS.cexp x.
Proof.
  unfold JS.cexp.
  assert (E : Qred (Qabs (- x)) = Qred (Qabs x)).
  { apply Qred_complete. apply Qabs_opp. }
  rewrite E. reflexivity.
Qed.

(** The error of one rounding is at most half a unit in the last place. *)
Lemma rnd_err (x : Q) :
  JS.rnd x - x <= JS.pow2 (JS.cexp x - 1) /\ x - JS.rnd x <= JS.pow2 (JS.cexp x - 1).
Proof.
  destruct (Qlt_le_dec x 0) as [Hn | Hp].
  - rewrite (rnd_neg_eq x Hn). destruct (rnd_abs_err (- x)) as [H1 H2]; [lra|].
    rewrite cexp_opp in H1, H2. split; lra.
  - rewrite (rnd_nonneg_eq x Hp). apply rnd_abs_err. exact Hp.
Qed.

(** A double is a multiple of the unit in its last place. *)
Lemma double_canonical (x : Q) :
  JS.is_double x -> exists M, x == inject_Z M * JS.pow2 (JS.cexp x).
Proof.
  intros H. unfold JS.is_double in H.
  destruct (Qlt_le_dec x 0) as [Hn | Hp].
  - rewrite (rnd_neg_eq x Hn) in H. unfold JS.rnd_abs in H. rewrite cexp_opp in H.
    exists (- JS.rne (- x / JS.pow2 (JS.cexp x)))%Z. rewrite inject_Z_opp.
    rewrite <- H at 1. ring.
  - rewrite (rnd_nonneg_eq x Hp) in H. unfold JS.rnd_abs in H.
    exists (JS.rne (x / JS.pow2 (JS.cexp x))). rewrite <- H at 1. reflexivity.
Qed.

(** ** Floors of rounded quotients *)

Lemma Qfloor_unique (x : Q) (z : Z) :
  inject_Z z <= x -> x < inject_Z (z + 1) -> Qfloor x = z.
Proof.
  intros H1 H2.
  assert (A : (z <= Qfloor x)%Z).
  { rewrite <- (Qfloor_Z z). apply Qfloor_resp_le. exact H1. }
  assert (B : (Qfloor x < z + 1)%Z).
  { rewrite Zlt_Qlt. eapply Qle_lt_trans; [apply Qfloor_le | exact H2]. }
  lia.
Qed.

Lemma inject_Z_sub (a b : Z) : inject_Z (a - b) == inject_Z a - inject_Z b.
Proof. unfold Z.sub. rewrite inject_Z_plus, inject_Z_opp. ring. Qed.

Lemma inject_Z_lt_pos (k : Z) : 0 < inject_Z k -> 1 <= inject_Z k.
Proof.
  intros H. change 0 with (inject_Z 0) in H. rewrite <- Zlt_Qlt in H.
  change 1 with (inject_Z 1). rewrite <- Zle_Qle. lia.
Qed.

(** For a double [s] below 2^(t+53), dividing by n * 2^t (with n below
    2^(L+1)) and rounding does not carry the quotient over the next integer. *)
Lemma floor_rnd_quotient (s d : Q) (n t L : Z) :
  JS.is_double s -> 0 <= s -> s < JS.pow2 (t + 53) ->
  (0 <= L)%Z -> (2 ^ L <= n < 2 ^ (L + 1))%Z -> (-1074 <= t)%Z ->
  d == inject_Z n * JS.pow2 t ->
  Qfloor (JS.rnd (s / d)) = Qfloor (s / d).
Proof.
  intros Hs Hs0 Hslt HL Hn Ht Hd.
  assert (HL0 : (0 < 2 ^ L)%Z) by (apply Z.pow_pos_nonneg; lia).
  assert (Hn1 : 1 <= inject_Z n) by (change 1 with (inject_Z 1); rewrite <- Zle_Qle; lia).
  pose proof (pow2_pos t) as Hpt.
  assert (Hdpos : 0 < d).
  { rewrite Hd. set (N := inject_Z n) in *. set (T := JS.pow2 t) in *. nra. }
  assert (Hdne : ~ d == 0) by (intros E; rewrite E in Hdpos; discriminate).
  set (x := s / d).
  assert (Hxd : x * d == s) by (unfold x; field; exact Hdne).
  assert (Hx0 : 0 <= x).
  { apply Qnot_lt_le. intros Hc. assert (x * d < 0) by nra. lra. }
  set (m := Qfloor x).
  destruct (floor_bounds x) as [Hm1 Hm2]. fold m in Hm1, Hm2.
  assert (Hm0 : (0 <= m)%Z).
  { unfold m. rewrite <- (Qfloor_Z 0). apply Qfloor_resp_le. exact Hx0. }
  (* x < 2^53 *)
  assert (Hx53 : x < inject_Z (2 ^ 53)).
  { rewrite <- pow2_53. apply Qnot_le_lt. intros Hc.
    rewrite (pow2_add t 53) in Hslt. pose proof (pow2_pos 53) as H53.
    set (B := JS.pow2 53) in *. set (T := JS.pow2 t) in *. set (N := inject_Z n) in *.
    assert (B * T <= x * d).
    { rewrite Hd. assert (B * T <= x * T) by nra. assert (x * T <= x * (N * T)) by nra. lra. }
    lra. }
  assert (Hm53 : (m + 1 <= 2 ^ 53)%Z).
  { assert (m < 2 ^ 53)%Z; [|lia]. rewrite Zlt_Qlt. lra. }
  apply Qfloor_unique.
  { apply rnd_ge_double; [apply is_double_Z; lia | exact Hm1]. }
  rewrite inject_Z_plus. change (inject_Z 1) with 1.
  destruct (Qlt_le_dec x (1 # 2)) as [Hsmall | Hbig].
  { assert (JS.rnd x <= 1 # 2).
    { apply rnd_le_double; [|lra]. apply (rnd_fixed _ 1 (-1)); [lia | lia | reflexivity]. }
    assert (0 <= inject_Z m) by (change 0 with (inject_Z 0); rewrite <- Zle_Qle; lia).
    lra. }
  (* the quotient is normal: its exponent is not clamped *)
  assert (Hxpos : 0 < x) by lra.
  destruct (cexp_pos x Hxpos) as (lx & Hcx & Hlx1 & Hlx2).
  assert (Hlx : (-1 <= lx)%Z).
  { assert (-1 < lx + 1)%Z; [|lia]. apply pow2_lt_inv.
    eapply Qle_lt_trans; [|exact Hlx2]. change (JS.pow2 (-1)) with (1 # 2). exact Hbig. }
  assert (Hspos : 0 < s).
  { rewrite <- Hxd. nra. }
  destruct (cexp_pos s Hspos) as (ls & Hcs & Hls1 & Hls2).
  assert (Hlst : (ls < t + 53)%Z).
  { apply pow2_lt_inv. eapply Qle_lt_trans; eassumption. }
  (* lx <= ls - L - t *)
  assert (Hlxls : (lx <= ls - L - t)%Z).
  { assert (lx < ls - L - t + 1)%Z; [|lia]. apply pow2_lt_inv.
    eapply Qle_lt_trans; [exact Hlx1|].
    assert (E : JS.pow2 (ls + 1) == JS.pow2 (ls - L - t + 1) * (JS.pow2 L * JS.pow2 t)).
    { rewrite <- !pow2_add. replace (ls - L - t + 1 + (L + t))%Z with (ls + 1)%Z by lia.
      reflexivity. }
    rewrite E in Hls2.
    assert (HLn : JS.pow2 L <= inject_Z n) by (rewrite pow2_Z by lia; rewrite <- Zle_Qle; lia).
    pose proof (pow2_pos L) as HpL. pose proof (pow2_pos (ls - L - t + 1)) as HpX.
    set (X := JS.pow2 (ls - L - t + 1)) in *. set (PL := JS.pow2 L) in *.
    set (T := JS.pow2 t) in *. set (N := inject_Z n) in *.
    apply Qnot_le_lt. intros Hc.
    assert (X * (PL * T) <= x * d).
    { rewrite Hd. assert (X * (PL * T) <= x * (PL * T)) by nra.
      assert (x * (PL * T) <= x * (N * T)) by nra. lra. }
    lra. }
  set (es := JS.cexp s) in *. set (c := JS.cexp x) in *.
  assert (Hc : (c - 1 <= es - (L + 1) - t)%Z) by lia.
  assert (Hest : (es <= t)%Z) by lia.
  (* s is a multiple of 2^es, and so is n (m+1) 2^t *)
  destruct (double_canonical s Hs) as (Ms & HMs). fold es in HMs.
  set (K := (n * (m + 1) * 2 ^ (t - es) - Ms)%Z).
  assert (HK : inject_Z K * JS.pow2 es == inject_Z n * JS.pow2 t * (inject_Z m + 1) - s).
  { unfold K. rewrite inject_Z_sub, !inject_Z_mult, inject_Z_plus.
    change (inject_Z 1) with 1. rewrite <- (pow2_Z (t - es)) by lia.
    rewrite HMs at 1.
    assert (E : JS.pow2 t == JS.pow2 (t - es) * JS.pow2 es).
    { rewrite <- pow2_add. replace (t - es + es)%Z with t by lia. reflexivity. }
    rewrite E. ring. }
  pose proof (pow2_pos es) as Hpes.
  assert (Hgap : 0 < inject_Z n * JS.pow2 t * (inject_Z m + 1) - s).
  { rewrite <- Hxd, Hd. set (N := inject_Z n) in *. set (T := JS.pow2 t) in *.
    assert (0 < N * T) by nra. nra. }
  assert (HK1 : 1 <= inject_Z K).
  { apply inject_Z_lt_pos. apply Qnot_le_lt. intros Hc0.
    rewrite <- HK in Hgap. set (E := JS.pow2 es) in *. nra. }
  (* the gap to the next integer exceeds half a unit in the last place *)
  destruct (rnd_err x) as [Herr _]. fold c in Herr.
  assert (Hulp : JS.pow2 (c - 1) <= JS.pow2 (es - (L + 1) - t)) by (apply pow2_le; lia).
  assert (E1 : JS.pow2 es == JS.pow2 (es - (L + 1) - t) * (JS.pow2 (L + 1) * JS.pow2 t)).
  { rewrite <- !pow2_add. replace (es - (L + 1) - t + (L + 1 + t))%Z with es by lia. reflexivity. }
  assert (HnL : inject_Z n < JS.pow2 (L + 1)) by (rewrite pow2_Z by lia; rewrite <- Zlt_Qlt; lia).
  pose proof (pow2_pos (es - (L + 1) - t)) as HpU. pose proof (pow2_pos (L + 1)) as HpL1.
  assert (Hfinal : JS.pow2 (es - (L + 1) - t) < inject_Z m + 1 - x).
  { apply Qnot_le_lt. intros Hc0.
    assert (G : inject_Z n * JS.pow2 t * (inject_Z m + 1 - x) >= JS.pow2 es).
    { assert (G0 : inject_Z n * JS.pow2 t * (inject_Z m + 1 - x) ==
                   inject_Z n * JS.pow2 t * (inject_Z m + 1) - s).
      { rewrite <- Hxd, Hd. ring. }
      rewrite G0, <- HK. set (E := JS.pow2 es) in *. nra. }
    rewrite E1 in G.
    set (U := JS.pow2 (es - (L + 1) - t)) in *. set (PL := JS.pow2 (L + 1)) in *.
    set (T := JS.pow2 t) in *. set (N := inject_Z n) in *.
    set (g := inject_Z m + 1 - x) in *.
    assert (0 <= g) by (unfold g; lra).
    assert (N * T * g <= N * T * U) by nra.
    assert (N * T * U < PL * T * U) by nra.
    nra. }
  lra.
Qed.

(** From here on [JS.rnd] is used through the lemmas above only. *)
Opaque JS.rnd.

(** ** Counting loops *)

Section Loops.

Context {A : Type}.

Lemma for_loop_snoc (f : Z -> A) (n : nat) (j : Z) (l : list A) :
  JS.for_loop n j (fun i acc => acc ++ [f i]) l = l ++ (f <$> zrange_from j n).
Proof.
  revert j l. induction n as [|n IH]; intros j l; simpl.
  - by rewrite app_nil_r.
  - rewrite IH. by rewrite <- app_assoc.
Qed.

End Loops.

Lemma zrange_from_length (j : Z) (n : nat) : length (zrange_from j n) = n.
Proof. revert j. induction n as [|n IH]; intros j; simpl; [done|]. by rewrite IH. Qed.

Lemma zrange_from_lookup (j : Z) (n k : nat) :
  (k < n)%nat -> zrange_from j n !! k = Some (j + Z.of_nat k)%Z.
Proof.
  revert j k. induction n as [|n IH]; intros j k Hk; [lia|].
  destruct k as [|k]; simpl.
  - f_equal. lia.
  - rewrite IH by lia. f_equal. lia.
Qed.

Lemma zrange_lookup (n i : Z) :
  (0 <= i < n)%Z -> zrange n !! Z.to_nat i = Some i.
Proof.
  intros Hi. unfold zrange. rewrite zrange_from_lookup by lia. f_equal. lia.
Qed.

Lemma zrange_length (n : Z) : (0 <= n)%Z -> Z.of_nat (length (zrange n)) = n.
Proof. intros Hn. unfold zrange. rewrite zrange_from_length. lia. Qed.

(** ** The peak loop *)

Lemma gt_true (x y : Q) : JS.gt x y = true -> y < x.
Proof. unfold JS.gt. by destruct (Qlt_le_dec y x). Qed.

Lemma gt_false (x y : Q) : JS.gt x y = false -> x <= y.
Proof. unfold JS.gt. by destruct (Qlt_le_dec y x). Qed.

Lemma peak_loop_spec (data : list Q) (n : nat) (j : Z) (m0 : Q) :
  let r := JS.for_loop n j (peak_step data) m0 in
  m0 <= r /\
  (forall k v, (j <= k < j + Z.of_nat n)%Z -> JS.index data k = Some v -> Qabs v <= r) /\
  (r = m0 \/
   exists k v, (j <= k < j + Z.of_nat n)%Z /\ JS.index data k = Some v /\ r = Qabs v).
Proof.
  revert j m0. induction n as [|n IH]; intros j m0; simpl.
  - split; [apply Qle_refl|]. split; [intros; lia | by left].
  - destruct (IH (j + 1)%Z (peak_step data j m0)) as (Hle & Hall & Hwit).
    assert (Hstep : m0 <= peak_step data j m0 /\
                    (forall v, JS.index data j = Some v -> Qabs v <= peak_step data j m0) /\
                    (peak_step data j m0 = m0 \/
                     exists v, JS.index data j = Some v /\ peak_step data j m0 = Qabs v)).
    { unfold peak_step, JS.Math_abs. destruct (JS.index data j) as [v|].
      - destruct (JS.gt (Qabs v) m0) eqn:Hgt.
        + apply gt_true in Hgt. split; [lra|]. split; [|right; eauto].
          intros v' [= <-]. apply Qle_refl.
        + apply gt_false in Hgt. split; [apply Qle_refl|]. split; [|by left].
          by intros v' [= <-].
      - split; [apply Qle_refl|]. split; [done | by left]. }
    destruct Hstep as (Hs1 & Hs2 & Hs3).
    split; [lra|]. split.
    + intros k v Hk Hv. destruct (decide (k = j)) as [->|Hne].
      * specialize (Hs2 v Hv). lra.
      * apply (Hall k v); [lia | done].
    + destruct Hwit as [Heq | (k & v & Hk & Hv & Hr)].
      * rewrite Heq. destruct Hs3 as [-> | (v & Hv & ->)]; [by left|].
        right. exists j, v. split; [lia | done].
      * right. exists k, v. split; [lia | done].
Qed.

Lemma index_in_range (data : list Q) (j : Z) :
  (0 <= j < Z.of_nat (length data))%Z -> exists v, JS.index data j = Some v.
Proof.
  intros Hj. unfold JS.index.
  destruct (j <? 0)%Z eqn:Hneg; [lia|].
  apply lookup_lt_is_Some. lia.
Qed.

Lemma peak_is_peak (data : list Q) (lo hi : Z) :
  (0 <= lo)%Z -> (hi <= Z.of_nat (length data))%Z ->
  is_peak data lo hi (peak data lo hi).
Proof.
  intros Hlo Hhi. unfold peak, JS.for_range.
  destruct (peak_loop_spec data (Z.to_nat (hi - lo)) lo 0) as (_ & Hall & Hwit).
  split.
  - intros j Hj. destruct (index_in_range data j) as [v Hv]; [lia|].
    exists v. split; [done|]. apply (Hall j v); [lia | done].
  - destruct Hwit as [Heq | (k & v & Hk & Hv & Hr)].
    + destruct (Z_le_gt_dec hi lo) as [Hemp | Hne].
      { left. split; [done|]. by rewrite Heq. }
      right. destruct (index_in_range data lo) as [v Hv]; [lia|].
      exists lo, v. split; [lia|]. split; [done|].
      pose proof (Hall lo v ltac:(lia) Hv) as Hle.
      pose proof (Qabs_nonneg v) as Hge.
      rewrite Heq in *. lra.
    + right. exists k, v. split; [lia|]. split; [done|]. by rewrite Hr.
Qed.

(** ** Bar ranges stay inside the buffer *)

Lemma inject_Z_pos (z : Z) : (0 < z)%Z -> 0 < inject_Z z.
Proof. intros Hz. change 0 with (inject_Z 0). by rewrite <- Zlt_Qlt. Qed.

Lemma inject_Z_nonneg (z : Z) : (0 <= z)%Z -> 0 <= inject_Z z.
Proof. intros Hz. change 0 with (inject_Z 0). by rewrite <- Zle_Qle. Qed.

Lemma fraction_mono (i j bc : Z) :
  (0 < bc)%Z -> (i <= j)%Z -> inject_Z i / inject_Z bc <= inject_Z j / inject_Z bc.
Proof.
  intros Hbc Hij.
  assert (Hq : 0 < inject_Z bc) by by apply inject_Z_pos.
  apply Qle_shift_div_l; [done|].
  assert (Heq : inject_Z i / inject_Z bc * inject_Z bc == inject_Z i).
  { field. lra. }
  rewrite Heq. rewrite <- Zle_Qle. done.
Qed.

(** [barWidth + gap] is 3.5, without rounding. *)
Lemma total_bar_width : JS.add 2 (3 # 2) = 7 # 2.
Proof. vm_compute. reflexivity. Qed.

Lemma bar_fraction_mono (i j bc : Z) :
  (0 < bc)%Z -> (i <= j)%Z ->
  JS.div (inject_Z i) (inject_Z bc) <= JS.div (inject_Z j) (inject_Z bc).
Proof. intros Hbc Hij. apply rnd_mono. by apply fraction_mono. Qed.

Lemma bar_bound_mono (data : list Q) (bc i k : Z) :
  (0 < bc)%Z -> (i <= k)%Z -> (bar_bound data bc i <= bar_bound data bc k)%Z.
Proof.
  intros Hbc Hik. unfold bar_bound, JS.Math_floor, JS.mul.
  apply Qfloor_resp_le, rnd_mono.
  pose proof (bar_fraction_mono i k bc Hbc Hik) as Hab.
  assert (HN : 0 <= inject_Z (Z.of_nat (length data))) by (apply inject_Z_nonneg; lia).
  set (a := JS.div (inject_Z i) (inject_Z bc)) in *.
  set (b := JS.div (inject_Z k) (inject_Z bc)) in *.
  set (N := inject_Z (Z.of_nat (length data))) in *. nra.
Qed.

Lemma bar_bound_first (data : list Q) (bc : Z) : bar_bound data bc 0 = 0%Z.
Proof.
  unfold bar_bound, JS.Math_floor, JS.mul, JS.div.
  rewrite (rnd_compat (inject_Z 0 / inject_Z bc) 0) by (unfold Qdiv; ring).
  rewrite (rnd_compat (JS.rnd 0 * _) 0) by (rewrite rnd_0; ring).
  rewrite (Qfloor_comp _ _ rnd_0). reflexivity.
Qed.

Lemma bar_bound_last (data : list Q) (bc : Z) :
  (0 < bc)%Z -> (Z.of_nat (length data) <= 2 ^ 53)%Z ->
  bar_bound data bc bc = Z.of_nat (length data).
Proof.
  intros Hbc HN. unfold bar_bound, JS.Math_floor, JS.mul, JS.div.
  assert (Hq : 0 < inject_Z bc) by by apply inject_Z_pos.
  rewrite (rnd_compat (inject_Z bc / inject_Z bc) (inject_Z 1)) by (field; lra).
  assert (E1 : JS.rnd (inject_Z 1) == 1) by (apply rnd_Z; lia).
  rewrite (rnd_compat (JS.rnd (inject_Z 1) * _) (inject_Z (Z.of_nat (length data))))
    by (rewrite E1; ring).
  rewrite (Qfloor_comp _ (inject_Z (Z.of_nat (length data)))) by (apply rnd_Z; lia).
  apply Qfloor_Z.
Qed.

Lemma bar_bound_range (data : list Q) (bc i : Z) :
  (0 < bc)%Z -> (0 <= i < bc)%Z -> (Z.of_nat (length data) <= 2 ^ 53)%Z ->
  (0 <= bar_bound data bc i <= bar_bound data bc (i + 1))%Z /\
  (bar_bound data bc (i + 1) <= Z.of_nat (length data))%Z.
Proof.
  intros Hbc Hi HN.
  pose proof (bar_bound_mono data bc 0 i Hbc ltac:(lia)) as H0.
  pose proof (bar_bound_mono data bc i (i + 1) Hbc ltac:(lia)) as H1.
  pose proof (bar_bound_mono data bc (i + 1) bc Hbc ltac:(lia)) as H2.
  rewrite bar_bound_first in H0. rewrite bar_bound_last in H2 by assumption. lia.
Qed.

Lemma bar_is_peak (rect : DOMRect) (data : list Q) (i : Z) :
  (Z.of_nat (length data) <= 2 ^ 53)%Z ->
  (0 <= i < bar_count rect)%Z ->
  is_peak data (bar_bound data (bar_count rect) i) (bar_bound data (bar_count rect) (i + 1))
          (peak data (bar_bound data (bar_count rect) i)
                (bar_bound data (bar_count rect) (i + 1))).
Proof.
  intros HN Hi.
  destruct (bar_bound_range data (bar_count rect) i) as [[H0 _] HN']; [lia | done | done |].
  by apply peak_is_peak.
Qed.

Lemma Math_max_lower (a b : Q) : a <= JS.Math_max a b.
Proof. unfold JS.Math_max. destruct (Qlt_le_dec a b); lra. Qed.

Lemma Math_max_upper (a b : Q) : b <= JS.Math_max a b.
Proof. unfold JS.Math_max. destruct (Qlt_le_dec a b); lra. Qed.

Lemma Math_max_cases (a b : Q) : JS.Math_max a b = a \/ JS.Math_max a b = b.
Proof. unfold JS.Math_max. destruct (Qlt_le_dec a b); [by right | by left]. Qed.

(** ** What the two renderers put on the canvas *)

Lemma drawStaticWaveform_spec (buffer : AudioBuffer) (w : World) (canvas : Canvas) :
  canvasRef w = Some canvas -> context2d canvas = true ->
  drawStaticWaveform buffer w =
  Returned (set_canvasRef
              (Some (mkCanvas (boundingClientRect canvas) true
                       (ops canvas ++ prelude (devicePixelRatio w) (boundingClientRect canvas) ++
                        (bar (fun _ => neutral_style) (boundingClientRect canvas)
                             (channelData0 buffer) <$> zrange (bar_count (boundingClientRect canvas))))))
              w).
Proof.
  intros Hc H2d. unfold drawStaticWaveform. rewrite Hc, H2d.
  cbv beta iota zeta delta [negb].
  unfold JS.for_range. rewrite Z.sub_0_r.
  f_equal. f_equal. f_equal. f_equal.
  etransitivity; [apply (for_loop_snoc (bar (fun _ => neutral_style) (boundingClientRect canvas)
                                          (channelData0 buffer)))|].
  unfold zrange, prelude. by rewrite <- !app_assoc.
Qed.

Lemma drawLiveWaveform_spec (w : World) (canvas : Canvas) (analyser : AnalyserNode)
      (ctx : AudioContext) :
  canvasRef w = Some canvas -> analyserRef w = Some analyser -> audioContextRef w = Some ctx ->
  context2d canvas = true ->
  drawLiveWaveform w =
  Returned
    (set_animationRef (rafNext w)
       (set_rafNext (S (rafNext w))
          (set_rafPending ({[rafNext w]} ∪ rafPending w)
             (set_canvasRef
                (Some (mkCanvas (boundingClientRect canvas) true
                         (ops canvas ++ live_frame w canvas ctx)))
                (set_calls (calls w ++ [FrameElapsed (JS.sub (ctx_currentTime ctx) (startTimeRef w))])
                   (set_currentTime (JS.sub (ctx_currentTime ctx) (startTimeRef w)) w)))))).
Proof.
  intros Hc Ha Hx H2d. unfold drawLiveWaveform. rewrite Hc, Ha, Hx, H2d.
  cbv beta iota zeta delta [negb requestAnimationFrame].
  cbn [audioBufferRef duration startTimeRef devicePixelRatio set_calls set_currentTime].
  match goal with
  | |- context [mkCanvas _ _ ?o] =>
      assert (Hops : o = ops canvas ++ live_frame w canvas ctx)
  end.
  { unfold live_frame, prelude. destruct (audioBufferRef w) as [buffer|].
    - unfold JS.for_range. rewrite Z.sub_0_r.
      etransitivity;
        [apply (f_equal (fun l => l ++ _)),
           (for_loop_snoc
              (bar (live_style (boundingClientRect canvas)
                      (progress_of (duration w) (JS.sub (ctx_currentTime ctx) (startTimeRef w))))
                   (boundingClientRect canvas) (channelData0 buffer)))|].
      unfold zrange. rewrite <- !app_assoc. reflexivity.
    - rewrite <- !app_assoc. reflexivity. }
  rewrite Hops. reflexivity.
Qed.

Lemma filter_bars (style : Z -> string) (rect : DOMRect) (data : list Q) (l : list Z) :
  List.filter is_bar (bar style rect data <$> l) = bar style rect data <$> l.
Proof. induction l as [|i l IH]; [done|]. rewrite fmap_cons. simpl. by f_equal. Qed.

Lemma filter_prelude_bars (dpr : Q) (style : Z -> string) (rect : DOMRect) (data : list Q)
      (l : list Z) (rest : list DrawOp) :
  List.filter is_bar (prelude dpr rect ++ (bar style rect data <$> l) ++ rest) =
  (bar style rect data <$> l) ++ List.filter is_bar rest.
Proof. simpl. by rewrite List.filter_app, filter_bars. Qed.

Lemma filter_prelude_bars_only (dpr : Q) (style : Z -> string) (rect : DOMRect)
      (data : list Q) (l : list Z) :
  List.filter is_bar (prelude dpr rect ++ (bar style rect data <$> l)) =
  bar style rect data <$> l.
Proof.
  pose proof (filter_prelude_bars dpr style rect data l []) as H.
  rewrite !app_nil_r in H. exact H.
Qed.

Lemma drawn_since_appended (w w' : World) (canvas : Canvas) (rect : DOMRect) (b : bool)
      (new : list DrawOp) :
  canvasRef w = Some canvas ->
  canvasRef w' = Some (mkCanvas rect b (ops canvas ++ new)) ->
  drawn_since w w' = new.
Proof.
  intros Hc Hc'. unfold drawn_since. rewrite Hc, Hc'. simpl. apply drop_app_length.
Qed.


(** Below 2^52 the quotient width / 3.5 is rounded without passing an
    integer, so the bar count is the floor of the exact quotient. *)
Lemma bar_count_exact (rect : DOMRect) :
  JS.is_double (rect_width rect) -> 0 <= rect_width rect ->
  rect_width rect < 4503599627370496 ->
  bar_count rect = Qfloor (rect_width rect / (2 + (3 # 2))).
Proof.
  intros Hd H0 Hlt. unfold bar_count, JS.Math_floor, JS.div. rewrite total_bar_width.
  rewrite (floor_rnd_quotient (rect_width rect) (7 # 2) 7 (-1) 2);
    [| exact Hd | exact H0 | exact Hlt | lia | lia | lia | reflexivity].
  apply Qfloor_comp. apply Qdiv_comp; reflexivity.
Qed.

(** ** The static renderer *)




(** Four bars on the canvas 14 wide. *)
Example demo_bar_count :
  Qfloor (JS.div 14 (JS.add 2 (3 # 2))) = 4%Z /\ Qfloor (14 / (2 + (3 # 2))) = 4%Z /\
  JS.is_double 14.
Proof. repeat split; vm_compute; reflexivity. Qed.


Lemma index_In (data : list Q) (j : Z) (v : Q) : JS.index data j = Some v -> In v data.
Proof.
  unfold JS.index. destruct (j <? 0)%Z; [done|].
  intros Hv. apply list_elem_of_In. by eapply list_elem_of_lookup_2.
Qed.

Lemma silent_peak (data : list Q) (lo hi : Z) (m : Q) :
  (forall v, In v data -> v == 0) -> is_peak data lo hi m -> m == 0.
Proof.
  intros Hzero [_ [[_ Hm] | (j & v & _ & Hv & Hm)]]; [done|].
  rewrite Hm, (Hzero v (index_In data j v Hv)). reflexivity.
Qed.

Lemma floor_height (m height : Q) :
  m == 0 -> JS.Math_max 2 (JS.mul (JS.mul m height) (JS.rnd (8 # 10))) == 2.
Proof.
  intros Hm. unfold JS.Math_max, JS.mul.
  destruct (Qlt_le_dec 2 _) as [Hlt|]; [|reflexivity].
  rewrite (rnd_compat (m * height) 0) in Hlt by (rewrite Hm; ring).
  rewrite (rnd_compat (JS.rnd 0 * _) 0) in Hlt by (rewrite rnd_0; ring).
  rewrite rnd_0 in Hlt. lra.
Qed.

(** C5: the i-th bar of the static chart has height max(2, peak * height *
    0.8), the products rounded as the code computes them, where peak is the
    largest absolute amplitude among the samples with index in [lo(i),
    lo(i+1)) and lo(k) is Math.floor((k / barCount) * N) as the code
    computes it, in doubles; these ranges lie in [0, N], follow one another
    and start at 0 and end at N.  The height is at least 2, and exactly 2
    when every sample is zero.  The bar is drawn in the neutral colour at
    x = i * 3.5, centred vertically. *)
Theorem static_bar_is_peak (buffer : AudioBuffer) (w : World) (canvas : Canvas) (i : Z) :
  let rect := boundingClientRect canvas in
  let data := channelData0 buffer in
  let N := inject_Z (Z.of_nat (length data)) in
  let barCount := Qfloor (JS.div (rect_width rect) (7 # 2)) in
  let lo k := Qfloor (JS.mul (JS.div (inject_Z k) (inject_Z barCount)) N) in
  canvasRef w = Some canvas -> context2d canvas = true ->
  (Z.of_nat (length data) <= 2 ^ 53)%Z ->
  (0 <= i < barCount)%Z ->
  exists w' peak h,
    drawStaticWaveform buffer w = Returned w' /\
    List.filter is_bar (drawn_since w w') !! Z.to_nat i =
      Some (FillRoundRect neutral_style (JS.mul (inject_Z i) (7 # 2))
                          (JS.div (JS.sub (rect_height rect) h) 2) 2 h 1) /\
    is_peak data (lo i) (lo (i + 1)%Z) peak /\
    (0 <= lo i <= lo (i + 1))%Z /\ (lo (i + 1) <= Z.of_nat (length data))%Z /\
    lo 0%Z = 0%Z /\ lo barCount = Z.of_nat (length data) /\
    2 <= h /\
    JS.mul (JS.mul peak (rect_height rect)) (JS.rnd (8 # 10)) <= h /\
    (h = 2 \/ h = JS.mul (JS.mul peak (rect_height rect)) (JS.rnd (8 # 10))) /\
    ((forall v, In v data -> v == 0) -> h == 2).
Proof.
  intros rect data N barCount lo Hc H2d HN Hi.
  assert (Hbc : barCount = bar_count rect).
  { unfold barCount, bar_count, JS.Math_floor. by rewrite total_bar_width. }
  assert (Hlo : forall k, lo k = bar_bound data (bar_count rect) k).
  { intros k. unfold lo, bar_bound, JS.Math_floor. by rewrite Hbc. }
  rewrite Hbc in Hi.
  pose proof (drawStaticWaveform_spec buffer w canvas Hc H2d) as Hspec.
  pose proof (bar_is_peak rect data i HN Hi) as Hpeak.
  destruct (bar_bound_range data (bar_count rect) i ltac:(lia) Hi HN) as [Hr1 Hr2].
  eexists. exists (peak data (bar_bound data (bar_count rect) i)
                        (bar_bound data (bar_count rect) (i + 1))).
  exists (bar_height rect data i). split; [exact Hspec|].
  erewrite drawn_since_appended; [|exact Hc|reflexivity].
  rewrite <- (app_nil_r (_ <$> _)), filter_prelude_bars, app_nil_r.
  split.
  { rewrite list_lookup_fmap, zrange_lookup by exact Hi. cbn [fmap option_fmap option_map].
    unfold bar. by rewrite total_bar_width. }
  rewrite !Hlo. split; [exact Hpeak|]. split; [exact Hr1|]. split; [exact Hr2|].
  split; [apply bar_bound_first|].
  split. { rewrite Hbc, Hlo. apply bar_bound_last; [lia | exact HN]. }
  unfold bar_height.
  split; [apply Math_max_lower|]. split; [apply Math_max_upper|].
  split; [apply Math_max_cases|].
  intros Hzero. apply floor_height. by eapply silent_peak.
Qed.

Lemma static_bar_is_peak_witness :
  let lo k := Qfloor (JS.mul (JS.div (inject_Z k) (inject_Z (Qfloor (JS.div 14 (7 # 2)))))
                             (inject_Z 7)) in
  exists w' peak h,
    drawStaticWaveform demo_buffer mounted_world = Returned w' /\
    List.filter is_bar (drawn_since mounted_world w') !! 2%nat =
      Some (FillRoundRect neutral_style (JS.mul (inject_Z 2) (7 # 2))
                          (JS.div (JS.sub 64 h) 2) 2 h 1) /\
    is_peak (channelData0 demo_buffer) (lo 2%Z) (lo 3%Z) peak /\
    (0 <= lo 2%Z <= lo 3%Z)%Z /\ (lo 3%Z <= 7)%Z /\
    lo 0%Z = 0%Z /\ lo (Qfloor (JS.div 14 (7 # 2))) = 7%Z /\
    2 <= h /\
    JS.mul (JS.mul peak 64) (JS.rnd (8 # 10)) <= h /\
    (h = 2 \/ h = JS.mul (JS.mul peak 64) (JS.rnd (8 # 10))) /\
    ((forall v, In v (channelData0 demo_buffer) -> v == 0) -> h == 2).
Proof.
  apply (static_bar_is_peak demo_buffer mounted_world demo_canvas 2);
    [reflexivity | reflexivity | vm_compute; discriminate
    | vm_compute; split; [discriminate | reflexivity]].
Defined.

(** The bars of the seven-sample buffer on the canvas 14 by 64: the ranges
    are [0,1), [1,3), [3,5), [5,7), the peaks 1/2, 3/4, 1 and 0, and the
    heights the doubles next to 25.6, 38.4 and 51.2, and the floor 2. *)
Example demo_bars :
  (bar_bound (channelData0 demo_buffer) 4) <$> [0; 1; 2; 3; 4]%Z = [0; 1; 3; 5; 7]%Z /\
  JS.rnd (8 # 10) = 3602879701896397 # 4503599627370496 /\
  List.filter is_bar (drawn_since mounted_world
                        (world_of (drawStaticWaveform demo_buffer mounted_world))) =
  [FillRoundRect neutral_style 0 (5404319552844595 # 281474976710656) 2
                 (3602879701896397 # 140737488355328) 1;
   FillRoundRect neutral_style (7 # 2) (900719925474099 # 70368744177664) 2
                 (1351079888211149 # 35184372088832) 1;
   FillRoundRect neutral_style 7 (900719925474099 # 140737488355328) 2
                 (3602879701896397 # 70368744177664) 1;
   FillRoundRect neutral_style (21 # 2) 31 2 2 1].
Proof. repeat split; vm_compute; reflexivity. Qed.

(** With 22 bars and 22 samples the code computes (15 / 22) * 22 as
    14.999999999999998, so the bound between bars 14 and 15 is 14 and not
    15: bar 14 covers no sample and has the floor height, although sample
    14, the only one in [floor(14/22 * 22), floor(15/22 * 22)), is 1; that
    sample shows in bar 15. *)
Lemma bar_range_is_rounded :
  let data := channelData0 spike_buffer in
  bar_count (boundingClientRect spike_canvas) = 22%Z /\
  Qfloor (inject_Z 14 / inject_Z 22 * inject_Z 22) = 14%Z /\
  Qfloor (inject_Z 15 / inject_Z 22 * inject_Z 22) = 15%Z /\
  is_peak data 14 15 1 /\
  2 < 1 * 64 * (8 # 10) /\
  bar_bound data 22 14 = 14%Z /\ bar_bound data 22 15 = 14%Z /\ bar_bound data 22 16 = 16%Z /\
  exists w' h,
    drawStaticWaveform spike_buffer spike_world = Returned w' /\
    List.filter is_bar (drawn_since spike_world w') !! 14%nat =
      Some (FillRoundRect neutral_style 49 31 2 2 1) /\
    List.filter is_bar (drawn_since spike_world w') !! 15%nat =
      Some (FillRoundRect neutral_style (105 # 2) (JS.div (JS.sub 64 h) 2) 2 h 1) /\
    h = JS.mul (JS.mul 1 64) (JS.rnd (8 # 10)) /\ 51 < h.
Proof.
  intros data.
  split; [vm_compute; reflexivity|]. split; [vm_compute; reflexivity|].
  split; [vm_compute; reflexivity|].
  split.
  { split.
    - intros j Hj. assert (j = 14%Z) as -> by lia. exists 1. split; [reflexivity|].
      apply Qle_refl.
    - right. exists 14%Z, 1. split; [lia|]. split; reflexivity. }
  split; [reflexivity|].
  split; [vm_compute; reflexivity|]. split; [vm_compute; reflexivity|].
  split; [vm_compute; reflexivity|].
  exists (world_of (drawStaticWaveform spike_buffer spike_world)).
  exists (JS.mul (JS.mul 1 64) (JS.rnd (8 # 10))).
  split; [vm_compute; reflexivity|].
  split; [vm_compute; reflexivity|]. split; [vm_compute; reflexivity|].
  split; [reflexivity | vm_compute; reflexivity].
Qed.

(** ** The live renderer *)

Lemma live_drawn (w : World) (canvas : Canvas) (analyser : AnalyserNode) (ctx : AudioContext) :
  canvasRef w = Some canvas -> analyserRef w = Some analyser -> audioContextRef w = Some ctx ->
  context2d canvas = true ->
  exists w', drawLiveWaveform w = Returned w' /\ drawn_since w w' = live_frame w canvas ctx.
Proof.
  intros Hc Ha Hx H2d. eexists. split; [by eapply drawLiveWaveform_spec|].
  by erewrite drawn_since_appended; [|exact Hc|reflexivity].
Qed.

Lemma live_style_played (rect : DOMRect) (progress : Q) (i : Z) :
  live_style rect progress i = played_style <->
  JS.div (inject_Z i) (inject_Z (bar_count rect)) <= progress.
Proof.
  unfold live_style, JS.le. rewrite <- Qle_bool_iff.
  destruct (Qle_bool _ _); split; intros; done.
Qed.

Lemma live_style_neutral (rect : DOMRect) (progress : Q) (i : Z) :
  ~ JS.div (inject_Z i) (inject_Z (bar_count rect)) <= progress ->
  live_style rect progress i = neutral_style.
Proof.
  unfold live_style, JS.le. rewrite <- Qle_bool_iff. by destruct (Qle_bool _ _).
Qed.

(** C7: in a live frame with duration D and elapsed E, progress is E / D
    when D > 0 and 0 otherwise; bar i is filled in the played colour exactly
    when i / barCount <= progress, both quotients rounded to doubles as the
    code computes them, and in the neutral colour otherwise; every bar with
    i / barCount <= E / D in exact arithmetic is played; the playhead is
    drawn last at x = progress * width. *)
Theorem live_progress_colouring (w : World) (canvas : Canvas) (analyser : AnalyserNode)
        (ctx : AudioContext) (buffer : AudioBuffer) (i : Z) :
  let rect := boundingClientRect canvas in
  let barCount := Qfloor (JS.div (rect_width rect) (7 # 2)) in
  let E := JS.sub (ctx_currentTime ctx) (startTimeRef w) in
  let D := duration w in
  canvasRef w = Some canvas -> analyserRef w = Some analyser -> audioContextRef w = Some ctx ->
  context2d canvas = true -> audioBufferRef w = Some buffer ->
  (0 <= i < barCount)%Z ->
  exists w' progress op,
    drawLiveWaveform w = Returned w' /\
    (0 < D -> progress = JS.div E D) /\
    (D <= 0 -> progress = 0) /\
    List.filter is_bar (drawn_since w w') !! Z.to_nat i = Some op /\
    (style_of op = Some played_style <->
     JS.div (inject_Z i) (inject_Z barCount) <= progress) /\
    (~ JS.div (inject_Z i) (inject_Z barCount) <= progress ->
     style_of op = Some neutral_style) /\
    (0 < D -> inject_Z i / inject_Z barCount <= E / D -> style_of op = Some played_style) /\
    last (drawn_since w w') =
      Some (FillRoundRect played_style (JS.sub (JS.mul progress (rect_width rect)) 1)
                          0 2 (rect_height rect) 1).
Proof.
  intros rect barCount E D Hc Ha Hx H2d Hb Hi.
  assert (Hbc : barCount = bar_count rect).
  { unfold barCount, bar_count, JS.Math_floor. by rewrite total_bar_width. }
  rewrite Hbc in Hi |- *.
  destruct (live_drawn w canvas analyser ctx Hc Ha Hx H2d) as (w' & Hrun & Hdrawn).
  assert (Hpos : 0 < D -> progress_of D E = JS.div E D).
  { intros HD. unfold progress_of, JS.gt. destruct (Qlt_le_dec 0 D); [done | lra]. }
  exists w', (progress_of D E).
  exists (bar (live_style rect (progress_of D E)) rect (channelData0 buffer) i).
  split; [exact Hrun|]. rewrite Hdrawn. unfold live_frame. rewrite Hb.
  split; [exact Hpos|].
  split. { intros HD. unfold progress_of, JS.gt. destruct (Qlt_le_dec 0 D); [lra | done]. }
  split.
  { rewrite filter_prelude_bars. rewrite lookup_app_l.
    - by rewrite list_lookup_fmap, zrange_lookup.
    - rewrite length_fmap.
      pose proof (zrange_length (bar_count rect) ltac:(lia)). subst rect. lia. }
  split.
  { cbn [style_of bar]. split.
    - intros [= Hst]. by apply (live_style_played rect) in Hst.
    - intros Hle. f_equal. by apply (live_style_played rect). }
  split. { intros Hn. cbn [style_of bar]. f_equal. by apply live_style_neutral. }
  split.
  { intros HD Hle. cbn [style_of bar]. f_equal. apply (live_style_played rect).
    rewrite (Hpos HD). unfold JS.div. apply rnd_mono. exact Hle. }
  by rewrite !app_assoc, last_snoc.
Qed.

Lemma live_progress_colouring_witness :
  let E := JS.sub (1 # 2) 0 in
  exists w' progress op,
    drawLiveWaveform playing_world = Returned w' /\
    (0 < 1 -> progress = JS.div E 1) /\
    (1 <= 0 -> progress = 0) /\
    List.filter is_bar (drawn_since playing_world w') !! 2%nat = Some op /\
    (style_of op = Some played_style <->
     JS.div (inject_Z 2) (inject_Z (Qfloor (JS.div 14 (7 # 2)))) <= progress) /\
    (~ JS.div (inject_Z 2) (inject_Z (Qfloor (JS.div 14 (7 # 2)))) <= progress ->
     style_of op = Some neutral_style) /\
    (0 < 1 -> inject_Z 2 / inject_Z (Qfloor (JS.div 14 (7 # 2))) <= E / 1 ->
     style_of op = Some played_style) /\
    last (drawn_since playing_world w') =
      Some (FillRoundRect played_style (JS.sub (JS.mul progress 14) 1) 0 2 64 1).
Proof.
  apply (live_progress_colouring playing_world (canvas_of playing_world) (mkAnalyser 256)
           (context_of playing_world) demo_buffer 2);
    [reflexivity | reflexivity | reflexivity | reflexivity | reflexivity
    | vm_compute; split; [discriminate | reflexivity]].
Defined.

Example playing_world_is_reached : run demo_platform playing_events initial = Some playing_world.
Proof. vm_compute. reflexivity. Qed.

(** The bar whose fractional position equals the progress is played: at
    E = 1/2 of D = 1 with four bars, bars 0, 1, 2 are played and bar 3 is not. *)
Example boundary_bar_is_played :
  style_of <$> List.filter is_bar (drawn_since playing_world (world_of (drawLiveWaveform playing_world)))
  = [Some played_style; Some played_style; Some played_style; Some neutral_style;
     Some played_style].
Proof. vm_compute. reflexivity. Qed.

(** With three bars, D = 1 and the clock at the double nearest to 1/3, which
    is below 1/3, bar 1 is played although 1/3 > E / D: the code compares
    the double nearest to 1/3 with E. *)
Lemma rounded_boundary_is_played :
  let E := JS.sub (clock third_world) (startTimeRef third_world) in
  run demo_platform third_events initial = Some third_world /\
  bar_count (boundingClientRect third_canvas) = 3%Z /\
  duration third_world = 1 /\
  E = 6004799503160661 # 18014398509481984 /\
  ~ inject_Z 1 / inject_Z 3 <= E / duration third_world /\
  style_of <$> List.filter is_bar
                 (drawn_since third_world (world_of (drawLiveWaveform third_world)))
  = [Some played_style; Some played_style; Some neutral_style; Some played_style].
Proof.
  intros E. split; [vm_compute; reflexivity|]. split; [vm_compute; reflexivity|].
  split; [reflexivity|]. split; [vm_compute; reflexivity|].
  split; [|vm_compute; reflexivity].
  assert (HE : E = 6004799503160661 # 18014398509481984) by (vm_compute; reflexivity).
  rewrite HE. vm_compute. intros H. apply H. reflexivity.
Qed.

Lemma bars_same_shape (s1 s2 : Z -> string) (rect : DOMRect) (data : list Q) (l : list Z) :
  Forall2 same_shape (bar s1 rect data <$> l) (bar s2 rect data <$> l).
Proof.
  induction l as [|i l IH]; simpl; constructor; [|done].
  split; [reflexivity | discriminate].
Qed.

Lemma same_shape_refl (l : list DrawOp) : Forall2 same_shape l l.
Proof. induction l; constructor; [by split | done]. Qed.

(** C10: for the same buffer and the same surface, the live renderer issues
    the commands of the static renderer followed by one more, the playhead;
    corresponding commands are equal except for the fill colour of the bars,
    so every bar has the same x, y, width, height and corner radius in both. *)
Theorem live_refines_static (buffer : AudioBuffer) (ws wl : World) (cs cl : Canvas)
        (analyser : AnalyserNode) (ctx : AudioContext) :
  canvasRef ws = Some cs -> context2d cs = true ->
  canvasRef wl = Some cl -> context2d cl = true ->
  analyserRef wl = Some analyser -> audioContextRef wl = Some ctx ->
  audioBufferRef wl = Some buffer ->
  boundingClientRect cs = boundingClientRect cl ->
  devicePixelRatio ws = devicePixelRatio wl ->
  exists ws' wl' playhead,
    drawStaticWaveform buffer ws = Returned ws' /\
    drawLiveWaveform wl = Returned wl' /\
    Forall2 same_shape (drawn_since ws ws' ++ [playhead]) (drawn_since wl wl') /\
    geometry <$> List.filter is_bar (drawn_since wl wl') =
      (geometry <$> List.filter is_bar (drawn_since ws ws')) ++ [geometry playhead] /\
    is_bar playhead = true.
Proof.
  intros Hcs H2s Hcl H2l Ha Hx Hb Hrect Hdpr.
  destruct (live_drawn wl cl analyser ctx Hcl Ha Hx H2l) as (wl' & Hlive & Hdl).
  pose proof (drawStaticWaveform_spec buffer ws cs Hcs H2s) as Hstatic.
  eexists. exists wl'. eexists. split; [exact Hstatic|]. split; [exact Hlive|].
  erewrite drawn_since_appended; [|exact Hcs|reflexivity].
  rewrite Hdl. unfold live_frame. rewrite Hb, Hrect, Hdpr.
  split.
  - rewrite <- !app_assoc. apply Forall2_app; [apply same_shape_refl|].
    apply Forall2_app; [apply bars_same_shape|].
    constructor; [|constructor]. split; [reflexivity | discriminate].
  - rewrite filter_prelude_bars, filter_prelude_bars_only.
    split; [|reflexivity]. rewrite fmap_app. f_equal.
    rewrite <- !list_fmap_compose. apply list_fmap_ext. intros _ i _. reflexivity.
Qed.

Lemma live_refines_static_witness :
  exists ws' wl' playhead,
    drawStaticWaveform demo_buffer playing_world = Returned ws' /\
    drawLiveWaveform playing_world = Returned wl' /\
    Forall2 same_shape (drawn_since playing_world ws' ++ [playhead])
            (drawn_since playing_world wl') /\
    geometry <$> List.filter is_bar (drawn_since playing_world wl') =
      (geometry <$> List.filter is_bar (drawn_since playing_world ws')) ++ [geometry playhead] /\
    is_bar playhead = true.
Proof.
  apply (live_refines_static demo_buffer playing_world playing_world
           (canvas_of playing_world) (canvas_of playing_world) (mkAnalyser 256)
           (context_of playing_world)); reflexivity.
Defined.

(** ** Time formatting *)

Lemma digit_code (d : Z) :
  (0 <= d < 10)%Z -> nat_of_ascii (JS.digit d) = (48 + Z.to_nat d)%nat.
Proof. intros Hd. unfold JS.digit. apply nat_ascii_embedding. lia. Qed.

Lemma digits_parse (fuel : nat) :
  forall (n : Z) (acc : string),
    (0 <= n)%Z -> (n < 2 ^ Z.of_nat fuel)%Z ->
    exists k : Z, (0 <= k)%Z /\
      forall a, parse_from a (JS.digits fuel n acc) = parse_from (a * 10 ^ k + n)%Z acc.
Proof.
  induction fuel as [|fuel IH]; intros n acc Hn Hfuel.
  { exists 0%Z. split; [lia|]. intros a. simpl in *. f_equal. lia. }
  cbn [JS.digits]. destruct (n <? 10)%Z eqn:Hlt.
  - apply Z.ltb_lt in Hlt. exists 1%Z. split; [lia|]. intros a. cbn [parse_from].
    rewrite Z.mod_small by lia. rewrite digit_code by lia. f_equal. lia.
  - apply Z.ltb_ge in Hlt.
    destruct (IH (n / 10)%Z (String (JS.digit (n mod 10)) acc)) as (k & Hk & Hparse).
    { apply Z.div_pos; lia. }
    { rewrite Nat2Z.inj_succ, Z.pow_succ_r in Hfuel by lia.
      apply Z.div_lt_upper_bound; lia. }
    exists (k + 1)%Z. split; [lia|]. intros a. rewrite Hparse. cbn [parse_from].
    pose proof (Z.mod_pos_bound n 10 ltac:(lia)) as Hmod.
    rewrite digit_code by lia. f_equal.
    rewrite Z.pow_add_r by lia. pose proof (Z.div_mod n 10 ltac:(lia)). lia.
Qed.

Lemma digits_all_digits (fuel : nat) :
  forall (n : Z) (acc : string),
    (0 <= n)%Z -> all_digits acc = true -> all_digits (JS.digits fuel n acc) = true.
Proof.
  induction fuel as [|fuel IH]; intros n acc Hn Hacc; [done|].
  cbn [JS.digits]. pose proof (Z.mod_pos_bound n 10 ltac:(lia)) as Hmod.
  assert (Hd : all_digits (String (JS.digit (n mod 10)) acc) = true).
  { cbn [all_digits]. rewrite digit_code by lia. rewrite Hacc.
    rewrite andb_true_r. apply andb_true_intro. split; apply Nat.leb_le; lia. }
  destruct (n <? 10)%Z; [exact Hd|].
  apply IH; [apply Z.div_pos; lia | exact Hd].
Qed.

Lemma decimal_spec (n : Z) :
  (0 <= n)%Z -> all_digits (JS.decimal n) = true /\ parse_decimal (JS.decimal n) = n.
Proof.
  intros Hn. unfold JS.decimal. split.
  - by apply digits_all_digits.
  - destruct (digits_parse (S (Z.to_nat (Z.log2 n))) n EmptyString Hn) as (k & _ & Hparse).
    { pose proof (Z.log2_nonneg n) as Hl.
      rewrite Nat2Z.inj_succ, Z2Nat.id by lia.
      destruct (Z.eq_dec n 0%Z) as [-> | Hne]; [reflexivity|].
      apply Z.log2_spec. lia. }
    unfold parse_decimal. rewrite Hparse. cbn [parse_from]. lia.
Qed.

(** What the search for the shortest numeral returns denotes [x]. *)
Lemma shortest_sound (fuel : nat) :
  forall (p x : Z),
    (0 <= x)%Z -> (0 <= p)%Z ->
    JS.shortest fuel p x = x \/
    ((0 <= JS.shortest fuel p x)%Z /\
     JS.rnd (inject_Z (JS.shortest fuel p x)) == inject_Z x).
Proof.
  induction fuel as [|fuel IH]; intros p x Hx Hp; [by left|].
  cbn [JS.shortest].
  assert (Hlo : (0 <= x / p * p)%Z).
  { destruct (Z.eq_dec p 0%Z) as [-> | Hne]; [lia|].
    apply Z.mul_nonneg_nonneg; [apply Z.div_pos; lia | lia]. }
  destruct (Qeq_bool (JS.rnd (inject_Z (x / p * p))) (inject_Z x)) eqn:Elo;
    destruct (Qeq_bool (JS.rnd (inject_Z (x / p * p + p))) (inject_Z x)) eqn:Ehi;
    cbn [andb];
    try (apply Qeq_bool_iff in Elo); try (apply Qeq_bool_iff in Ehi).
  - destruct (x - x / p * p <? x / p * p + p - x)%Z; [right; split; [lia | exact Elo]|].
    destruct (x / p * p + p - x <? x - x / p * p)%Z; [right; split; [lia | exact Ehi]|].
    destruct (Z.even (x / p)); right; split; try lia; assumption.
  - right. split; [lia | exact Elo].
  - right. split; [lia | exact Ehi].
  - apply IH; [exact Hx | apply Z.div_pos; lia].
Qed.

(** Below 2^53 every integer is a double and no other integer rounds to
    it, so the numeral printed is the decimal numeral of the integer. *)
Lemma toString_safe (n : Z) :
  (0 <= n < 2 ^ 53)%Z -> JS.toString n = JS.decimal n.
Proof.
  intros Hn. unfold JS.toString.
  destruct (n <? 0)%Z eqn:Hneg; [lia|]. rewrite Z.abs_eq by lia.
  set (k := JS.digit_count _ n).
  assert (Hv : JS.shortest (Z.to_nat k) (10 ^ (k - 1)) n = n).
  { destruct (shortest_sound (Z.to_nat k) (10 ^ (k - 1)) n ltac:(lia)) as [Hv | [Hv0 Hv]].
    { apply Z.pow_nonneg. lia. }
    { exact Hv. }
    set (v := JS.shortest (Z.to_nat k) (10 ^ (k - 1)) n) in *.
    destruct (Z_le_gt_dec v (2 ^ 53)) as [Hle | Hgt].
    - rewrite (rnd_Z v) in Hv by lia. apply inject_Z_injective. exact Hv.
    - exfalso.
      assert (H53 : inject_Z (2 ^ 53) <= JS.rnd (inject_Z v)).
      { apply rnd_ge_double; [apply is_double_Z; lia | rewrite <- Zle_Qle; lia]. }
      rewrite Hv in H53. rewrite <- Zle_Qle in H53. lia. }
  rewrite Hv. destruct (n <? 10 ^ 21)%Z eqn:Hlt; [reflexivity|].
  apply Z.ltb_ge in Hlt. lia.
Qed.

Lemma toString_decimal (n : Z) :
  (0 <= n < 2 ^ 53)%Z ->
  all_digits (JS.toString n) = true /\ parse_decimal (JS.toString n) = n.
Proof. intros Hn. rewrite toString_safe by exact Hn. apply decimal_spec. lia. Qed.

Lemma two_digits (sec : Z) : (0 <= sec < 60)%Z -> two_digits_ok sec = true.
Proof.
  intros Hsec. rewrite <- (Z2Nat.id sec) by lia.
  assert (Hn : (Z.to_nat sec < 60)%nat) by lia.
  revert Hn. generalize (Z.to_nat sec). clear Hsec. intros n Hn.
  do 60 (destruct n as [|n]; [vm_compute; reflexivity|]). lia.
Qed.

Lemma minutes_seconds (s : Q) :
  0 <= s ->
  (0 <= Qfloor (s / 60))%Z /\
  JS.rem s 60 = s - inject_Z (Qfloor (s / 60)) * 60 /\
  (0 <= Qfloor (s - inject_Z (Qfloor (s / 60)) * 60) < 60)%Z.
Proof.
  intros Hs.
  assert (Hq : 0 <= s / 60) by (apply Qle_shift_div_l; [reflexivity | lra]).
  split. { change 0%Z with (Qfloor 0). by apply Qfloor_resp_le. }
  split. { unfold JS.rem. destruct (Qlt_le_dec (s / 60) 0); [lra | reflexivity]. }
  pose proof (Qfloor_le (s / 60)) as Hlo. pose proof (Qlt_floor (s / 60)) as Hhi.
  rewrite inject_Z_plus in Hhi. change (inject_Z 1) with 1 in Hhi.
  set (m := inject_Z (Qfloor (s / 60))) in *.
  assert (Hs60 : s == s / 60 * 60) by (field).
  split.
  - change 0%Z with (Qfloor 0). apply Qfloor_resp_le. lra.
  - assert (H59 : (Qfloor (s - m * 60) <= 59)%Z); [|lia].
    assert (Hlt : s - m * 60 < 60) by lra.
    pose proof (Qfloor_le (s - m * 60)) as Hf.
    assert (Hz : inject_Z (Qfloor (s - m * 60)) < inject_Z 60) by (change (inject_Z 60) with 60; lra).
    rewrite <- Zlt_Qlt in Hz. lia.
Qed.

(** Below 2^55 the quotient s / 60 is rounded without passing an integer. *)
Lemma minutes_exact (s : Q) :
  JS.is_double s -> 0 <= s -> s < 36028797018963968 ->
  Qfloor (JS.div s 60) = Qfloor (s / 60) /\ (0 <= Qfloor (s / 60) < 2 ^ 53)%Z.
Proof.
  intros Hd H0 Hlt. split.
  - unfold JS.div.
    apply (floor_rnd_quotient s 60 15 2 3); [exact Hd | exact H0 | exact Hlt | lia | lia | lia |].
    reflexivity.
  - split.
    + change 0%Z with (Qfloor 0). apply Qfloor_resp_le.
      apply Qle_shift_div_l; [reflexivity | lra].
    + rewrite Zlt_Qlt. eapply Qle_lt_trans; [apply Qfloor_le|].
      apply Qlt_shift_div_r; [reflexivity|].
      change (inject_Z (2 ^ 53) * 60) with 540431955284459520. lra.
Qed.

Lemma formatTime_unfold (s : Q) :
  JS.is_double s -> 0 <= s -> s < 36028797018963968 ->
  formatTime s =
  append (JS.decimal (Qfloor (s / 60)))
         (String ":" (JS.padStart 2 "0"
                        (JS.toString (Qfloor (s - inject_Z (Qfloor (s / 60)) * 60))))).
Proof.
  intros Hd Hs Hlt. destruct (minutes_seconds s Hs) as (_ & Hrem & _).
  destruct (minutes_exact s Hd Hs Hlt) as [Hm Hm53].
  unfold formatTime, JS.Math_floor. rewrite Hrem, Hm, toString_safe by exact Hm53.
  reflexivity.
Qed.



Example formatTime_3725 :
  formatTime (3725 # 1) = "62:05"%string /\ Qfloor ((3725 # 1) / 60) = 62%Z.
Proof. split; vm_compute; reflexivity. Qed.


(** ** What each function of the component changes *)

Lemma set_canvasRef_same (w : World) : set_canvasRef (canvasRef w) w = w.
Proof. by destruct w. Qed.

Lemma drawStaticWaveform_frame (buffer : AudioBuffer) (w : World) :
  exists c, drawStaticWaveform buffer w = Returned (set_canvasRef c w).
Proof.
  unfold drawStaticWaveform. destruct (canvasRef w) as [canvas|] eqn:Hc.
  - destruct (context2d canvas); simpl; [eauto|].
    exists (Some canvas). by rewrite <- Hc, set_canvasRef_same.
  - exists None. by rewrite <- Hc, set_canvasRef_same.
Qed.

Lemma drawLiveWaveform_cases (w : World) :
  drawLiveWaveform w = Returned w \/
  exists ctx c,
    audioContextRef w = Some ctx /\ is_Some (analyserRef w) /\ is_Some (canvasRef w) /\
    drawLiveWaveform w =
    Returned
      (set_animationRef (rafNext w)
         (set_rafNext (S (rafNext w))
            (set_rafPending ({[rafNext w]} ∪ rafPending w)
               (set_canvasRef c
                  (set_calls (calls w ++ [FrameElapsed (JS.sub (ctx_currentTime ctx) (startTimeRef w))])
                     (set_currentTime (JS.sub (ctx_currentTime ctx) (startTimeRef w)) w)))))).
Proof.
  destruct (canvasRef w) as [canvas|] eqn:Hc; [|left; unfold drawLiveWaveform; by rewrite Hc].
  destruct (analyserRef w) as [analyser|] eqn:Ha;
    [|left; unfold drawLiveWaveform; by rewrite Hc, Ha].
  destruct (audioContextRef w) as [ctx|] eqn:Hx;
    [|left; unfold drawLiveWaveform; by rewrite Hc, Ha, Hx].
  destruct (context2d canvas) eqn:H2d;
    [|left; unfold drawLiveWaveform; by rewrite Hc, Ha, Hx, H2d].
  right. exists ctx. eexists. split; [done|]. split; [by eauto|]. split; [by eauto|].
  by eapply drawLiveWaveform_spec.
Qed.

Lemma startPlayback_cases (w : World) :
  (startPlayback w = Returned w /\ (audioContextRef w = None \/ audioBufferRef w = None)) \/
  exists ctx buffer,
    audioContextRef w = Some ctx /\ audioBufferRef w = Some buffer /\
    startPlayback w = drawLiveWaveform (started ctx buffer w).
Proof.
  unfold startPlayback.
  destruct (audioContextRef w) as [ctx|] eqn:Hx; [|left; eauto].
  destruct (audioBufferRef w) as [buffer|] eqn:Hb; [|left; eauto].
  right. exists ctx, buffer. split; [done|]. split; [done|].
  unfold node_start. simpl.
  rewrite lookup_app_r by lia. rewrite Nat.sub_diag. simpl.
  f_equal. unfold started, set_sources, resume. simpl.
  rewrite insert_app_r_alt by lia. rewrite Nat.sub_diag. simpl.
  rewrite alter_app_r_alt by lia. rewrite Nat.sub_diag. simpl.
  by destruct (ctx_state ctx).
Qed.

Lemma stopPlayback_cases (P : Platform) (w : World) :
  exists c ss,
    stopPlayback P w =
    Returned (set_canvasRef c (set_sourceRef None
                (set_sources ss (cancelAnimationFrame (animationRef w) w)))) /\
    (ss = sources w \/
     exists id n, sourceRef w = Some id /\ sources w !! id = Some n /\
                  node_status n = Playing /\ ss = <[id := set_status EndQueued n]> (sources w)).
Proof.
  unfold stopPlayback.
  set (w0 := cancelAnimationFrame (animationRef w) w).
  assert (Hinner : exists ss,
    (match sourceRef w0 with
     | Some source =>
         let* w1 := try_catch (node_stop P source w0) (fun w1 => Returned w1) in
         Returned (set_sourceRef None w1)
     | None => Returned w0
     end) = Returned (set_sourceRef None (set_sources ss w0)) /\
    (ss = sources w \/
     exists id n, sourceRef w = Some id /\ sources w !! id = Some n /\
                  node_status n = Playing /\ ss = <[id := set_status EndQueued n]> (sources w))).
  { assert (Hsame : forall v : World, sourceRef v = None ->
                      set_sourceRef None (set_sources (sources v) v) = v).
    { intros v Hv. destruct v. simpl in *. by subst. }
    assert (Hsame' : forall v : World, set_sources (sources v) v = v) by (by intros []).
    change (sourceRef w0) with (sourceRef w). change (sources w0) with (sources w) in *.
    destruct (sourceRef w) as [id|] eqn:Hsrc.
    - unfold node_stop. change (sources w0) with (sources w).
      destruct (sources w !! id) as [n|] eqn:Hn; simpl.
      + destruct (node_status n) eqn:Hst; simpl;
          try (destruct (stop_throws P _); simpl);
          try (exists (sources w); split; [by rewrite <- (Hsame' w0) at 1 | by left]).
        eexists. split; [reflexivity|]. right. eauto 10.
      + exists (sources w). split; [by rewrite <- (Hsame' w0) at 1 | by left].
    - exists (sources w). split; [|by left].
      f_equal. symmetry. apply (Hsame w0). exact Hsrc. }
  destruct Hinner as (ss & -> & Hss). simpl.
  change (audioBufferRef w) with (audioBufferRef w).
  destruct (audioBufferRef w) as [buffer|] eqn:Hb.
  - destruct (drawStaticWaveform_frame buffer (set_sourceRef None (set_sources ss w0)))
      as [c ->]. eauto.
  - exists (canvasRef w), ss. split; [|done]. reflexivity.
Qed.

(** ** Stopping *)

(** C8: stopPlayback returns normally in every world and on every engine,
    whether or not stop() throws on the source it finds; it leaves no source
    in the ref, so a second call right after it does not touch the audio
    graph and returns normally too. *)
Theorem stopPlayback_twice (P : Platform) (w : World) :
  exists w1 w2,
    stopPlayback P w = Returned w1 /\
    sourceRef w1 = None /\
    stopPlayback P w1 = Returned w2 /\
    sources w2 = sources w1 /\
    sourceRef w2 = None /\
    unhandled w2 = unhandled w.
Proof.
  destruct (stopPlayback_cases P w) as (c & ss & Hstop & _).
  eexists. 
  destruct (stopPlayback_cases P
              (set_canvasRef c (set_sourceRef None
                 (set_sources ss (cancelAnimationFrame (animationRef w) w)))))
    as (c' & ss' & Hstop' & Hss').
  eexists. split; [exact Hstop|]. split; [reflexivity|]. split; [exact Hstop'|].
  split; [|split; reflexivity].
  destruct Hss' as [-> | (id & n & Hsrc & _)]; [reflexivity | discriminate Hsrc].
Qed.

(** On an engine where stop() throws once the source has finished, stopping
    after the natural end of playback still returns normally. *)
Example stop_after_natural_end :
  run strict_platform ended_events initial = Some ended_world /\
  node_stop strict_platform 0 ended_world = Threw InvalidStateError ended_world /\
  exists w1, stopPlayback strict_platform ended_world = Returned w1 /\
             sources w1 = sources ended_world /\ unhandled w1 = [].
Proof.
  split; [vm_compute; reflexivity|]. split; [vm_compute; reflexivity|].
  eexists. split; [vm_compute; reflexivity|]. split; reflexivity.
Qed.

(** ** Ended events and the onEnded callback *)

Lemma count_notified_app (cs cs' : list Call) :
  count_notified (cs ++ cs') = (count_notified cs + count_notified cs')%nat.
Proof. unfold count_notified. by rewrite List.filter_app, length_app. Qed.

Lemma count_ended_app (ns ns' : list SourceNode) :
  count_ended (ns ++ ns') = (count_ended ns + count_ended ns')%nat.
Proof. unfold count_ended. by rewrite List.filter_app, length_app. Qed.

Lemma count_ended_insert (ns : list SourceNode) (id : nat) (n n' : SourceNode) :
  ns !! id = Some n ->
  (count_ended (<[id := n']> ns) + (if is_ended n && node_onended n then 1 else 0))%nat =
  (count_ended ns + (if is_ended n' && node_onended n' then 1 else 0))%nat.
Proof.
  unfold count_ended. revert id. induction ns as [|m ns IH]; intros id Hid; [done|].
  destruct id as [|id]; simpl in *.
  - injection Hid as ->.
    destruct (is_ended n && node_onended n), (is_ended n' && node_onended n'); simpl; lia.
  - specialize (IH id Hid).
    destruct (is_ended m && node_onended m); simpl; lia.
Qed.

Lemma set_status_keeps_handler (ns : list SourceNode) (id : nat) (n : SourceNode)
      (s : SourceStatus) :
  ns !! id = Some n ->
  Forall (fun n => node_onended n = true) ns ->
  Forall (fun n => node_onended n = true) (<[id := set_status s n]> ns).
Proof.
  intros Hid Hall. apply Forall_insert; [done|].
  rewrite Forall_lookup in Hall. exact (Hall id n Hid).
Qed.

Lemma ended_inv_same (w w' : World) :
  sources w' = sources w -> count_notified (calls w') = count_notified (calls w) ->
  ended_inv w -> ended_inv w'.
Proof. unfold ended_inv. intros -> ->. done. Qed.

Lemma ended_inv_drawStatic (buffer : AudioBuffer) (w : World) :
  ended_inv w ->
  exists w', drawStaticWaveform buffer w = Returned w' /\ ended_inv w'.
Proof.
  intros Hinv. destruct (drawStaticWaveform_frame buffer w) as [c ->].
  eexists. split; [reflexivity|]. by apply (ended_inv_same w).
Qed.

Lemma ended_inv_drawLive (w : World) :
  ended_inv w ->
  exists w', drawLiveWaveform w = Returned w' /\ ended_inv w'.
Proof.
  intros Hinv. destruct (drawLiveWaveform_cases w) as [-> | (ctx & c & _ & _ & _ & ->)].
  - eauto.
  - eexists. split; [reflexivity|]. apply (ended_inv_same w); [reflexivity | | done].
    cbn [calls set_animationRef set_rafNext set_rafPending set_canvasRef set_calls].
    rewrite count_notified_app. apply Nat.add_0_r.
Qed.

Lemma ended_inv_start (w : World) :
  ended_inv w ->
  exists w', startPlayback w = Returned w' /\ ended_inv w'.
Proof.
  intros Hinv. destruct (startPlayback_cases w) as [[-> _] | (ctx & buffer & _ & _ & ->)].
  - eauto.
  - apply ended_inv_drawLive. destruct Hinv as [Hall Hcount]. split.
    + cbn [sources started set_sources]. apply Forall_app. split; [done|].
      by repeat constructor.
    + cbn [sources calls started set_sources set_startTimeRef set_sourceRef set_analyserRef
             set_audioContextRef].
      rewrite count_ended_app, Hcount. symmetry. apply Nat.add_0_r.
Qed.

Lemma ended_inv_stop (P : Platform) (w : World) :
  ended_inv w ->
  exists w', stopPlayback P w = Returned w' /\ ended_inv w'.
Proof.
  intros [Hall Hcount]. destruct (stopPlayback_cases P w) as (c & ss & -> & Hss).
  eexists. split; [reflexivity|].
  destruct Hss as [-> | (id & n & _ & Hn & Hst & ->)].
  - by split.
  - split.
    + cbn [sources set_canvasRef set_sourceRef set_sources]. by apply set_status_keeps_handler.
    + cbn [sources calls set_canvasRef set_sourceRef set_sources cancelAnimationFrame
             set_rafPending].
      pose proof (count_ended_insert (sources w) id n (set_status EndQueued n) Hn) as Hc.
      unfold is_ended in Hc. rewrite Hst in Hc. simpl in Hc. lia.
Qed.

Lemma ended_inv_playEffect (P : Platform) (w : World) :
  ended_inv w -> exists w', playEffect P w = Returned w' /\ ended_inv w'.
Proof.
  intros Hinv. unfold playEffect.
  destruct (isPlaying w); [by apply ended_inv_start | by apply ended_inv_stop].
Qed.

Lemma ended_inv_step (P : Platform) (ev : Event) (w w' : World) :
  ended_inv w -> step P ev w = Some w' -> ended_inv w'.
Proof.
  intros Hinv Hstep. destruct ev as [canvas s| |b| |h|dt|rect dpr|id|id]; simpl in Hstep.
  - (* Mount *)
    destruct (lifecycle w); try discriminate.
    unfold decodeEffect in Hstep. destruct (atob P s) as [byteChars|].
    + match type of Hstep with
      | Some (commit (playEffect P ?v)) = _ =>
          destruct (ended_inv_playEffect P v) as (w1 & Hplay & Hw1);
            [by apply (ended_inv_same w) | rewrite Hplay in Hstep]
      end.
      by injection Hstep as <-.
    + injection Hstep as <-. by apply (ended_inv_same w).
  - (* Unmount *)
    destruct (is_mounted w); [|discriminate]. injection Hstep as <-.
    apply (ended_inv_same w); [|  | done]; unfold decodeCleanup;
      by destruct (audioContextRef (cancelAnimationFrame (animationRef w) w)).
  - (* SetIsPlaying *)
    destruct (is_mounted w && negb (eqb b (isPlaying w))); [|discriminate].
    destruct (ended_inv_playEffect P (set_isPlaying b w)) as (w1 & Hplay & Hw1);
      [by apply (ended_inv_same w)|].
    rewrite Hplay in Hstep. by injection Hstep as <-.
  - (* DecodeSettled *)
    destruct (pendingDecode w) as [bytes|]; [|discriminate].
    destruct (decodeAudioData P bytes) as [buffer|].
    + unfold decoded in Hstep.
      match type of Hstep with
      | Some (report (drawStaticWaveform buffer ?v)) = _ =>
          destruct (ended_inv_drawStatic buffer v) as (w1 & Hdraw & Hw1);
            [by apply (ended_inv_same w) | rewrite Hdraw in Hstep]
      end.
      by injection Hstep as <-.
    + injection Hstep as <-. by apply (ended_inv_same w).
  - (* AnimationFrame *)
    destruct (decide (h ∈ rafPending w)); [|discriminate].
    destruct (ended_inv_drawLive (set_rafPending (rafPending w ∖ {[h]}) w)) as (w1 & Hdraw & Hw1);
      [by apply (ended_inv_same w)|].
    rewrite Hdraw in Hstep. by injection Hstep as <-.
  - (* ClockAdvance *)
    destruct (audioContextRef w) as [ctx|]; [|discriminate].
    destruct (ctx_state ctx); try discriminate.
    destruct (Qle_bool 0 dt); [|discriminate].
    injection Hstep as <-. by apply (ended_inv_same w).
  - (* Layout *)
    injection Hstep as <-. by apply (ended_inv_same w).
  - (* SourceFinished *)
    destruct (sources w !! id) as [n|] eqn:Hn; [|discriminate].
    destruct (audioContextRef w) as [ctx|]; [|discriminate].
    destruct (node_status n) eqn:Hst; try discriminate.
    destruct (Qle_bool _ _); [|discriminate].
    injection Hstep as <-. destruct Hinv as [Hall Hcount]. split.
    + by apply set_status_keeps_handler.
    + cbn [sources calls set_sources].
      pose proof (count_ended_insert (sources w) id n (set_status EndQueued n) Hn) as Hc.
      unfold is_ended in Hc. rewrite Hst in Hc. simpl in Hc. lia.
  - (* EndedDispatch *)
    destruct (sources w !! id) as [n|] eqn:Hn; [|discriminate].
    destruct (node_status n) eqn:Hst; try discriminate.
    destruct Hinv as [Hall Hcount].
    assert (Hh : node_onended n = true).
    { rewrite Forall_lookup in Hall. exact (Hall id n Hn). }
    rewrite Hh in Hstep. injection Hstep as <-. split.
    + by apply set_status_keeps_handler.
    + cbn [sources calls onended_handler set_currentTime set_calls set_sources].
      rewrite count_notified_app.
      pose proof (count_ended_insert (sources w) id n (set_status Ended n) Hn) as Hc.
      unfold is_ended in Hc. rewrite Hst in Hc. cbn [set_status node_status node_onended] in Hc.
      rewrite Hh in Hc. simpl in Hc.
      change (count_notified [EndedNotified; ElapsedReset]) with 1%nat. lia.
Qed.

Lemma ended_inv_run (P : Platform) (evs : list Event) :
  forall w w', ended_inv w -> run P evs w = Some w' -> ended_inv w'.
Proof.
  induction evs as [|ev evs IH]; intros w w' Hinv Hrun; simpl in Hrun.
  - by injection Hrun as <-.
  - destruct (step P ev w) as [w1|] eqn:Hstep; [|discriminate].
    eapply IH; [|exact Hrun]. by eapply ended_inv_step.
Qed.

Lemma ended_inv_initial : ended_inv initial.
Proof. split; [constructor | reflexivity]. Qed.

Lemma stopPlayback_playing (P : Platform) (w : World) (id : nat) (n : SourceNode) :
  sourceRef w = Some id -> sources w !! id = Some n -> node_status n = Playing ->
  stop_throws P Playing = false ->
  exists c,
    stopPlayback P w =
    Returned (set_canvasRef c (set_sourceRef None
                (set_sources (<[id := set_status EndQueued n]> (sources w))
                   (cancelAnimationFrame (animationRef w) w)))).
Proof.
  intros Hsrc Hn Hst Hthrow. unfold stopPlayback.
  change (sourceRef (cancelAnimationFrame (animationRef w) w)) with (sourceRef w).
  rewrite Hsrc. unfold node_stop.
  change (sources (cancelAnimationFrame (animationRef w) w)) with (sources w).
  rewrite Hn, Hst, Hthrow. cbn [try_catch bind].
  match goal with
  | |- context [audioBufferRef ?v] => change (audioBufferRef v) with (audioBufferRef w)
  end.
  destruct (audioBufferRef w) as [buffer|].
  - match goal with
    | |- context [drawStaticWaveform buffer ?v] =>
        destruct (drawStaticWaveform_frame buffer v) as [c ->]
    end. eauto.
  - exists (canvasRef w). reflexivity.
Qed.

Lemma dispatch_queued (P : Platform) (w : World) (id : nat) (n : SourceNode) :
  sources w !! id = Some n -> node_status n = EndQueued -> node_onended n = true ->
  step P (EndedDispatch id) w =
  Some (onended_handler (set_sources (<[id := set_status Ended n]> (sources w)) w)).
Proof. intros Hn Hst Hh. simpl. by rewrite Hn, Hst, Hh. Qed.

Lemma dispatch_ended (P : Platform) (w : World) (id : nat) (n : SourceNode) :
  sources w !! id = Some n -> node_status n = Ended -> step P (EndedDispatch id) w = None.
Proof. intros Hn Hst. simpl. by rewrite Hn, Hst. Qed.

(** C2, as the code has it: onEnded has been called once for each source
    whose ended event has been dispatched; a dispatch calls onEnded once,
    resets the elapsed time to 0 and cannot happen again for that source; the
    event is dispatched after natural completion and also after stopPlayback
    has stopped a source that was still playing; stopping a source that has
    already ended causes no further dispatch. *)
Theorem onEnded_once_per_ended_source (P : Platform) (evs : list Event) (w : World) :
  run P evs initial = Some w ->
  count_notified (calls w) = count_ended (sources w) /\
  (forall id w', step P (EndedDispatch id) w = Some w' ->
     calls w' = calls w ++ [EndedNotified; ElapsedReset] /\ currentTime w' = 0 /\
     step P (EndedDispatch id) w' = None) /\
  (forall id w1, step P (SourceFinished id) w = Some w1 ->
     exists w2, step P (EndedDispatch id) w1 = Some w2) /\
  (forall id n w1, sourceRef w = Some id -> sources w !! id = Some n ->
     node_status n = Playing -> stop_throws P Playing = false ->
     stopPlayback P w = Returned w1 ->
     exists w2, step P (EndedDispatch id) w1 = Some w2) /\
  (forall id n w1, sources w !! id = Some n -> node_status n = Ended ->
     stopPlayback P w = Returned w1 -> step P (EndedDispatch id) w1 = None).
Proof.
  intros Hrun.
  destruct (ended_inv_run P evs initial w ended_inv_initial Hrun) as [Hall Hcount].
  assert (Hhandler : forall id n, sources w !! id = Some n -> node_onended n = true).
  { intros id n Hn. rewrite Forall_lookup in Hall. exact (Hall id n Hn). }
  split; [exact Hcount|]. split; [|split; [|split]].
  - intros id w' Hstep. pose proof Hstep as Hstep'. simpl in Hstep'.
    destruct (sources w !! id) as [n|] eqn:Hn; [|discriminate].
    destruct (node_status n) eqn:Hst; try discriminate. clear Hstep'.
    rewrite (dispatch_queued P w id n Hn Hst (Hhandler id n Hn)) in Hstep.
    injection Hstep as <-. split; [reflexivity|]. split; [reflexivity|].
    apply (dispatch_ended P _ id (set_status Ended n)); [|reflexivity].
    cbn [sources onended_handler set_currentTime set_calls set_sources].
    apply list_lookup_insert_eq. by eapply lookup_lt_Some.
  - intros id w1 Hstep. simpl in Hstep.
    destruct (sources w !! id) as [n|] eqn:Hn; [|discriminate].
    destruct (audioContextRef w) as [ctx|]; [|discriminate].
    destruct (node_status n) eqn:Hst; try discriminate.
    destruct (Qle_bool _ _); [|discriminate]. injection Hstep as <-.
    eexists. apply (dispatch_queued P _ id (set_status EndQueued n)); [|reflexivity|].
    + cbn [sources set_sources]. apply list_lookup_insert_eq. by eapply lookup_lt_Some.
    + exact (Hhandler id n Hn).
  - intros id n w1 Hsrc Hn Hst Hthrow Hstop.
    destruct (stopPlayback_playing P w id n Hsrc Hn Hst Hthrow) as [c Hstop'].
    rewrite Hstop' in Hstop. injection Hstop as <-.
    eexists. apply (dispatch_queued P _ id (set_status EndQueued n)); [|reflexivity|].
    + cbn [sources set_canvasRef set_sourceRef set_sources].
      apply list_lookup_insert_eq. by eapply lookup_lt_Some.
    + exact (Hhandler id n Hn).
  - intros id n w1 Hn Hst Hstop.
    destruct (stopPlayback_cases P w) as (c & ss & Hstop' & Hss).
    rewrite Hstop' in Hstop. injection Hstop as <-.
    apply (dispatch_ended P _ id n); [|exact Hst].
    cbn [sources set_canvasRef set_sourceRef set_sources].
    destruct Hss as [-> | (id' & n' & _ & Hn' & Hst' & ->)]; [exact Hn|].
    rewrite list_lookup_insert_ne; [exact Hn|].
    intros ->. rewrite Hn in Hn'. injection Hn' as <-. congruence.
Qed.

Lemma onEnded_once_per_ended_source_witness :
  count_notified (calls paused_world) = count_ended (sources paused_world) /\
  (forall id w', step demo_platform (EndedDispatch id) paused_world = Some w' ->
     calls w' = calls paused_world ++ [EndedNotified; ElapsedReset] /\ currentTime w' = 0 /\
     step demo_platform (EndedDispatch id) w' = None) /\
  (forall id w1, step demo_platform (SourceFinished id) paused_world = Some w1 ->
     exists w2, step demo_platform (EndedDispatch id) w1 = Some w2) /\
  (forall id n w1, sourceRef paused_world = Some id -> sources paused_world !! id = Some n ->
     node_status n = Playing -> stop_throws demo_platform Playing = false ->
     stopPlayback demo_platform paused_world = Returned w1 ->
     exists w2, step demo_platform (EndedDispatch id) w1 = Some w2) /\
  (forall id n w1, sources paused_world !! id = Some n -> node_status n = Ended ->
     stopPlayback demo_platform paused_world = Returned w1 ->
     step demo_platform (EndedDispatch id) w1 = None).
Proof.
  apply (onEnded_once_per_ended_source demo_platform paused_events paused_world).
  vm_compute. reflexivity.
Defined.

(** C2 as stated fails: the user pauses half a second into a one-second
    buffer, no source ever plays to its end, and onEnded is called all the
    same when the browser dispatches the ended event of the stopped source. *)
Lemma onEnded_called_after_pause :
  run demo_platform paused_events initial = Some paused_world /\
  natural_completions paused_events = 0%nat /\
  isPlaying paused_world = false /\
  calls paused_world = [FrameElapsed 0; EndedNotified; ElapsedReset] /\
  count_notified (calls paused_world) = 1%nat.
Proof. repeat split; vm_compute; reflexivity. Qed.

(** ** Animation frames *)

Lemma cancel_only_pending (w : World) :
  (forall h, h ∈ rafPending w -> h = animationRef w) ->
  rafPending w ∖ {[animationRef w]} = ∅.
Proof.
  intros Hall. apply leibniz_equiv, elem_of_equiv_empty. intros h Hh.
  apply elem_of_difference in Hh as [Hin Hnot].
  apply Hnot, elem_of_singleton. by apply Hall.
Qed.

Lemma only_fresh_pending (h0 : nat) (h : nat) : h ∈ ({[h0]} ∪ ∅ : gset nat) -> h = h0.
Proof.
  intros Hh. apply elem_of_union in Hh as [Hh | Hh]; [by apply elem_of_singleton in Hh|].
  by apply not_elem_of_empty in Hh.
Qed.

Lemma raf_inv_stop (P : Platform) (w : World) :
  (forall h, h ∈ rafPending w -> h = animationRef w) ->
  exists w', stopPlayback P w = Returned w' /\
             rafPending w' = ∅ /\ animationRef w' = animationRef w /\
             isPlaying w' = isPlaying w /\ lifecycle w' = lifecycle w.
Proof.
  intros Hall. destruct (stopPlayback_cases P w) as (c & ss & -> & _).
  eexists. split; [reflexivity|]. split; [|done].
  cbn [rafPending set_canvasRef set_sourceRef set_sources cancelAnimationFrame set_rafPending].
  by apply cancel_only_pending.
Qed.

Lemma raf_inv_drawLive (w : World) :
  rafPending w = ∅ ->
  exists w', drawLiveWaveform w = Returned w' /\
             (forall h, h ∈ rafPending w' -> h = animationRef w') /\
             isPlaying w' = isPlaying w /\ lifecycle w' = lifecycle w.
Proof.
  intros Hempty. destruct (drawLiveWaveform_cases w) as [-> | (ctx & c & _ & _ & _ & ->)].
  - eexists. split; [reflexivity|]. split; [|done]. rewrite Hempty.
    intros h Hh. by apply not_elem_of_empty in Hh.
  - eexists. split; [reflexivity|]. split; [|done].
    cbn [rafPending animationRef set_animationRef set_rafNext set_rafPending].
    rewrite Hempty. apply only_fresh_pending.
Qed.

Lemma raf_inv_start (w : World) :
  rafPending w = ∅ ->
  exists w', startPlayback w = Returned w' /\
             (forall h, h ∈ rafPending w' -> h = animationRef w') /\
             isPlaying w' = isPlaying w /\ lifecycle w' = lifecycle w.
Proof.
  intros Hempty. destruct (startPlayback_cases w) as [[-> _] | (ctx & buffer & _ & _ & ->)].
  - eexists. split; [reflexivity|]. split; [|done]. rewrite Hempty.
    intros h Hh. by apply not_elem_of_empty in Hh.
  - apply (raf_inv_drawLive (started ctx buffer w)). exact Hempty.
Qed.

Lemma raf_inv_same (w w' : World) :
  rafPending w' = rafPending w -> animationRef w' = animationRef w ->
  isPlaying w' = isPlaying w -> lifecycle w' = lifecycle w ->
  raf_inv w -> raf_inv w'.
Proof. unfold raf_inv. intros -> -> -> ->. done. Qed.

Lemma raf_inv_empty (w : World) :
  rafPending w = ∅ -> lifecycle w <> Fresh -> raf_inv w.
Proof.
  intros Hempty Hlife. repeat split; try done.
  rewrite Hempty. intros h Hh. by apply not_elem_of_empty in Hh.
Qed.

Lemma raf_inv_step (P : Platform) (ev : Event) (w w' : World) :
  raf_inv w -> step P ev w = Some w' -> raf_inv w'.
Proof.
  intros Hinv Hstep. pose proof Hinv as (Hall & Hidle & Hfresh & Hgone).
  destruct ev as [canvas s| |b| |h|dt|rect dpr|id|id]; simpl in Hstep.
  - (* Mount *)
    destruct (lifecycle w) eqn:Hlife; try discriminate.
    pose proof (Hidle (Hfresh eq_refl)) as Hempty.
    unfold decodeEffect in Hstep. destruct (atob P s) as [byteChars|].
    + unfold playEffect in Hstep.
      match type of Hstep with
      | Some (commit (if isPlaying ?v then _ else _)) = _ =>
          change (isPlaying v) with (isPlaying w) in Hstep;
            rewrite (Hfresh eq_refl) in Hstep;
            destruct (raf_inv_stop P v Hall) as (w1 & Hstop & He & Ha & Hp & Hl);
            rewrite Hstop in Hstep
      end.
      injection Hstep as <-. apply raf_inv_empty; [done | by rewrite Hl].
    + injection Hstep as <-. by apply raf_inv_empty.
  - (* Unmount *)
    destruct (is_mounted w); [|discriminate]. injection Hstep as <-.
    apply raf_inv_empty; [|done].
    unfold decodeCleanup.
    destruct (audioContextRef (cancelAnimationFrame (animationRef w) w));
      by apply cancel_only_pending.
  - (* SetIsPlaying *)
    unfold is_mounted in Hstep. destruct (lifecycle w) eqn:Hlife; try discriminate.
    destruct (eqb b (isPlaying w)) eqn:Hb; [discriminate|]. simpl in Hstep.
    unfold playEffect in Hstep. cbn [isPlaying set_isPlaying] in Hstep.
    destruct b.
    + destruct (isPlaying w) eqn:Hp; [discriminate|].
      destruct (raf_inv_start (set_isPlaying true w) (Hidle eq_refl))
        as (w1 & Hstart & Hall1 & Hp1 & Hl1).
      rewrite Hstart in Hstep. injection Hstep as <-.
      cbn [lifecycle set_isPlaying] in Hl1. rewrite Hlife in Hl1.
      split; [exact Hall1|]. split; [by rewrite Hp1|].
      split; by rewrite Hl1.
    + destruct (raf_inv_stop P (set_isPlaying false w) Hall) as (w1 & Hstop & He & _ & _ & Hl1).
      rewrite Hstop in Hstep. injection Hstep as <-.
      cbn [lifecycle set_isPlaying] in Hl1. rewrite Hlife in Hl1.
      apply raf_inv_empty; [done | by rewrite Hl1].
  - (* DecodeSettled *)
    destruct (pendingDecode w) as [bytes|]; [|discriminate].
    destruct (decodeAudioData P bytes) as [buffer|].
    + unfold decoded in Hstep.
      match type of Hstep with
      | Some (report (drawStaticWaveform buffer ?v)) = _ =>
          destruct (drawStaticWaveform_frame buffer v) as [c Hdraw]; rewrite Hdraw in Hstep
      end.
      injection Hstep as <-. by apply (raf_inv_same w).
    + injection Hstep as <-. by apply (raf_inv_same w).
  - (* AnimationFrame *)
    destruct (decide (h ∈ rafPending w)) as [Hh|]; [|discriminate].
    assert (Hempty : rafPending w ∖ {[h]} = ∅).
    { rewrite (Hall h Hh). by apply cancel_only_pending. }
    destruct (raf_inv_drawLive (set_rafPending (rafPending w ∖ {[h]}) w) Hempty)
      as (w1 & Hdraw & Hall1 & Hp1 & Hl1).
    rewrite Hdraw in Hstep. injection Hstep as <-.
    assert (Hplaying : isPlaying w = true).
    { destruct (isPlaying w); [done|]. rewrite (Hidle eq_refl) in Hh.
      by apply not_elem_of_empty in Hh. }
    assert (Hlive : lifecycle w = Mounted).
    { destruct (lifecycle w) eqn:Hlife; [|done|].
      - by rewrite (Hfresh eq_refl) in Hplaying.
      - rewrite (Hgone eq_refl) in Hh. by apply not_elem_of_empty in Hh. }
    split; [exact Hall1|]. split; [|split]; cbn [isPlaying lifecycle set_rafPending] in *;
      congruence.
  - (* ClockAdvance *)
    destruct (audioContextRef w) as [ctx|]; [|discriminate].
    destruct (ctx_state ctx); try discriminate.
    destruct (Qle_bool 0 dt); [|discriminate].
    injection Hstep as <-. by apply (raf_inv_same w).
  - (* Layout *)
    injection Hstep as <-. by apply (raf_inv_same w).
  - (* SourceFinished *)
    destruct (sources w !! id) as [n|]; [|discriminate].
    destruct (audioContextRef w) as [ctx|]; [|discriminate].
    destruct (node_status n); try discriminate.
    destruct (Qle_bool _ _); [|discriminate].
    injection Hstep as <-. by apply (raf_inv_same w).
  - (* EndedDispatch *)
    destruct (sources w !! id) as [n|]; [|discriminate].
    destruct (node_status n); try discriminate.
    injection Hstep as <-. destruct (node_onended n); by apply (raf_inv_same w).
Qed.

Lemma raf_inv_run (P : Platform) (evs : list Event) :
  forall w w', raf_inv w -> run P evs w = Some w' -> raf_inv w'.
Proof.
  induction evs as [|ev evs IH]; intros w w' Hinv Hrun; simpl in Hrun.
  - by injection Hrun as <-.
  - destruct (step P ev w) as [w1|] eqn:Hstep; [|discriminate].
    eapply IH; [|exact Hrun]. by eapply raf_inv_step.
Qed.

Lemma raf_inv_initial : raf_inv initial.
Proof. repeat split; done. Qed.

(** C4, as the code has it: whenever isPlaying is false, and after the
    component is unmounted, no animation frame is queued, because stopPlayback
    and the effect cleanup cancel the one frame that can be; and the frame
    callback returns without drawing, reporting or scheduling when the
    canvas, its 2D context, the analyser or the audio context is missing. *)
Theorem no_frame_while_idle (P : Platform) (evs : list Event) (w : World) :
  run P evs initial = Some w ->
  (isPlaying w = false -> forall h, step P (AnimationFrame h) w = None) /\
  (lifecycle w = Unmounted -> forall h, step P (AnimationFrame h) w = None) /\
  (canvasRef w = None \/ analyserRef w = None \/ audioContextRef w = None \/
   (exists canvas, canvasRef w = Some canvas /\ context2d canvas = false) ->
   drawLiveWaveform w = Returned w).
Proof.
  intros Hrun.
  destruct (raf_inv_run P evs initial w raf_inv_initial Hrun) as (_ & Hidle & _ & Hgone).
  assert (Hnone : rafPending w = ∅ -> forall h, step P (AnimationFrame h) w = None).
  { intros Hempty h. simpl. destruct (decide (h ∈ rafPending w)) as [Hh|]; [|done].
    rewrite Hempty in Hh. by apply not_elem_of_empty in Hh. }
  split; [by intros Hp; apply Hnone, Hidle|]. split; [by intros Hl; apply Hnone, Hgone|].
  intros Hmissing. unfold drawLiveWaveform.
  destruct (canvasRef w) as [canvas|]; [|done]. destruct (analyserRef w); [|done].
  destruct (audioContextRef w); [|done].
  destruct Hmissing as [? | [? | [? | (canvas' & [= <-] & ->)]]]; done.
Qed.

Lemma no_frame_while_idle_witness :
  (isPlaying idle_world = false ->
   forall h, step demo_platform (AnimationFrame h) idle_world = None) /\
  (lifecycle idle_world = Unmounted ->
   forall h, step demo_platform (AnimationFrame h) idle_world = None) /\
  (canvasRef idle_world = None \/ analyserRef idle_world = None \/
   audioContextRef idle_world = None \/
   (exists canvas, canvasRef idle_world = Some canvas /\ context2d canvas = false) ->
   drawLiveWaveform idle_world = Returned idle_world).
Proof.
  apply (no_frame_while_idle demo_platform idle_events idle_world).
  vm_compute. reflexivity.
Defined.

(** C4 as stated fails: after play and then pause the component is idle, yet
    the frame callback, if it is invoked, reports an elapsed time, draws a
    whole live frame and queues a further frame. *)
Lemma stray_frame_is_not_a_noop :
  run demo_platform idle_events initial = Some idle_world /\
  isPlaying idle_world = false /\ sourceRef idle_world = None /\
  rafPending idle_world = ∅ /\
  exists w', drawLiveWaveform idle_world = Returned w' /\
             calls w' = calls idle_world ++ [FrameElapsed 0] /\
             length (drawn_since idle_world w') = 8%nat /\
             rafPending w' = {[2%nat]} /\ animationRef w' = 2%nat.
Proof.
  split; [vm_compute; reflexivity|]. split; [reflexivity|]. split; [reflexivity|].
  split; [reflexivity|]. eexists. split; [vm_compute; reflexivity|].
  repeat split; vm_compute; reflexivity.
Qed.

(** ** Elapsed time *)

Lemma frame_values_app (cs cs' : list Call) :
  frame_values (cs ++ cs') = frame_values cs ++ frame_values cs'.
Proof.
  induction cs as [|c cs IH]; [done|]. destruct c; simpl; by rewrite ?IH.
Qed.

Lemma sub_mono_l (a b s : Q) : a <= b -> JS.sub a s <= JS.sub b s.
Proof. intros H. unfold JS.sub. apply rnd_mono. lra. Qed.

(** One event of a session: the clock does not go back, the start time
    stays, and at most one elapsed time is reported, the clock minus the
    start time. *)
Lemma session_step (P : Platform) (ev : Event) (w w' : World) :
  continues_session ev = true -> step P ev w = Some w' ->
  clock w <= clock w' /\ startTimeRef w' = startTimeRef w /\
  exists new, calls w' = calls w ++ new /\
              (frame_values new = [] \/
               frame_values new = [JS.sub (clock w') (startTimeRef w')]).
Proof.
  intros Hev Hstep. destruct ev as [canvas s| |b| |h|dt|rect dpr|id|id]; simpl in Hstep;
    try discriminate Hev.
  - (* Unmount *)
    destruct (is_mounted w); [|discriminate]. injection Hstep as <-.
    unfold decodeCleanup, clock.
    change (audioContextRef (cancelAnimationFrame (animationRef w) w))
      with (audioContextRef w).
    destruct (audioContextRef w) as [ctx|] eqn:Hx.
    + split; [apply Qle_refl|]. split; [done|]. exists []. rewrite app_nil_r. by split; [|left].
    + cbn [audioContextRef set_lifecycle set_canvasRef cancelAnimationFrame set_rafPending].
      rewrite Hx. split; [apply Qle_refl|]. split; [done|].
      exists []. rewrite app_nil_r. by split; [|left].
  - (* SetIsPlaying false *)
    destruct b; [discriminate Hev|].
    destruct (is_mounted w && negb (eqb false (isPlaying w))); [|discriminate].
    unfold playEffect in Hstep. cbn [isPlaying set_isPlaying] in Hstep.
    destruct (stopPlayback_cases P (set_isPlaying false w)) as (c & ss & Hstop & _).
    rewrite Hstop in Hstep. injection Hstep as <-.
    split; [apply Qle_refl|]. split; [done|]. exists []. rewrite app_nil_r. by split; [|left].
  - (* DecodeSettled *)
    destruct (pendingDecode w) as [bytes|]; [|discriminate].
    destruct (decodeAudioData P bytes) as [buffer|].
    + unfold decoded in Hstep.
      match type of Hstep with
      | Some (report (drawStaticWaveform buffer ?v)) = _ =>
          destruct (drawStaticWaveform_frame buffer v) as [c Hdraw]; rewrite Hdraw in Hstep
      end.
      injection Hstep as <-.
      split; [apply Qle_refl|]. split; [done|]. exists []. rewrite app_nil_r. by split; [|left].
    + injection Hstep as <-.
      split; [apply Qle_refl|]. split; [done|]. exists []. rewrite app_nil_r. by split; [|left].
  - (* AnimationFrame *)
    destruct (decide (h ∈ rafPending w)); [|discriminate].
    destruct (drawLiveWaveform_cases (set_rafPending (rafPending w ∖ {[h]}) w))
      as [Hdraw | (ctx & c & Hx & _ & _ & Hdraw)];
      rewrite Hdraw in Hstep; injection Hstep as <-.
    + split; [apply Qle_refl|]. split; [done|]. exists []. rewrite app_nil_r. by split; [|left].
    + cbn [audioContextRef set_rafPending] in Hx. unfold clock.
      cbn [audioContextRef startTimeRef calls set_animationRef set_rafNext set_rafPending
             set_canvasRef set_calls set_currentTime].
      rewrite Hx. split; [apply Qle_refl|]. split; [done|].
      eexists. split; [reflexivity|]. by right.
  - (* ClockAdvance *)
    unfold clock. destruct (audioContextRef w) as [ctx|]; [|discriminate].
    destruct (ctx_state ctx); try discriminate.
    destruct (Qle_bool 0 dt) eqn:Hdt; [|discriminate].
    apply Qle_bool_iff in Hdt. injection Hstep as <-.
    cbn [audioContextRef set_audioContextRef ctx_currentTime].
    split; [lra|]. split; [done|]. exists []. rewrite app_nil_r. by split; [|left].
  - (* Layout *)
    injection Hstep as <-.
    split; [apply Qle_refl|]. split; [done|]. exists []. rewrite app_nil_r. by split; [|left].
  - (* SourceFinished *)
    destruct (sources w !! id) as [n|]; [|discriminate].
    unfold clock. destruct (audioContextRef w) as [ctx|] eqn:Hx; [|discriminate].
    destruct (node_status n); try discriminate.
    destruct (Qle_bool _ _); [|discriminate].
    injection Hstep as <-. cbn [audioContextRef set_sources]. rewrite Hx.
    split; [apply Qle_refl|]. split; [done|]. exists []. rewrite app_nil_r. by split; [|left].
  - (* EndedDispatch *)
    destruct (sources w !! id) as [n|]; [|discriminate].
    destruct (node_status n); try discriminate.
    injection Hstep as <-. destruct (node_onended n).
    + split; [apply Qle_refl|]. split; [done|]. eexists. split; [reflexivity|]. by left.
    + split; [apply Qle_refl|]. split; [done|]. exists []. rewrite app_nil_r. by split; [|left].
Qed.

Lemma session_run (P : Platform) (evs : list Event) :
  forall w w',
    forallb continues_session evs = true -> run P evs w = Some w' ->
    clock w <= clock w' /\ startTimeRef w' = startTimeRef w /\
    exists new, calls w' = calls w ++ new /\
                StronglySorted Qle (frame_values new) /\
                Forall (fun v => JS.sub (clock w) (startTimeRef w) <= v) (frame_values new) /\
                Forall (fun v => v <= JS.sub (clock w') (startTimeRef w')) (frame_values new).
Proof.
  induction evs as [|ev evs IH]; intros w w' Hevs Hrun; simpl in Hrun.
  - injection Hrun as <-. split; [apply Qle_refl|]. split; [done|].
    exists []. rewrite app_nil_r. repeat split; constructor.
  - destruct (step P ev w) as [w1|] eqn:Hstep; [|discriminate].
    simpl in Hevs. apply andb_prop in Hevs as [Hev Hevs].
    destruct (session_step P ev w w1 Hev Hstep) as (Hc1 & Hs1 & new1 & Hn1 & Hv1).
    destruct (IH w1 w' Hevs Hrun) as (Hc2 & Hs2 & new2 & Hn2 & Hsorted & Hlow & Hhigh).
    split; [lra|]. split; [congruence|].
    exists (new1 ++ new2). split; [by rewrite Hn2, Hn1, app_assoc|].
    rewrite frame_values_app, Hs2, Hs1 in *.
    pose proof (sub_mono_l _ _ (startTimeRef w) Hc1) as H01.
    pose proof (sub_mono_l _ _ (startTimeRef w) Hc2) as H1e.
    destruct Hv1 as [-> | ->]; cbn [app].
    + split; [done|]. split; [|done].
      eapply Forall_impl; [exact Hlow|]. intros v Hv. cbv beta in Hv. lra.
    + split; [|split].
      * constructor; [done|]. exact Hlow.
      * constructor; [lra|].
        eapply Forall_impl; [exact Hlow|]. intros v Hv. cbv beta in Hv. lra.
      * constructor; [lra | done].
Qed.

(** C1, as the code has it: within one playback session, from the play
    command on and as long as no new session begins, the elapsed times
    reported by the frames are non-decreasing; each is the audio clock minus
    the recorded start time, the difference rounded to a double as the code
    computes it, so none exceeds a duration D as long as the clock has not
    passed start + D.  The value is not clamped. *)
Theorem elapsed_monotone_in_session (P : Platform) (rest : list Event) (w w' : World) :
  forallb continues_session rest = true ->
  run P (SetIsPlaying true :: rest) w = Some w' ->
  exists new,
    calls w' = calls w ++ new /\
    StronglySorted Qle (frame_values new) /\
    Forall (fun v => v <= JS.sub (clock w') (startTimeRef w')) (frame_values new) /\
    (forall D, JS.is_double D -> clock w' <= startTimeRef w' + D ->
               Forall (fun v => v <= D) (frame_values new)) /\
    (forall h w'', step P (AnimationFrame h) w' = Some w'' ->
       calls w'' = calls w' \/
       calls w'' = calls w' ++ [FrameElapsed (JS.sub (clock w') (startTimeRef w'))]).
Proof.
  intros Hrest Hrun. cbn [run] in Hrun.
  destruct (step P (SetIsPlaying true) w) as [w0|] eqn:Hstep; [|discriminate].
  cbn [step] in Hstep.
  destruct (is_mounted w && negb (eqb true (isPlaying w))); [|discriminate].
  unfold playEffect in Hstep. cbn [isPlaying set_isPlaying] in Hstep.
  assert (Hfirst : exists w1 new1,
             startPlayback (set_isPlaying true w) = Returned w1 /\
             calls w1 = calls w ++ new1 /\
             (frame_values new1 = [] \/
              frame_values new1 = [JS.sub (clock w1) (startTimeRef w1)])).
  { destruct (startPlayback_cases (set_isPlaying true w))
      as [[-> _] | (ctx & buffer & _ & _ & ->)].
    - eexists _, []. split; [reflexivity|]. rewrite app_nil_r. by split; [|left].
    - destruct (drawLiveWaveform_cases (started ctx buffer (set_isPlaying true w)))
        as [-> | (ctx' & c & Hx & _ & _ & ->)].
      + eexists _, []. split; [reflexivity|]. rewrite app_nil_r. by split; [|left].
      + eexists _, _. split; [reflexivity|]. split; [reflexivity|]. right.
        unfold clock.
        cbn [audioContextRef startTimeRef started set_animationRef set_rafNext set_rafPending
               set_canvasRef set_calls set_currentTime set_sources set_startTimeRef
               set_sourceRef set_analyserRef set_audioContextRef set_isPlaying] in *.
        injection Hx as <-. reflexivity. }
  destruct Hfirst as (w1 & new1 & Hstart & Hn1 & Hv1). rewrite Hstart in Hstep.
  cbn [commit] in Hstep. injection Hstep as <-.
  destruct (session_run P rest w1 w' Hrest Hrun) as (Hc & Hs & new2 & Hn2 & Hsorted & Hlow & Hhigh).
  assert (Hall : StronglySorted Qle (frame_values (new1 ++ new2)) /\
                 Forall (fun v => v <= JS.sub (clock w') (startTimeRef w'))
                        (frame_values (new1 ++ new2))).
  { rewrite frame_values_app. destruct Hv1 as [-> | ->]; cbn [app]; [done|]. split.
    - constructor; [done|]. exact Hlow.
    - constructor; [rewrite Hs; by apply sub_mono_l | done]. }
  destruct Hall as [Hsorted' Hhigh'].
  exists (new1 ++ new2). split; [by rewrite Hn2, Hn1, app_assoc|].
  split; [done|]. split; [done|]. split.
  - intros D HdD HD. eapply Forall_impl; [exact Hhigh'|]. intros v Hv. cbv beta in Hv.
    assert (JS.sub (clock w') (startTimeRef w') <= D).
    { unfold JS.sub. apply rnd_le_double; [exact HdD | lra]. }
    lra.
  - intros h w'' Hframe.
    destruct (session_step P (AnimationFrame h) w' w'' eq_refl Hframe)
      as (_ & Hs'' & new & Hnew & Hv).
    simpl in Hframe. destruct (decide (h ∈ rafPending w')); [|discriminate].
    destruct (drawLiveWaveform_cases (set_rafPending (rafPending w' ∖ {[h]}) w'))
      as [Hdraw | (ctx & c & Hx & _ & _ & Hdraw)];
      rewrite Hdraw in Hframe; injection Hframe as <-; [by left|].
    right. unfold clock. cbn [audioContextRef set_rafPending] in Hx. by rewrite Hx.
Qed.

Lemma elapsed_monotone_in_session_witness :
  exists new,
    calls overrun_world = calls decoding_done_world ++ new /\
    StronglySorted Qle (frame_values new) /\
    Forall (fun v => v <= JS.sub (clock overrun_world) (startTimeRef overrun_world))
           (frame_values new) /\
    (forall D, JS.is_double D -> clock overrun_world <= startTimeRef overrun_world + D ->
               Forall (fun v => v <= D) (frame_values new)) /\
    (forall h w'', step demo_platform (AnimationFrame h) overrun_world = Some w'' ->
       calls w'' = calls overrun_world \/
       calls w'' = calls overrun_world ++
                   [FrameElapsed (JS.sub (clock overrun_world) (startTimeRef overrun_world))]).
Proof.
  apply (elapsed_monotone_in_session demo_platform
           [ClockAdvance (1001 # 1000); SourceFinished 0; AnimationFrame 1]
           decoding_done_world overrun_world);
    [reflexivity | vm_compute; reflexivity].
Defined.

(** C1 as stated fails in its bound: with a one-second buffer, a frame that
    runs when the audio clock has reached 1.001, after the source has played
    to its end and before the owner has reacted, reports 1.001 (the double
    nearest to it). *)
Lemma elapsed_exceeds_duration :
  run demo_platform overrun_events initial = Some overrun_world /\
  isPlaying overrun_world = true /\
  audioBufferRef overrun_world = Some demo_buffer /\
  duration overrun_world = buffer_duration demo_buffer /\
  calls overrun_world = [FrameElapsed 0; FrameElapsed (JS.sub (1001 # 1000) 0)] /\
  ~ (JS.sub (1001 # 1000) 0 <= duration overrun_world) /\
  1 + (1 # 1024) < JS.sub (1001 # 1000) 0.
Proof.
  split; [vm_compute; reflexivity|]. split; [reflexivity|]. split; [reflexivity|].
  split; [reflexivity|]. split; [vm_compute; reflexivity|].
  split; [|vm_compute; reflexivity].
  intros Hle. vm_compute in Hle. by apply Hle.
Qed.

(** ** Decode failures *)

Lemma mount_pending (P : Platform) (canvas : Canvas) (audioBase64 byteChars : string) :
  atob P audioBase64 = Some byteChars ->
  step P (Mount canvas audioBase64) initial =
  Some (set_pendingDecode (Some (list_byte_of_string byteChars))
          (set_audioContextRef (Some (mkContext 0 (new_context_state P)))
             (set_lifecycle Mounted (set_canvasRef (Some canvas) initial)))).
Proof.
  intros Hatob. cbn [step lifecycle initial]. unfold decodeEffect. rewrite Hatob.
  reflexivity.
Qed.

(** C3, as the code has it: the decode promise is given a fulfilment callback
    only.  When the engine rejects the bytes, the rejection is unhandled and
    the component stays mounted with nothing drawn; when the payload is not
    base64, atob throws inside the effect and the exception takes the
    component down.  Either way there is exactly one unhandled fault, the
    owner is not called, no buffer or duration is stored, no decode remains
    pending, and a play command starts nothing. *)
Theorem invalid_payload_is_unhandled (P : Platform) (canvas : Canvas) (audioBase64 : string) :
  invalid_payload P audioBase64 ->
  exists w e,
    ((run P [Mount canvas audioBase64; DecodeSettled] initial = Some w /\
      e = EncodingError /\ lifecycle w = Mounted /\ canvasRef w = Some canvas) \/
     (run P [Mount canvas audioBase64] initial = Some w /\
      e = InvalidCharacterError /\ lifecycle w = Unmounted)) /\
    unhandled w = [e] /\ calls w = [] /\
    audioBufferRef w = None /\ duration w = 0 /\ pendingDecode w = None /\
    startPlayback w = Returned w.
Proof.
  unfold invalid_payload. intros Hinvalid.
  destruct (atob P audioBase64) as [byteChars|] eqn:Hatob.
  - eexists _, EncodingError. split.
    + left. split.
      * cbn [run]. rewrite (mount_pending P canvas audioBase64 byteChars Hatob).
        cbn [step pendingDecode set_pendingDecode]. rewrite Hinvalid. reflexivity.
      * repeat split.
    + repeat split.
  - eexists _, InvalidCharacterError. split.
    + right. split.
      * cbn [run step lifecycle initial]. unfold decodeEffect. rewrite Hatob. reflexivity.
      * repeat split.
    + repeat split.
Qed.

Lemma invalid_payload_is_unhandled_witness :
  exists w e,
    ((run demo_platform [Mount demo_canvas ""; DecodeSettled] initial = Some w /\
      e = EncodingError /\ lifecycle w = Mounted /\ canvasRef w = Some demo_canvas) \/
     (run demo_platform [Mount demo_canvas ""] initial = Some w /\
      e = InvalidCharacterError /\ lifecycle w = Unmounted)) /\
    unhandled w = [e] /\ calls w = [] /\
    audioBufferRef w = None /\ duration w = 0 /\ pendingDecode w = None /\
    startPlayback w = Returned w.
Proof. apply (invalid_payload_is_unhandled demo_platform demo_canvas ""). reflexivity. Defined.

(** C3 as stated fails: for the empty payload the engine rejects the decode,
    the component makes no call on its owner, and the rejection ends up
    unhandled. *)
Lemma empty_payload_rejection_is_unhandled :
  atob demo_platform "" = Some ""%string /\
  decodeAudioData demo_platform (list_byte_of_string "") = None /\
  run demo_platform empty_payload_events initial = Some undecoded_world /\
  calls undecoded_world = [] /\
  unhandled undecoded_world = [EncodingError].
Proof. repeat split; vm_compute; reflexivity. Qed.

(** ** More on the player *)

(** ** More on the static renderer *)

Lemma peak_at_most (data : list Q) (lo hi : Z) (b : Q) :
  0 <= b -> Forall (fun v => Qabs v <= b) data -> peak data lo hi <= b.
Proof.
  intros Hb Hall. unfold peak, JS.for_range.
  destruct (peak_loop_spec data (Z.to_nat (hi - lo)) lo 0) as (_ & _ & [-> | (k & v & _ & Hv & ->)]);
    [done|].
  rewrite Forall_forall in Hall. apply Hall. apply list_elem_of_In. by eapply index_In.
Qed.

Lemma peak_at_least_zero (data : list Q) (lo hi : Z) : 0 <= peak data lo hi.
Proof. unfold peak, JS.for_range. apply (peak_loop_spec data _ lo 0). Qed.

Lemma Math_max_mono (a b c : Q) : b <= c -> JS.Math_max a b <= JS.Math_max a c.
Proof. intros H. unfold JS.Math_max. destruct (Qlt_le_dec a b), (Qlt_le_dec a c); lra. Qed.

Lemma rnd_pow2 (e : Z) : (-1074 <= e)%Z -> JS.is_double (JS.pow2 e).
Proof.
  intros He. unfold JS.is_double. apply (rnd_fixed _ 1 e); [lia | exact He |].
  change (inject_Z 1) with 1. ring.
Qed.

(** Halving a rounded number and rounding again does not exceed the number:
    the double-precision midpoint of a gap stays inside the gap. *)
Lemma half_rnd_le (d : Q) : 0 <= d -> JS.div (JS.rnd d) 2 <= d.
Proof.
  intros Hd. unfold JS.div. destruct (Qlt_le_dec 0 d) as [Hpos | Hzero].
  - destruct (ilog2_spec d Hpos) as [Hlo Hhi]. set (k := JS.ilog2 d) in *.
    destruct (Z_le_gt_dec (-1074) k) as [Hk | Hk].
    + assert (H1 : JS.rnd d <= JS.pow2 (k + 1)).
      { apply rnd_le_double; [apply rnd_pow2; lia | lra]. }
      pose proof (pow2_succ k) as Hs.
      assert (H2 : JS.rnd d / 2 <= JS.pow2 k).
      { apply Qle_shift_div_r; [reflexivity | lra]. }
      eapply Qle_trans; [|exact Hlo].
      apply rnd_le_double; [apply rnd_pow2; lia | exact H2].
    + assert (Hsmall : d <= JS.pow2 (-1074)).
      { apply Qlt_le_weak. eapply Qlt_le_trans; [exact Hhi|]. apply pow2_le. lia. }
      assert (H1 : JS.rnd d <= JS.pow2 (-1074)).
      { apply rnd_le_double; [apply rnd_pow2; lia | exact Hsmall]. }
      pose proof (pow2_pred (-1074)) as Hp. change (-1074 - 1)%Z with (-1075)%Z in Hp.
      assert (H2 : JS.rnd d / 2 <= JS.pow2 (-1075)).
      { apply Qle_shift_div_r; [reflexivity | lra]. }
      assert (H3 : JS.rnd (JS.pow2 (-1075)) == 0) by (vm_compute; reflexivity).
      pose proof (rnd_mono _ _ H2) as H4. lra.
  - assert (E0 : d == 0) by lra.
    assert (E1 : JS.rnd d / 2 == 0).
    { rewrite (rnd_compat d 0 E0). pose proof rnd_0 as H0.
      set (r := JS.rnd 0) in *. unfold Qdiv. rewrite H0. ring. }
    rewrite (rnd_compat _ 0 E1). pose proof rnd_0. lra.
Qed.

(** Up to 2^53 / 7 bars the abscissa [i * 3.5] is computed without
    rounding. *)
Lemma bar_x_exact (i : Z) :
  (0 <= i)%Z -> (7 * i < 2 ^ 53)%Z -> JS.mul (inject_Z i) (7 # 2) == inject_Z i * (7 # 2).
Proof.
  intros H0 H7. unfold JS.mul. apply (rnd_fixed _ (7 * i) (-1)); [lia | lia |].
  rewrite inject_Z_mult. change (inject_Z 7) with 7.
  assert (Hh : JS.pow2 (-1) == 1 # 2) by reflexivity. rewrite Hh. ring.
Qed.

Lemma bar_count_floor (rect : DOMRect) (i : Z) :
  JS.is_double (rect_width rect) -> rect_width rect < 4503599627370496 ->
  (0 <= i < bar_count rect)%Z ->
  inject_Z (i + 1) * (7 # 2) <= rect_width rect /\ (7 * i < 2 ^ 53)%Z.
Proof.
  intros Hd Hlt Hi.
  assert (H0 : 0 <= rect_width rect).
  { destruct (Qlt_le_dec (rect_width rect) 0) as [Hneg|]; [exfalso | done].
    unfold bar_count, JS.Math_floor, JS.div in Hi. rewrite total_bar_width in Hi.
    assert (Hq : rect_width rect / (7 # 2) <= 0).
    { apply Qle_shift_div_r; [reflexivity | lra]. }
    pose proof (rnd_nonpos _ Hq) as Hr. pose proof (Qfloor_mono _ _ Hr) as Hf.
    change (Qfloor 0) with 0%Z in Hf. lia. }
  rewrite (bar_count_exact rect Hd H0 Hlt) in Hi.
  pose proof (Qfloor_le (rect_width rect / (2 + (3 # 2)))) as Hfl.
  assert (Hle : inject_Z (i + 1) <= rect_width rect / (2 + (3 # 2))).
  { eapply Qle_trans; [|exact Hfl]. rewrite <- Zle_Qle. lia. }
  assert (Hw : rect_width rect == rect_width rect / (2 + (3 # 2)) * (2 + (3 # 2))) by (field).
  assert (Hx : inject_Z (i + 1) * (7 # 2) <= rect_width rect).
  { set (q := rect_width rect / (2 + (3 # 2))) in *. lra. }
  split; [exact Hx|].
  assert (Hz : inject_Z (7 * i) < inject_Z (2 ^ 53)).
  { rewrite inject_Z_mult. rewrite inject_Z_plus in Hx.
    change (inject_Z 7) with 7. change (inject_Z 1) with 1 in Hx.
    change (inject_Z (2 ^ 53)) with 9007199254740992. lra. }
  by rewrite <- Zlt_Qlt in Hz.
Qed.

Lemma scale_bounds : 0 <= JS.rnd (8 # 10) /\ JS.rnd (8 # 10) <= 1.
Proof.
  split; [apply rnd_nonneg; discriminate|].
  apply rnd_le_double; [apply (is_double_Z 1); lia | discriminate].
Qed.

(** X2: every bar of the static chart lies inside the surface.  For a width
    that is a double below 2^52, bar i starts at exactly x = 3.5 * i and
    ends at x + 2 <= width.  When the samples are in [-1, 1] and the height
    is a double of at least 2, the bar starts at y >= 0, ends at
    y + h <= height, and h is at most max(2, height * 0.8) as the code
    computes it. *)
Theorem static_bars_inside_surface (buffer : AudioBuffer) (w : World) (canvas : Canvas) (i : Z) :
  let rect := boundingClientRect canvas in
  canvasRef w = Some canvas -> context2d canvas = true ->
  JS.is_double (rect_width rect) -> rect_width rect < 4503599627370496 ->
  (0 <= i < Qfloor (JS.div (rect_width rect) (7 # 2)))%Z ->
  exists w' x y h,
    drawStaticWaveform buffer w = Returned w' /\
    List.filter is_bar (drawn_since w w') !! Z.to_nat i =
      Some (FillRoundRect neutral_style x y 2 h 1) /\
    x == inject_Z i * (7 # 2) /\ 0 <= x /\ x + 2 <= rect_width rect /\
    (Forall (fun v => Qabs v <= 1) (channelData0 buffer) ->
     JS.is_double (rect_height rect) -> 2 <= rect_height rect ->
     0 <= y /\ y + h <= rect_height rect /\
     h <= JS.Math_max 2 (JS.mul (rect_height rect) (JS.rnd (8 # 10)))).
Proof.
  intros rect Hc H2d Hd Hlt Hi.
  assert (Hbc : Qfloor (JS.div (rect_width rect) (7 # 2)) = bar_count rect).
  { unfold bar_count, JS.Math_floor. by rewrite total_bar_width. }
  rewrite Hbc in Hi.
  pose proof (drawStaticWaveform_spec buffer w canvas Hc H2d) as Hspec.
  eexists _, _, _, _. split; [exact Hspec|].
  erewrite drawn_since_appended; [|exact Hc|reflexivity].
  rewrite filter_prelude_bars_only.
  split. { rewrite list_lookup_fmap, zrange_lookup by exact Hi. reflexivity. }
  destruct (bar_count_floor rect i Hd Hlt Hi) as [Hx H7].
  rewrite inject_Z_plus in Hx. change (inject_Z 1) with 1 in Hx.
  assert (H0 : 0 <= inject_Z i) by (apply inject_Z_nonneg; lia).
  rewrite total_bar_width.
  pose proof (bar_x_exact i ltac:(lia) H7) as Ex.
  fold rect. split; [exact Ex|]. split; [lra|]. split; [lra|].
  intros Hrange HdH Hheight.
  pose proof (peak_at_most (channelData0 buffer)
                (bar_bound (channelData0 buffer) (bar_count rect) i)
                (bar_bound (channelData0 buffer) (bar_count rect) (i + 1)) 1
                ltac:(discriminate) Hrange) as Hp1.
  pose proof (peak_at_least_zero (channelData0 buffer)
                (bar_bound (channelData0 buffer) (bar_count rect) i)
                (bar_bound (channelData0 buffer) (bar_count rect) (i + 1))) as Hp0.
  unfold bar_height. set (p := peak _ _ _) in *.
  destruct scale_bounds as [Hc0 Hc1]. set (c := JS.rnd (8 # 10)) in *.
  set (H := rect_height rect) in *.
  assert (Ha : 0 <= JS.mul p H /\ JS.mul p H <= H).
  { unfold JS.mul. split; [apply rnd_nonneg; nra | apply rnd_le_double; [exact HdH | nra]]. }
  set (a := JS.mul p H) in *. destruct Ha as [Ha0 Ha1].
  assert (Hb : JS.mul a c <= H /\ JS.mul a c <= JS.mul H c).
  { unfold JS.mul. split; [apply rnd_le_double; [exact HdH | nra] | apply rnd_mono; nra]. }
  set (b := JS.mul a c) in *. destruct Hb as [Hb1 Hb2].
  pose proof (Math_max_lower 2 b) as Hh2.
  assert (HhH : JS.Math_max 2 b <= H).
  { destruct (Math_max_cases 2 b) as [-> | ->]; [exact Hheight | exact Hb1]. }
  pose proof (Math_max_mono 2 b (JS.mul H c) Hb2) as Hhm.
  set (h := JS.Math_max 2 b) in *.
  assert (Hgap : 0 <= H - h) by lra.
  pose proof (half_rnd_le (H - h) Hgap) as Hy.
  split; [|split; [|exact Hhm]].
  - unfold JS.div, JS.sub. apply rnd_nonneg.
    apply Qle_shift_div_l; [reflexivity|].
    pose proof (rnd_nonneg _ Hgap). lra.
  - unfold JS.sub. lra.
Qed.

Lemma static_bars_inside_surface_witness :
  exists w' x y h,
    drawStaticWaveform demo_buffer mounted_world = Returned w' /\
    List.filter is_bar (drawn_since mounted_world w') !! 3%nat =
      Some (FillRoundRect neutral_style x y 2 h 1) /\
    x == inject_Z 3 * (7 # 2) /\ 0 <= x /\ x + 2 <= 14 /\
    (Forall (fun v => Qabs v <= 1) (channelData0 demo_buffer) ->
     JS.is_double 64 -> 2 <= 64 ->
     0 <= y /\ y + h <= 64 /\ h <= JS.Math_max 2 (JS.mul 64 (JS.rnd (8 # 10)))).
Proof.
  apply (static_bars_inside_surface demo_buffer mounted_world demo_canvas 3);
    [reflexivity | reflexivity | vm_compute; reflexivity | reflexivity
    | vm_compute; split; [discriminate | reflexivity]].
Defined.

(** On a surface of 18014398509481992 pixels, a double above 2^54, the
    quotient width / 3.5 is rounded up and the last bar starts at the right
    edge of the surface. *)
Example wide_surface_overflows :
  JS.is_double 18014398509481992 /\
  bar_count (mkRect 18014398509481992 64) = 5146971002709141%Z /\
  JS.mul (inject_Z 5146971002709140) (JS.add 2 (3 # 2)) == 18014398509481992.
Proof. repeat split; vm_compute; reflexivity. Qed.

(** The ranges of the bars cover the buffer: every sample index falls in the
    range of some bar. *)
Lemma bar_ranges_cover (data : list Q) (bc j : Z) :
  (0 < bc)%Z -> (Z.of_nat (length data) <= 2 ^ 53)%Z ->
  (0 <= j < Z.of_nat (length data))%Z ->
  exists i, (0 <= i < bc)%Z /\ (bar_bound data bc i <= j < bar_bound data bc (i + 1))%Z.
Proof.
  intros Hbc HN Hj.
  assert (Hscan : forall k : nat,
             (Z.of_nat k <= bc)%Z -> (j < bar_bound data bc (Z.of_nat k))%Z ->
             exists i, (0 <= i < Z.of_nat k)%Z /\
                       (bar_bound data bc i <= j < bar_bound data bc (i + 1))%Z).
  { induction k as [|k IH]; intros Hk Hlt.
    - simpl in Hlt. rewrite bar_bound_first in Hlt. lia.
    - destruct (Z_lt_le_dec j (bar_bound data bc (Z.of_nat k))) as [Hbelow | Hin].
      + destruct (IH ltac:(lia) Hbelow) as (i & Hi & Hr). exists i. split; [lia | done].
      + exists (Z.of_nat k). split; [lia|]. split; [done|].
        replace (Z.of_nat k + 1)%Z with (Z.of_nat (S k)) by lia. done. }
  destruct (Hscan (Z.to_nat bc)) as (i & Hi & Hr).
  - lia.
  - rewrite Z2Nat.id by lia. rewrite bar_bound_last by done. lia.
  - exists i. split; [lia | done].
Qed.

Lemma peak_dominates (data : list Q) (lo hi j : Z) (v : Q) :
  (lo <= j < hi)%Z -> JS.index data j = Some v -> Qabs v <= peak data lo hi.
Proof.
  intros Hj Hv. unfold peak, JS.for_range.
  destruct (peak_loop_spec data (Z.to_nat (hi - lo)) lo 0) as (_ & Hall & _).
  apply (Hall j v); [lia | done].
Qed.

(** X3: no sample is lost in the static chart.  With the bounds
    lo k = floor((k / barCount) * length) rounded as the code computes them,
    and at most 2^53 samples, each sample index lies in the range
    [lo i, lo (i + 1)) of exactly one bar i, and that bar is at least as
    tall as the sample's amplitude times height times 0.8, computed with the
    code's two multiplications. *)
Theorem every_sample_shows (buffer : AudioBuffer) (w : World) (canvas : Canvas)
        (j : nat) (v : Q) :
  let rect := boundingClientRect canvas in
  let data := channelData0 buffer in
  let N := inject_Z (Z.of_nat (length data)) in
  let barCount := Qfloor (JS.div (rect_width rect) (7 # 2)) in
  let lo i := Qfloor (JS.mul (JS.div (inject_Z i) (inject_Z barCount)) N) in
  canvasRef w = Some canvas -> context2d canvas = true ->
  (0 < barCount)%Z -> 0 <= rect_height rect ->
  (Z.of_nat (length data) <= 2 ^ 53)%Z ->
  data !! j = Some v ->
  exists w' i x y h,
    drawStaticWaveform buffer w = Returned w' /\
    (0 <= i < barCount)%Z /\ (lo i <= Z.of_nat j < lo (i + 1)%Z)%Z /\
    (forall k, (0 <= k < barCount)%Z -> (lo k <= Z.of_nat j < lo (k + 1)%Z)%Z -> k = i) /\
    List.filter is_bar (drawn_since w w') !! Z.to_nat i =
      Some (FillRoundRect neutral_style x y 2 h 1) /\
    JS.mul (JS.mul (Qabs v) (rect_height rect)) (JS.rnd (8 # 10)) <= h.
Proof.
  intros rect data N barCount lo Hc H2d Hbc Hheight HN Hv.
  assert (Ebc : barCount = bar_count rect).
  { unfold barCount, bar_count, JS.Math_floor. by rewrite total_bar_width. }
  pose proof (drawStaticWaveform_spec buffer w canvas Hc H2d) as Hspec.
  assert (Hj : (0 <= Z.of_nat j < Z.of_nat (length data))%Z).
  { apply lookup_lt_Some in Hv. lia. }
  destruct (bar_ranges_cover data barCount (Z.of_nat j) Hbc HN Hj) as (i & Hi & Hr).
  eexists _, i, _, _, _. split; [exact Hspec|]. split; [exact Hi|]. split; [exact Hr|].
  split.
  { intros k Hk Hrk. change (lo k) with (bar_bound data barCount k) in Hrk.
    change (lo (k + 1)%Z) with (bar_bound data barCount (k + 1)) in Hrk.
    destruct (Z.lt_trichotomy k i) as [Hlt | [Heq | Hgt]]; [|exact Heq|].
    - pose proof (bar_bound_mono data barCount (k + 1) i Hbc ltac:(lia)). lia.
    - pose proof (bar_bound_mono data barCount (i + 1) k Hbc ltac:(lia)). lia. }
  erewrite drawn_since_appended; [|exact Hc|reflexivity].
  rewrite filter_prelude_bars_only.
  assert (Hi' : (0 <= i < bar_count rect)%Z) by (rewrite <- Ebc; exact Hi).
  split. { rewrite list_lookup_fmap, zrange_lookup by exact Hi'. reflexivity. }
  assert (Hidx : JS.index data (Z.of_nat j) = Some v).
  { unfold JS.index. destruct (Z.of_nat j <? 0)%Z eqn:Hneg; [lia|]. by rewrite Nat2Z.id. }
  pose proof (peak_dominates data _ _ _ v Hr Hidx) as Hpeak.
  unfold bar_height. fold rect data. rewrite <- Ebc.
  set (p := peak data _ _) in *.
  pose proof (Qabs_nonneg v) as Habs.
  destruct scale_bounds as [Hc0 _]. set (c := JS.rnd (8 # 10)) in *.
  eapply Qle_trans; [|apply Math_max_upper].
  unfold JS.mul. apply rnd_mono.
  assert (Hm : JS.rnd (Qabs v * rect_height rect) <= JS.rnd (p * rect_height rect)).
  { apply rnd_mono. nra. }
  nra.
Qed.

Lemma every_sample_shows_witness :
  exists w' i x y h,
    drawStaticWaveform spike_buffer spike_world = Returned w' /\
    (0 <= i < Qfloor (JS.div 77 (7 # 2)))%Z /\
    (Qfloor (JS.mul (JS.div (inject_Z i) (inject_Z (Qfloor (JS.div 77 (7 # 2)))))
                    (inject_Z (Z.of_nat (length (channelData0 spike_buffer)))))
     <= Z.of_nat 14 <
     Qfloor (JS.mul (JS.div (inject_Z (i + 1)) (inject_Z (Qfloor (JS.div 77 (7 # 2)))))
                    (inject_Z (Z.of_nat (length (channelData0 spike_buffer))))))%Z /\
    (forall k, (0 <= k < Qfloor (JS.div 77 (7 # 2)))%Z ->
       (Qfloor (JS.mul (JS.div (inject_Z k) (inject_Z (Qfloor (JS.div 77 (7 # 2)))))
                       (inject_Z (Z.of_nat (length (channelData0 spike_buffer)))))
        <= Z.of_nat 14 <
        Qfloor (JS.mul (JS.div (inject_Z (k + 1)) (inject_Z (Qfloor (JS.div 77 (7 # 2)))))
                       (inject_Z (Z.of_nat (length (channelData0 spike_buffer))))))%Z ->
       k = i) /\
    List.filter is_bar (drawn_since spike_world w') !! Z.to_nat i =
      Some (FillRoundRect neutral_style x y 2 h 1) /\
    JS.mul (JS.mul (Qabs 1) 64) (JS.rnd (8 # 10)) <= h.
Proof.
  apply (every_sample_shows spike_buffer spike_world spike_canvas 14 1);
    [reflexivity | reflexivity | vm_compute; reflexivity | discriminate
    | vm_compute; discriminate | reflexivity].
Defined.

(** With 22 bars over 22 samples the sample of index 14 is in the range of
    bar 15: the range of bar 14 is empty, because 15/22 * 22 is rounded
    below 15. *)
Example spike_shows_in_bar_15 :
  bar_bound (channelData0 spike_buffer) 22 14 = 14%Z /\
  bar_bound (channelData0 spike_buffer) 22 15 = 14%Z /\
  bar_bound (channelData0 spike_buffer) 22 16 = 16%Z /\
  bar_height (boundingClientRect spike_canvas) (channelData0 spike_buffer) 14 == 2 /\
  bar_height (boundingClientRect spike_canvas) (channelData0 spike_buffer) 15 ==
    JS.mul 64 (JS.rnd (8 # 10)).
Proof. repeat split; vm_compute; reflexivity. Qed.

(** ** More on the live renderer *)

Lemma live_bar_lookup (w : World) (canvas : Canvas) (analyser : AnalyserNode)
      (ctx : AudioContext) (buffer : AudioBuffer) (i : Z) :
  canvasRef w = Some canvas -> analyserRef w = Some analyser -> audioContextRef w = Some ctx ->
  context2d canvas = true -> audioBufferRef w = Some buffer ->
  (0 <= i < bar_count (boundingClientRect canvas))%Z ->
  exists w',
    drawLiveWaveform w = Returned w' /\
    List.filter is_bar (drawn_since w w') !! Z.to_nat i =
      Some (bar (live_style (boundingClientRect canvas)
                   (progress_of (duration w) (JS.sub (ctx_currentTime ctx) (startTimeRef w))))
                (boundingClientRect canvas) (channelData0 buffer) i).
Proof.
  intros Hc Ha Hx H2d Hb Hi.
  destruct (live_drawn w canvas analyser ctx Hc Ha Hx H2d) as (w' & Hrun & Hdrawn).
  exists w'. split; [exact Hrun|]. rewrite Hdrawn. unfold live_frame. rewrite Hb.
  rewrite filter_prelude_bars. rewrite lookup_app_l.
  - by rewrite list_lookup_fmap, zrange_lookup.
  - rewrite length_fmap.
    pose proof (zrange_length (bar_count (boundingClientRect canvas)) ltac:(lia)). lia.
Qed.

Lemma progress_of_mono (D E1 E2 : Q) :
  E1 <= E2 -> progress_of D E1 <= progress_of D E2.
Proof.
  intros HE. unfold progress_of. destruct (JS.gt D 0) eqn:HD; [|apply Qle_refl].
  apply gt_true in HD. unfold JS.div. apply rnd_mono.
  unfold Qdiv. apply Qmult_le_compat_r; [exact HE|].
  apply Qlt_le_weak, Qinv_lt_0_compat, HD.
Qed.

(** X4: the played region is a prefix of the bars and only grows: a bar that is
    played in one frame is played, together with every bar before it, in any
    frame of the same surface and duration drawn at the same or a later
    elapsed time. *)
Theorem played_region_grows (w1 w2 : World) (c1 c2 : Canvas) (a1 a2 : AnalyserNode)
        (x1 x2 : AudioContext) (b1 b2 : AudioBuffer) (i j : Z) :
  canvasRef w1 = Some c1 -> analyserRef w1 = Some a1 -> audioContextRef w1 = Some x1 ->
  context2d c1 = true -> audioBufferRef w1 = Some b1 ->
  canvasRef w2 = Some c2 -> analyserRef w2 = Some a2 -> audioContextRef w2 = Some x2 ->
  context2d c2 = true -> audioBufferRef w2 = Some b2 ->
  boundingClientRect c1 = boundingClientRect c2 -> duration w1 = duration w2 ->
  ctx_currentTime x1 - startTimeRef w1 <= ctx_currentTime x2 - startTimeRef w2 ->
  (0 <= j <= i)%Z -> (i < Qfloor (JS.div (rect_width (boundingClientRect c1)) (7 # 2)))%Z ->
  played_in_frame w1 i -> played_in_frame w2 j.
Proof.
  intros Hc1 Ha1 Hx1 H2d1 Hb1 Hc2 Ha2 Hx2 H2d2 Hb2 Hrect Hdur HE Hji Hi (w1' & op & Hrun & Hop & Hst).
  assert (Ebc : Qfloor (JS.div (rect_width (boundingClientRect c1)) (7 # 2)) =
                bar_count (boundingClientRect c1)).
  { unfold bar_count, JS.Math_floor. by rewrite total_bar_width. }
  rewrite Ebc in Hi.
  destruct (live_bar_lookup w1 c1 a1 x1 b1 i Hc1 Ha1 Hx1 H2d1 Hb1 ltac:(split; [lia | exact Hi]))
    as (w1'' & Hrun' & Hop').
  rewrite Hrun in Hrun'. injection Hrun' as <-. rewrite Hop in Hop'. injection Hop' as ->.
  cbn [style_of bar] in Hst. injection Hst as Hst. apply live_style_played in Hst.
  assert (Hj : (0 <= j < bar_count (boundingClientRect c2))%Z).
  { rewrite <- Hrect. split; [lia|]. eapply Z.le_lt_trans; [|exact Hi]. lia. }
  destruct (live_bar_lookup w2 c2 a2 x2 b2 j Hc2 Ha2 Hx2 H2d2 Hb2 Hj) as (w2' & Hrun2 & Hop2).
  exists w2'. eexists. split; [exact Hrun2|]. split; [exact Hop2|].
  cbn [style_of bar]. f_equal. apply live_style_played.
  rewrite <- Hrect, <- Hdur.
  assert (HE' : JS.sub (ctx_currentTime x1) (startTimeRef w1) <=
                JS.sub (ctx_currentTime x2) (startTimeRef w2)).
  { unfold JS.sub. by apply rnd_mono. }
  pose proof (progress_of_mono (duration w1) _ _ HE') as Hprog.
  assert (Hbc : (0 < bar_count (boundingClientRect c1))%Z) by lia.
  pose proof (bar_fraction_mono j i (bar_count (boundingClientRect c1)) Hbc ltac:(lia)) as Hfrac.
  eapply Qle_trans; [exact Hfrac|]. eapply Qle_trans; [exact Hst | exact Hprog].
Qed.

Lemma played_region_grows_witness : played_in_frame playing_world 1.
Proof.
  apply (played_region_grows playing_world playing_world (canvas_of playing_world)
           (canvas_of playing_world) (mkAnalyser 256) (mkAnalyser 256)
           (context_of playing_world) (context_of playing_world) demo_buffer demo_buffer 2 1);
    try reflexivity; try (vm_compute; discriminate).
  - vm_compute. split; discriminate.
  - eexists _, _. split; [vm_compute; reflexivity|]. split; vm_compute; reflexivity.
Defined.

(** ** Sources *)

Lemma source_inv_same (w w' : World) :
  sources w' = sources w -> sourceRef w' = sourceRef w ->
  isPlaying w' = isPlaying w -> lifecycle w' = lifecycle w ->
  source_inv w -> source_inv w'.
Proof. unfold source_inv. intros -> -> -> ->. done. Qed.

Lemma source_inv_drawLive (w : World) :
  exists w', drawLiveWaveform w = Returned w' /\
             sources w' = sources w /\ sourceRef w' = sourceRef w /\
             isPlaying w' = isPlaying w /\ lifecycle w' = lifecycle w.
Proof.
  destruct (drawLiveWaveform_cases w) as [-> | (ctx & c & _ & _ & _ & ->)]; eauto 10.
Qed.

Lemma source_inv_start (w : World) :
  (forall id n, sources w !! id = Some n -> node_status n <> Playing) ->
  exists w', startPlayback w = Returned w' /\
             (forall id n, sources w' !! id = Some n -> node_status n = Playing ->
                           sourceRef w' = Some id) /\
             isPlaying w' = isPlaying w /\ lifecycle w' = lifecycle w.
Proof.
  intros Hnone. destruct (startPlayback_cases w) as [[-> _] | (ctx & buffer & _ & _ & ->)].
  - eexists. split; [reflexivity|]. split; [|done].
    intros id n Hn Hst. by destruct (Hnone id n Hn).
  - destruct (source_inv_drawLive (started ctx buffer w)) as (w' & -> & Hs & Hr & Hp & Hl).
    exists w'. split; [reflexivity|]. rewrite Hs, Hr, Hp, Hl. split; [|done].
    cbn [sources sourceRef started set_sources set_startTimeRef set_sourceRef].
    intros id n Hn Hst. f_equal.
    destruct (decide (id < length (sources w))%nat) as [Hlt | Hge].
    + rewrite lookup_app_l in Hn by exact Hlt. by destruct (Hnone id n Hn).
    + apply lookup_lt_Some in Hn. rewrite length_app in Hn. simpl in Hn. lia.
Qed.

Lemma source_inv_stop (P : Platform) (w : World) :
  stop_throws P Playing = false ->
  (forall id n, sources w !! id = Some n -> node_status n = Playing -> sourceRef w = Some id) ->
  exists w', stopPlayback P w = Returned w' /\
             (forall id n, sources w' !! id = Some n -> node_status n <> Playing) /\
             sourceRef w' = None /\
             isPlaying w' = isPlaying w /\ lifecycle w' = lifecycle w.
Proof.
  intros Hthrow Honly.
  destruct (sourceRef w) as [id0|] eqn:Hsrc.
  - destruct (sources w !! id0) as [n0|] eqn:Hn0.
    + assert (Hdec : node_status n0 = Playing \/ node_status n0 <> Playing).
      { destruct (node_status n0); [right | left | right | right]; congruence. }
      destruct Hdec as [Hplaying | Hnot].
      * destruct (stopPlayback_playing P w id0 n0 Hsrc Hn0 Hplaying Hthrow) as [c ->].
        eexists. split; [reflexivity|]. split; [|done].
        cbn [sources set_canvasRef set_sourceRef set_sources].
        intros id n Hn Hst. destruct (decide (id = id0)) as [-> | Hne].
        -- rewrite list_lookup_insert_eq in Hn by (by eapply lookup_lt_Some).
           injection Hn as <-. discriminate Hst.
        -- rewrite list_lookup_insert_ne in Hn by done.
           pose proof (Honly id n Hn Hst) as Heq. congruence.
      * destruct (stopPlayback_cases P w) as (c & ss & -> & Hss).
        eexists. split; [reflexivity|]. split; [|done].
        cbn [sources set_canvasRef set_sourceRef set_sources].
        destruct Hss as [-> | (id' & n' & Hsrc' & Hn' & Hst' & _)].
        -- intros id n Hn Hst. pose proof (Honly id n Hn Hst) as Heq.
           assert (id = id0) as -> by congruence. congruence.
        -- assert (id' = id0) as -> by congruence. congruence.
    + destruct (stopPlayback_cases P w) as (c & ss & -> & Hss).
      eexists. split; [reflexivity|]. split; [|done].
      cbn [sources set_canvasRef set_sourceRef set_sources].
      destruct Hss as [-> | (id' & n' & Hsrc' & Hn' & _)].
      * intros id n Hn Hst. pose proof (Honly id n Hn Hst) as Heq.
        assert (id = id0) as -> by congruence. congruence.
      * assert (id' = id0) as -> by congruence. congruence.
  - destruct (stopPlayback_cases P w) as (c & ss & -> & Hss).
    eexists. split; [reflexivity|]. split; [|done].
    cbn [sources set_canvasRef set_sourceRef set_sources].
    destruct Hss as [-> | (id' & n' & Hsrc' & _)]; [|congruence].
    intros id n Hn Hst. pose proof (Honly id n Hn Hst). congruence.
Qed.

Lemma source_inv_step (P : Platform) (ev : Event) (w w' : World) :
  stop_throws P Playing = false ->
  source_inv w -> step P ev w = Some w' -> source_inv w'.
Proof.
  intros Hthrow Hinv Hstep. pose proof Hinv as (Honly & Hidle & Hfresh).
  destruct ev as [canvas s| |b| |h|dt|rect dpr|id|id]; simpl in Hstep.
  - (* Mount *)
    destruct (lifecycle w) eqn:Hlife; try discriminate.
    unfold decodeEffect in Hstep. destruct (atob P s) as [byteChars|].
    + unfold playEffect in Hstep.
      match type of Hstep with
      | Some (commit (if isPlaying ?v then _ else _)) = _ =>
          change (isPlaying v) with (isPlaying w) in Hstep;
            rewrite (Hfresh eq_refl) in Hstep;
            destruct (source_inv_stop P v Hthrow Honly) as (w1 & Hstop & Hnone & Hr & Hp & Hl);
            rewrite Hstop in Hstep
      end.
      injection Hstep as <-. split; [|split].
      * intros id n Hn Hst. by destruct (Hnone id n Hn).
      * done.
      * by rewrite Hl.
    + injection Hstep as <-. split; [exact Honly|]. split; [exact Hidle | done].
  - (* Unmount *)
    unfold is_mounted in Hstep. destruct (lifecycle w) eqn:Hlife; try discriminate.
    injection Hstep as <-. unfold decodeCleanup.
    destruct (audioContextRef (cancelAnimationFrame (animationRef w) w));
      (split; [exact Honly|]; split; [exact Hidle | done]).
  - (* SetIsPlaying *)
    unfold is_mounted in Hstep. destruct (lifecycle w) eqn:Hlife; try discriminate.
    destruct (eqb b (isPlaying w)) eqn:Hb; [discriminate|]. simpl in Hstep.
    unfold playEffect in Hstep. cbn [isPlaying set_isPlaying] in Hstep.
    destruct b.
    + destruct (isPlaying w) eqn:Hp; [discriminate|].
      assert (Hnone : forall id n, sources (set_isPlaying true w) !! id = Some n ->
                                   node_status n <> Playing).
      { intros id n Hn Hst. pose proof (Honly id n Hn Hst) as Hsrc.
        rewrite (Hidle eq_refl) in Hsrc. discriminate. }
      destruct (source_inv_start (set_isPlaying true w) Hnone) as (w1 & Hstart & Honly1 & Hp1 & Hl1).
      rewrite Hstart in Hstep. injection Hstep as <-.
      cbn [lifecycle isPlaying set_isPlaying] in Hl1, Hp1. rewrite Hlife in Hl1.
      split; [exact Honly1|]. split; [by rewrite Hp1 | by rewrite Hl1].
    + destruct (source_inv_stop P (set_isPlaying false w) Hthrow Honly)
        as (w1 & Hstop & Hnone & Hr & Hp1 & Hl1).
      rewrite Hstop in Hstep. injection Hstep as <-.
      cbn [lifecycle set_isPlaying] in Hl1. rewrite Hlife in Hl1.
      split; [|split; [done | by rewrite Hl1]].
      intros id n Hn Hst. by destruct (Hnone id n Hn).
  - (* DecodeSettled *)
    destruct (pendingDecode w) as [bytes|]; [|discriminate].
    destruct (decodeAudioData P bytes) as [buffer|].
    + unfold decoded in Hstep.
      match type of Hstep with
      | Some (report (drawStaticWaveform buffer ?v)) = _ =>
          destruct (drawStaticWaveform_frame buffer v) as [c Hdraw]; rewrite Hdraw in Hstep
      end.
      injection Hstep as <-. by apply (source_inv_same w).
    + injection Hstep as <-. by apply (source_inv_same w).
  - (* AnimationFrame *)
    destruct (decide (h ∈ rafPending w)); [|discriminate].
    destruct (source_inv_drawLive (set_rafPending (rafPending w ∖ {[h]}) w))
      as (w1 & Hdraw & Hs & Hr & Hp & Hl).
    rewrite Hdraw in Hstep. injection Hstep as <-. by apply (source_inv_same w).
  - (* ClockAdvance *)
    destruct (audioContextRef w) as [ctx|]; [|discriminate].
    destruct (ctx_state ctx); try discriminate.
    destruct (Qle_bool 0 dt); [|discriminate].
    injection Hstep as <-. by apply (source_inv_same w).
  - (* Layout *)
    injection Hstep as <-. by apply (source_inv_same w).
  - (* SourceFinished *)
    destruct (sources w !! id) as [n|] eqn:Hn; [|discriminate].
    destruct (audioContextRef w) as [ctx|]; [|discriminate].
    destruct (node_status n) eqn:Hst; try discriminate.
    destruct (Qle_bool _ _); [|discriminate].
    injection Hstep as <-. split; [|done].
    cbn [sources sourceRef set_sources]. intros id' n' Hn' Hst'.
    destruct (decide (id' = id)) as [-> | Hne].
    + rewrite list_lookup_insert_eq in Hn' by (by eapply lookup_lt_Some).
      injection Hn' as <-. discriminate Hst'.
    + rewrite list_lookup_insert_ne in Hn' by done. by apply (Honly id' n').
  - (* EndedDispatch *)
    destruct (sources w !! id) as [n|] eqn:Hn; [|discriminate].
    destruct (node_status n) eqn:Hst; try discriminate.
    injection Hstep as <-.
    assert (Hgoal : source_inv (set_sources (<[id := set_status Ended n]> (sources w)) w)).
    { split; [|done]. cbn [sources sourceRef set_sources]. intros id' n' Hn' Hst'.
      destruct (decide (id' = id)) as [-> | Hne].
      - rewrite list_lookup_insert_eq in Hn' by (by eapply lookup_lt_Some).
        injection Hn' as <-. discriminate Hst'.
      - rewrite list_lookup_insert_ne in Hn' by done. by apply (Honly id' n'). }
    destruct (node_onended n); [|exact Hgoal]. by apply (source_inv_same _ _ eq_refl eq_refl eq_refl eq_refl).
Qed.

Lemma source_inv_run (P : Platform) (evs : list Event) :
  stop_throws P Playing = false ->
  forall w w', source_inv w -> run P evs w = Some w' -> source_inv w'.
Proof.
  intros Hthrow. induction evs as [|ev evs IH]; intros w w' Hinv Hrun; simpl in Hrun.
  - by injection Hrun as <-.
  - destruct (step P ev w) as [w1|] eqn:Hstep; [|discriminate].
    eapply IH; [|exact Hrun]. by eapply source_inv_step.
Qed.

(** X5: at most one source plays at any time, and it is the one held in
    [sourceRef]: on an engine whose stop() does not throw on a playing
    source, every play command finds the previous source stopped. *)
Theorem one_source_plays (P : Platform) (evs : list Event) (w : World) :
  stop_throws P Playing = false ->
  run P evs initial = Some w ->
  (forall id n, sources w !! id = Some n -> node_status n = Playing -> sourceRef w = Some id) /\
  (forall id1 id2 n1 n2,
     sources w !! id1 = Some n1 -> node_status n1 = Playing ->
     sources w !! id2 = Some n2 -> node_status n2 = Playing -> id1 = id2) /\
  (isPlaying w = false ->
   forall id n, sources w !! id = Some n -> node_status n <> Playing).
Proof.
  intros Hthrow Hrun.
  assert (Hinit : source_inv initial) by (repeat split; done).
  destruct (source_inv_run P evs Hthrow initial w Hinit Hrun) as (Honly & Hidle & _).
  split; [exact Honly|]. split.
  - intros id1 id2 n1 n2 Hn1 Hs1 Hn2 Hs2.
    pose proof (Honly id1 n1 Hn1 Hs1). pose proof (Honly id2 n2 Hn2 Hs2). congruence.
  - intros Hp id n Hn Hst. pose proof (Honly id n Hn Hst) as Hsrc.
    rewrite (Hidle Hp) in Hsrc. discriminate.
Qed.

Lemma one_source_plays_witness :
  (forall id n, sources replay_world !! id = Some n -> node_status n = Playing ->
                sourceRef replay_world = Some id) /\
  (forall id1 id2 n1 n2,
     sources replay_world !! id1 = Some n1 -> node_status n1 = Playing ->
     sources replay_world !! id2 = Some n2 -> node_status n2 = Playing -> id1 = id2) /\
  (isPlaying replay_world = false ->
   forall id n, sources replay_world !! id = Some n -> node_status n <> Playing).
Proof.
  apply (one_source_plays demo_platform replay_events replay_world);
    [reflexivity | vm_compute; reflexivity].
Defined.

(** ** Play and decode *)

Lemma startPlayback_without_buffer (w : World) :
  audioBufferRef w = None -> startPlayback w = Returned w.
Proof.
  intros Hb. unfold startPlayback. rewrite Hb. by destruct (audioContextRef w).
Qed.

(** X6: a play command that arrives before the decode has finished starts
    nothing, and the decode finishing afterwards does not start it either:
    the buffer is stored and the static chart drawn, but no source exists,
    no frame is queued and nothing is reported, although isPlaying is true;
    only a new false-to-true edge of isPlaying can start playback. *)
Theorem play_before_decode_is_lost (P : Platform) (w : World) (bytes : list Byte.byte)
        (buffer : AudioBuffer) :
  lifecycle w = Mounted -> isPlaying w = false -> audioBufferRef w = None ->
  pendingDecode w = Some bytes -> decodeAudioData P bytes = Some buffer ->
  exists w',
    run P [SetIsPlaying true; DecodeSettled] w = Some w' /\
    isPlaying w' = true /\ audioBufferRef w' = Some buffer /\
    sources w' = sources w /\ sourceRef w' = sourceRef w /\ analyserRef w' = analyserRef w /\
    rafPending w' = rafPending w /\ calls w' = calls w /\ unhandled w' = unhandled w /\
    step P (SetIsPlaying true) w' = None.
Proof.
  intros Hl Hp Hb Hd Hdec. cbn [run step]. unfold is_mounted. rewrite Hl, Hp.
  cbn [eqb negb andb]. unfold playEffect. cbn [isPlaying set_isPlaying].
  rewrite startPlayback_without_buffer by exact Hb. cbn [commit].
  cbn [pendingDecode set_isPlaying]. rewrite Hd, Hdec. unfold decoded.
  match goal with
  | |- context [drawStaticWaveform buffer ?v] =>
      destruct (drawStaticWaveform_frame buffer v) as [c ->]
  end.
  eexists. split; [reflexivity|]. repeat split.
  cbn [step is_mounted lifecycle isPlaying report set_canvasRef set_duration
         set_audioBufferRef set_pendingDecode set_isPlaying].
  rewrite Hl. reflexivity.
Qed.

Lemma play_before_decode_is_lost_witness :
  exists w',
    run demo_platform [SetIsPlaying true; DecodeSettled] undecoded_yet_world = Some w' /\
    isPlaying w' = true /\ audioBufferRef w' = Some demo_buffer /\
    sources w' = sources undecoded_yet_world /\ sourceRef w' = sourceRef undecoded_yet_world /\
    analyserRef w' = analyserRef undecoded_yet_world /\
    rafPending w' = rafPending undecoded_yet_world /\ calls w' = calls undecoded_yet_world /\
    unhandled w' = unhandled undecoded_yet_world /\
    step demo_platform (SetIsPlaying true) w' = None.
Proof.
  apply (play_before_decode_is_lost demo_platform undecoded_yet_world
           (list_byte_of_string "RIFF") demo_buffer); reflexivity.
Defined.

(** ** More on time formatting *)

Lemma whole_minutes (s : Q) :
  0 <= s ->
  Qfloor (inject_Z (Qfloor s) / 60) = Qfloor (s / 60) /\
  Qfloor (s - inject_Z (Qfloor (s / 60)) * 60) = (Qfloor s - 60 * Qfloor (s / 60))%Z /\
  Qfloor (inject_Z (Qfloor s) - inject_Z (Qfloor (s / 60)) * 60) =
    (Qfloor s - 60 * Qfloor (s / 60))%Z.
Proof.
  intros Hs.
  pose proof (Qfloor_le s) as Hsl. pose proof (Qlt_floor s) as Hsh.
  pose proof (Qfloor_le (s / 60)) as Hml. pose proof (Qlt_floor (s / 60)) as Hmh.
  rewrite inject_Z_plus in Hsh, Hmh. change (inject_Z 1) with 1 in Hsh, Hmh.
  assert (Hs60 : s == s / 60 * 60) by field.
  set (m := Qfloor (s / 60)) in *. set (f := Qfloor s) in *.
  assert (Hfm : (60 * m <= f)%Z).
  { assert (H : inject_Z (60 * m) < inject_Z (f + 1)).
    { rewrite inject_Z_mult, inject_Z_plus. change (inject_Z 60) with 60.
      change (inject_Z 1) with 1. lra. }
    rewrite <- Zlt_Qlt in H. lia. }
  assert (Hfm' : (f < 60 * m + 60)%Z).
  { assert (H : inject_Z f < inject_Z (60 * m + 60)).
    { rewrite inject_Z_plus, inject_Z_mult. change (inject_Z 60) with 60. lra. }
    rewrite <- Zlt_Qlt in H. lia. }
  assert (Hfmq : inject_Z (60 * m) <= inject_Z f) by (by rewrite <- Zle_Qle).
  assert (Hfmq' : inject_Z f < inject_Z (60 * m + 60)) by (by rewrite <- Zlt_Qlt).
  rewrite inject_Z_mult in Hfmq. rewrite inject_Z_plus, inject_Z_mult in Hfmq'.
  change (inject_Z 60) with 60 in *.
  split; [|split].
  - apply Qfloor_unique.
    + apply Qle_shift_div_l; [reflexivity | lra].
    + rewrite inject_Z_plus. change (inject_Z 1) with 1.
      apply Qlt_shift_div_r; [reflexivity | lra].
  - apply Qfloor_unique.
    + rewrite inject_Z_sub, inject_Z_mult. change (inject_Z 60) with 60. lra.
    + rewrite inject_Z_plus, inject_Z_sub, inject_Z_mult.
      change (inject_Z 60) with 60. change (inject_Z 1) with 1. lra.
  - apply Qfloor_unique.
    + rewrite inject_Z_sub, inject_Z_mult. change (inject_Z 60) with 60. lra.
    + rewrite inject_Z_plus, inject_Z_sub, inject_Z_mult.
      change (inject_Z 60) with 60. change (inject_Z 1) with 1. lra.
Qed.

(** A double of 2^53 or more is an integer, so the floor of a non-negative
    double is a double. *)
Lemma is_double_floor (s : Q) :
  JS.is_double s -> 0 <= s -> JS.is_double (inject_Z (Qfloor s)).
Proof.
  intros Hd Hs. destruct (Qlt_le_dec s (inject_Z (2 ^ 53))) as [Hlt | Hge].
  - apply is_double_Z.
    assert (H0 : (0 <= Qfloor s)%Z) by (change 0%Z with (Qfloor 0); by apply Qfloor_resp_le).
    assert (H1 : inject_Z (Qfloor s) < inject_Z (2 ^ 53)).
    { eapply Qle_lt_trans; [apply Qfloor_le | exact Hlt]. }
    rewrite <- Zlt_Qlt in H1. lia.
  - destruct (double_canonical s Hd) as [M HM].
    assert (Hpos : 0 < s).
    { eapply Qlt_le_trans; [|exact Hge]. reflexivity. }
    assert (Hc : (1 <= JS.cexp s)%Z).
    { destruct (cexp_pos s Hpos) as (l & -> & Hl & Hu).
      assert (H53 : JS.pow2 53 < JS.pow2 (l + 1)).
      { eapply Qle_lt_trans; [|exact Hu]. rewrite pow2_53. exact Hge. }
      apply pow2_lt_inv in H53. lia. }
    rewrite pow2_Z in HM by lia. rewrite <- inject_Z_mult in HM.
    assert (Es : inject_Z (Qfloor s) == s).
    { rewrite (Qfloor_comp _ _ HM), Qfloor_Z. symmetry. exact HM. }
    unfold JS.is_double. rewrite (rnd_compat _ _ Es). rewrite Es. exact Hd.
Qed.

(** X7: the display stands for whole seconds: for a double s with
    0 <= s < 2^55 the two numerals of formatTime(s) read back as
    60 * minutes + seconds = floor(s), and formatTime gives the same text
    for s and for floor(s). *)
Theorem formatTime_reads_back (s : Q) :
  JS.is_double s -> 0 <= s -> s < 36028797018963968 ->
  exists mm ss,
    formatTime s = append mm (String ":" ss) /\
    (60 * parse_decimal mm + parse_decimal ss)%Z = Qfloor s /\
    formatTime (inject_Z (Qfloor s)) = formatTime s.
Proof.
  intros Hd Hs Hlt. destruct (minutes_seconds s Hs) as (Hm & _ & Hsec).
  destruct (whole_minutes s Hs) as (Hwm & Hws & Hwf).
  destruct (decimal_spec (Qfloor (s / 60)) Hm) as [_ Hmp].
  pose proof (two_digits _ Hsec) as Hok. unfold two_digits_ok in Hok.
  apply andb_prop in Hok as [_ Hp]. apply Z.eqb_eq in Hp.
  eexists _, _. split; [by apply formatTime_unfold|].
  split; [rewrite Hmp, Hp, Hws; lia|].
  assert (Hfs : 0 <= inject_Z (Qfloor s)).
  { apply inject_Z_nonneg. change 0%Z with (Qfloor 0). by apply Qfloor_resp_le. }
  assert (Hfl : inject_Z (Qfloor s) < 36028797018963968).
  { eapply Qle_lt_trans; [apply Qfloor_le | exact Hlt]. }
  rewrite (formatTime_unfold s Hd Hs Hlt),
    (formatTime_unfold _ (is_double_floor s Hd Hs) Hfs Hfl).
  by rewrite Hwm, Hwf, Hws.
Qed.

Lemma formatTime_reads_back_witness :
  exists mm ss,
    formatTime (7451 # 2) = append mm (String ":" ss) /\
    (60 * parse_decimal mm + parse_decimal ss)%Z = Qfloor (7451 # 2) /\
    formatTime (inject_Z (Qfloor (7451 # 2))) = formatTime (7451 # 2).
Proof.
  apply (formatTime_reads_back (7451 # 2)); [vm_compute; reflexivity | discriminate | reflexivity].
Defined.

(** Beyond 2^55 the minutes no longer read back: for the double
    540431955284459584 the two numerals stand for one minute more than
    floor(s). *)
Example formatTime_reads_one_minute_more :
  formatTime 540431955284459584 = "9007199254740994:04"%string /\
  (60 * parse_decimal "9007199254740994" + parse_decimal "04")%Z =
    (Qfloor 540431955284459584 + 60)%Z.
Proof. split; vm_compute; reflexivity. Qed.

(** ** More on stopping *)

Lemma stopPlayback_draws (P : Platform) (w : World) :
  exists ss,
    stopPlayback P w =
    match audioBufferRef w with
    | Some buffer =>
        drawStaticWaveform buffer
          (set_sourceRef None (set_sources ss (cancelAnimationFrame (animationRef w) w)))
    | None =>
        Returned (set_sourceRef None (set_sources ss (cancelAnimationFrame (animationRef w) w)))
    end.
Proof.
  unfold stopPlayback. set (w0 := cancelAnimationFrame (animationRef w) w).
  assert (Hsame : forall v : World, set_sources (sources v) v = v) by (by intros []).
  assert (Hnone : forall v : World, sourceRef v = None -> set_sourceRef None v = v).
  { intros v Hv. destruct v. simpl in *. by subst. }
  change (sourceRef w0) with (sourceRef w).
  destruct (sourceRef w) as [id|] eqn:Hsrc.
  - unfold node_stop. change (sources w0) with (sources w).
    destruct (sources w !! id) as [n|]; cbn [try_catch bind].
    + destruct (node_status n); cbn [try_catch bind];
        try (destruct (stop_throws P _); cbn [try_catch bind]);
        try (exists (sources w); change (sources w) with (sources w0); by rewrite Hsame).
      eexists. reflexivity.
    + exists (sources w). change (sources w) with (sources w0). by rewrite Hsame.
  - exists (sources w). change (sources w) with (sources w0). rewrite Hsame.
    cbn [bind]. by rewrite (Hnone w0 Hsrc).
Qed.

(** X8: pausing repaints the resting picture: stopPlayback issues exactly the
    commands of the static renderer, so every bar is neutral and there is no
    playhead; it also empties [sourceRef] and cancels the frame whose handle
    is in [animationRef]. *)
Theorem pause_repaints_static (P : Platform) (w : World) (canvas : Canvas)
        (buffer : AudioBuffer) :
  canvasRef w = Some canvas -> context2d canvas = true -> audioBufferRef w = Some buffer ->
  exists w' ws,
    stopPlayback P w = Returned w' /\
    drawStaticWaveform buffer w = Returned ws /\
    drawn_since w w' = drawn_since w ws /\
    Forall (fun op => style_of op = Some neutral_style)
           (List.filter is_bar (drawn_since w w')) /\
    sourceRef w' = None /\ animationRef w ∉ rafPending w'.
Proof.
  intros Hc H2d Hb. destruct (stopPlayback_draws P w) as [ss Hstop]. rewrite Hb in Hstop.
  pose proof (drawStaticWaveform_spec buffer w canvas Hc H2d) as Hs.
  match type of Hstop with
  | _ = drawStaticWaveform buffer ?v =>
      pose proof (drawStaticWaveform_spec buffer v canvas Hc H2d) as Hs'
  end.
  rewrite Hs' in Hstop. eexists _, _. split; [exact Hstop|]. split; [exact Hs|].
  erewrite (drawn_since_appended w _ canvas); [|exact Hc|reflexivity].
  erewrite (drawn_since_appended w _ canvas); [|exact Hc|reflexivity].
  split; [reflexivity|]. split; [|split; [reflexivity|]].
  - rewrite filter_prelude_bars_only. apply Forall_fmap, Forall_forall. by intros i _.
  - cbn [rafPending set_canvasRef set_sourceRef set_sources cancelAnimationFrame set_rafPending].
    intros Hin. apply elem_of_difference in Hin as [_ Hnot]. apply Hnot.
    by apply elem_of_singleton.
Qed.

Lemma pause_repaints_static_witness :
  exists w' ws,
    stopPlayback demo_platform playing_world = Returned w' /\
    drawStaticWaveform demo_buffer playing_world = Returned ws /\
    drawn_since playing_world w' = drawn_since playing_world ws /\
    Forall (fun op => style_of op = Some neutral_style)
           (List.filter is_bar (drawn_since playing_world w')) /\
    sourceRef w' = None /\ animationRef playing_world ∉ rafPending w'.
Proof.
  apply (pause_repaints_static demo_platform playing_world (canvas_of playing_world)
           demo_buffer); reflexivity.
Defined.

(** ** More on animation frames *)

(** X9: the frame loop never doubles: at any time at most one animation frame
    is queued, and its handle is the one stored in [animationRef]. *)
Theorem one_frame_queued (P : Platform) (evs : list Event) (w : World) :
  run P evs initial = Some w ->
  (forall h, h ∈ rafPending w -> h = animationRef w) /\
  (forall h1 h2, h1 ∈ rafPending w -> h2 ∈ rafPending w -> h1 = h2) /\
  (size (rafPending w) <= 1)%nat.
Proof.
  intros Hrun.
  destruct (raf_inv_run P evs initial w raf_inv_initial Hrun) as (Hall & _).
  split; [exact Hall|]. split.
  - intros h1 h2 H1 H2. by rewrite (Hall h1 H1), (Hall h2 H2).
  - assert (Hsub : rafPending w ⊆ {[animationRef w]}).
    { intros h Hh. apply elem_of_singleton. by apply Hall. }
    apply subseteq_size in Hsub. by rewrite size_singleton in Hsub.
Qed.

Lemma one_frame_queued_witness :
  (forall h, h ∈ rafPending playing_world -> h = animationRef playing_world) /\
  (forall h1 h2, h1 ∈ rafPending playing_world -> h2 ∈ rafPending playing_world -> h1 = h2) /\
  (size (rafPending playing_world) <= 1)%nat.
Proof.
  apply (one_frame_queued demo_platform playing_events playing_world).
  vm_compute. reflexivity.
Defined.

(** ** Teardown *)

Lemma drawStaticWaveform_no_canvas (buffer : AudioBuffer) (w : World) :
  canvasRef w = None -> drawStaticWaveform buffer w = Returned w.
Proof. intros Hc. unfold drawStaticWaveform. by rewrite Hc. Qed.

(** X10: unmounting cancels the queued frame, closes the audio context and
    detaches the canvas; a decode that completes afterwards stores its
    buffer but draws nothing, raises nothing, reports nothing and leaves no
    frame to run. *)
Theorem late_decode_after_unmount (P : Platform) (evs : list Event) (w : World)
        (bytes : list Byte.byte) (buffer : AudioBuffer) :
  run P evs initial = Some w -> lifecycle w = Mounted ->
  pendingDecode w = Some bytes -> decodeAudioData P bytes = Some buffer ->
  exists w2,
    run P [Unmount; DecodeSettled] w = Some w2 /\
    canvasRef w2 = None /\ audioBufferRef w2 = Some buffer /\
    (forall ctx, audioContextRef w2 = Some ctx -> ctx_state ctx = Closed) /\
    unhandled w2 = unhandled w /\ calls w2 = calls w /\
    rafPending w2 = ∅ /\ (forall h, step P (AnimationFrame h) w2 = None).
Proof.
  intros Hrun Hl Hd Hdec.
  destruct (raf_inv_run P evs initial w raf_inv_initial Hrun) as (Hall & _).
  cbn [run step]. unfold is_mounted. rewrite Hl.
  assert (Hpd : pendingDecode (set_lifecycle Unmounted (set_canvasRef None (decodeCleanup w)))
                = Some bytes).
  { unfold decodeCleanup.
    by destruct (audioContextRef (cancelAnimationFrame (animationRef w) w)). }
  rewrite Hpd, Hdec. unfold decoded.
  rewrite drawStaticWaveform_no_canvas.
  2:{ unfold decodeCleanup.
      by destruct (audioContextRef (cancelAnimationFrame (animationRef w) w)). }
  cbn [report]. eexists. split; [reflexivity|].
  assert (Hempty : rafPending (decodeCleanup w) = ∅).
  { unfold decodeCleanup.
    destruct (audioContextRef (cancelAnimationFrame (animationRef w) w));
      by apply cancel_only_pending. }
  split; [reflexivity|]. split; [reflexivity|]. split.
  { intros ctx. unfold decodeCleanup.
    cbn [audioContextRef set_canvasRef set_duration set_audioBufferRef set_pendingDecode
           set_lifecycle].
    change (audioContextRef (cancelAnimationFrame (animationRef w) w))
      with (audioContextRef w).
    destruct (audioContextRef w) as [ctx0|] eqn:Hx.
    - cbn [audioContextRef set_audioContextRef]. by intros [= <-].
    - cbn [audioContextRef cancelAnimationFrame set_rafPending]. rewrite Hx. discriminate. }
  split. { unfold decodeCleanup.
           by destruct (audioContextRef (cancelAnimationFrame (animationRef w) w)). }
  split. { unfold decodeCleanup.
           by destruct (audioContextRef (cancelAnimationFrame (animationRef w) w)). }
  split; [exact Hempty|].
  intros h. cbn [step rafPending set_canvasRef set_duration set_audioBufferRef
                   set_pendingDecode set_lifecycle].
  rewrite Hempty. destruct (decide (h ∈ (∅ : gset nat))) as [Hh|]; [|reflexivity].
  by apply not_elem_of_empty in Hh.
Qed.

Lemma late_decode_after_unmount_witness :
  exists w2,
    run demo_platform [Unmount; DecodeSettled] undecoded_yet_world = Some w2 /\
    canvasRef w2 = None /\ audioBufferRef w2 = Some demo_buffer /\
    (forall ctx, audioContextRef w2 = Some ctx -> ctx_state ctx = Closed) /\
    unhandled w2 = unhandled undecoded_yet_world /\ calls w2 = calls undecoded_yet_world /\
    rafPending w2 = ∅ /\ (forall h, step demo_platform (AnimationFrame h) w2 = None).
Proof.
  apply (late_decode_after_unmount demo_platform [Mount demo_canvas demo_payload]
           undecoded_yet_world (list_byte_of_string "RIFF") demo_buffer);
    [vm_compute; reflexivity | reflexivity | reflexivity | reflexivity].
Defined.

Import Route.
(** ** The rate limiter and the route *)


(** ** The rate limiter *)

Lemma rolled_map (now : Z) (st : Limits) : ipRequestMap (rolled now st) = ipRequestMap st.
Proof. unfold rolled. by destruct (now >? dailyResetAt st)%Z. Qed.

Lemma checkRateLimit_outcome (ip : list N) (now : Z) (st : Limits) :
  check_outcome ip now st (checkRateLimit ip now st).
Proof.
  unfold checkRateLimit. fold (rolled now st).
  destruct (dailyCount (rolled now st) >=? DAILY_GLOBAL_CAP)%Z eqn:Hcap.
  - apply DailyCapHit. rewrite Z.geb_leb in Hcap. by apply Z.leb_le in Hcap.
  - rewrite Z.geb_leb in Hcap. apply Z.leb_gt in Hcap. rewrite rolled_map.
    destruct (ipRequestMap st !! ip) as [e|] eqn:He.
    + destruct (now >? resetAt e)%Z eqn:Hstale.
      * apply WindowOpened; [done|]. right. exists e. split; [done|].
        rewrite Z.gtb_ltb in Hstale. by apply Z.ltb_lt in Hstale.
      * rewrite Z.gtb_ltb in Hstale. apply Z.ltb_ge in Hstale.
        destruct (count e >=? MAX_REQUESTS_PER_WINDOW)%Z eqn:Hfull.
        -- rewrite Z.geb_leb in Hfull. apply Z.leb_le in Hfull. by apply (WindowFull _ _ _ e).
        -- rewrite Z.geb_leb in Hfull. apply Z.leb_gt in Hfull.
           by apply (WindowCounted _ _ _ e).
    + apply WindowOpened; [done | by left].
Qed.

Lemma ceil_seconds_bounds (ms k : Z) :
  (0 <= ms <= k * 1000)%Z -> (0 <= ceil_seconds ms <= k)%Z.
Proof.
  intros Hms. unfold ceil_seconds.
  assert (H1 : (- ms / 1000 <= 0)%Z) by (apply Z.div_le_upper_bound; lia).
  assert (H2 : (- k <= - ms / 1000)%Z) by (apply Z.div_le_lower_bound; lia).
  lia.
Qed.

Lemma limits_inv_later (t t' : Z) (st : Limits) :
  (t <= t')%Z -> limits_inv t st -> limits_inv t' st.
Proof.
  intros Ht (Hd & Hr & Hm). split; [done|]. split; [lia|].
  intros ip e He. destruct (Hm ip e He). split; [done | lia].
Qed.

Lemma limits_inv_rolled (now : Z) (st : Limits) :
  limits_inv now st -> limits_inv now (rolled now st).
Proof.
  intros (Hd & Hr & Hm). unfold rolled. destruct (now >? dailyResetAt st)%Z; [|done].
  split; [cbn; unfold DAILY_GLOBAL_CAP; lia|]. split; [cbn; lia | exact Hm].
Qed.

Lemma limits_inv_insert (now : Z) (st : Limits) (ip : list N) (e : Entry) (d : Z) :
  limits_inv now st ->
  (0 <= d <= DAILY_GLOBAL_CAP)%Z ->
  (1 <= count e <= MAX_REQUESTS_PER_WINDOW)%Z -> (resetAt e <= now + RATE_LIMIT_WINDOW_MS)%Z ->
  limits_inv now (mkLimits (<[ip := e]> (ipRequestMap st)) d (dailyResetAt st)).
Proof.
  intros (Hd & Hr & Hm) Hd' Hc Hw. split; [done|]. split; [done|]. cbn [ipRequestMap].
  intros ip' e' He'. destruct (decide (ip' = ip)) as [-> | Hne].
  - rewrite lookup_insert_eq in He'. by injection He' as <-.
  - rewrite lookup_insert_ne in He' by done. exact (Hm ip' e' He').
Qed.

Lemma limits_inv_check (ip : list N) (now : Z) (st : Limits) :
  limits_inv now st -> limits_inv now (snd (checkRateLimit ip now st)).
Proof.
  intros Hinv. pose proof (limits_inv_rolled now st Hinv) as Hrolled.
  pose proof Hrolled as (Hd & Hr & Hm).
  destruct (checkRateLimit_outcome ip now st) as [Hcap | Hcap Hfresh | e Hcap He Hlive Hfull
                                                 | e Hcap He Hlive Hroom]; cbn [snd].
  - exact Hrolled.
  - rewrite <- (rolled_map now st).
    apply (limits_inv_insert now (rolled now st)); [done | lia | |]; cbn;
      unfold MAX_REQUESTS_PER_WINDOW; lia.
  - exact Hrolled.
  - rewrite <- (rolled_map now st). rewrite <- (rolled_map now st) in He.
    destruct (Hm ip e He) as [Hc Hw].
    apply (limits_inv_insert now (rolled now st)); [done | lia | |]; cbn; lia.
Qed.

Lemma limits_inv_sweep (now : Z) (st : Limits) :
  limits_inv now st -> limits_inv now (sweep now st).
Proof.
  intros (Hd & Hr & Hm). split; [done|]. split; [done|]. cbn [ipRequestMap sweep].
  intros ip e He. apply map_lookup_filter_Some in He as [He _]. exact (Hm ip e He).
Qed.

Lemma limits_inv_run (ops : list (Z * Op)) :
  forall t st, timed_from t ops -> limits_inv t st ->
               limits_inv (last_time t ops) (run_ops ops st).
Proof.
  induction ops as [|[now op] ops IH]; intros t st Htimed Hinv; [exact Hinv|].
  destruct Htimed as [Ht Htimed]. cbn [run_ops last_time]. apply IH; [exact Htimed|].
  apply (limits_inv_later t now) in Hinv; [|exact Ht].
  destruct op as [ip|]; [by apply limits_inv_check | by apply limits_inv_sweep].
Qed.

Lemma limits_inv_loaded (t : Z) : limits_inv t (loaded t).
Proof.
  split; [cbn; unfold DAILY_GLOBAL_CAP; lia|]. split; [cbn; lia|].
  intros ip e He. cbn in He. by rewrite lookup_empty in He.
Qed.

(** X11: the counters stay within their limits: however the requests and the
    sweeps arrive, the daily count never exceeds 2000, every address has
    between 1 and 10 counted requests, and no window ends later than 60 s
    after the last clock reading. *)
Theorem counters_within_limits (t0 : Z) (ops : list (Z * Op)) :
  timed_from t0 ops ->
  let st := run_ops ops (loaded t0) in
  (0 <= dailyCount st <= 2000)%Z /\
  (dailyResetAt st <= last_time t0 ops + 86400000)%Z /\
  (forall ip e, ipRequestMap st !! ip = Some e ->
     (1 <= count e <= 10)%Z /\ (resetAt e <= last_time t0 ops + 60000)%Z).
Proof.
  intros Htimed. exact (limits_inv_run ops t0 (loaded t0) Htimed (limits_inv_loaded t0)).
Qed.

Lemma counters_within_limits_witness :
  let st := run_ops [(100, Check (Str.lit "1.2.3.4")); (200, Check (Str.lit "1.2.3.4"));
                     (70000, Sweep)]%Z (loaded 0) in
  (0 <= dailyCount st <= 2000)%Z /\
  (dailyResetAt st <= 70000 + 86400000)%Z /\
  (forall ip e, ipRequestMap st !! ip = Some e ->
     (1 <= count e <= 10)%Z /\ (resetAt e <= 70000 + 60000)%Z).
Proof.
  apply (counters_within_limits 0
           [(100, Check (Str.lit "1.2.3.4")); (200, Check (Str.lit "1.2.3.4")); (70000, Sweep)]%Z).
  cbn. lia.
Defined.

(** While the window of an address is open, every allowed request of that
    address adds one to its count. *)
Lemma window_budget (ip : list N) (ops : list (Z * Op)) :
  forall st e,
    ipRequestMap st !! ip = Some e ->
    Forall (fun o => (o.1 <= resetAt e)%Z) ops ->
    (count e <= MAX_REQUESTS_PER_WINDOW)%Z ->
    (Z.of_nat (allowed_count ip ops st) + count e <= MAX_REQUESTS_PER_WINDOW)%Z.
Proof.
  induction ops as [|[now op] ops IH]; intros st e He Hin Hc; [cbn; lia|].
  inversion Hin as [|? ? Hnow Hin']; subst. cbn [fst] in Hnow. cbn [allowed_count].
  destruct op as [ip'|].
  - destruct (decide (ip' = ip)) as [-> | Hne].
    + cbn [apply_op].
      destruct (checkRateLimit_outcome ip now st) as [Hcap | Hcap Hfresh | e' Hcap He' Hlive Hfull
                                                     | e' Hcap He' Hlive Hroom]; cbn [fst snd allowed].
      * specialize (IH (rolled now st) e). rewrite rolled_map in IH.
        specialize (IH He Hin' Hc). lia.
      * destruct Hfresh as [Hnone | (e0 & He0 & Hstale)]; [congruence|].
        rewrite He in He0. injection He0 as <-. lia.
      * specialize (IH (rolled now st) e). rewrite rolled_map in IH.
        specialize (IH He Hin' Hc). lia.
      * rewrite He in He'. injection He' as <-.
        match goal with
        | |- context [allowed_count ip ops ?v] =>
            specialize (IH v (mkEntry (count e + 1) (resetAt e)))
        end.
        cbn [ipRequestMap count resetAt] in IH. rewrite lookup_insert_eq in IH.
        specialize (IH eq_refl Hin' ltac:(lia)). lia.
    + cbn [apply_op].
      assert (Hkeep : ipRequestMap (snd (checkRateLimit ip' now st)) !! ip = Some e).
      { destruct (checkRateLimit_outcome ip' now st); cbn [snd ipRequestMap];
          rewrite ?rolled_map, ?lookup_insert_ne by done; exact He. }
      specialize (IH _ e Hkeep Hin' Hc). lia.
  - cbn [apply_op].
    assert (Hkeep : ipRequestMap (sweep now st) !! ip = Some e).
    { cbn [sweep ipRequestMap]. apply map_lookup_filter_Some. split; [exact He|].
      cbn. lia. }
    specialize (IH _ e Hkeep Hin' Hc). lia.
Qed.

(** X12: the per-address limit: from a moment t0 at which an address has no
    entry, or only a stale one, at most 10 of its requests are allowed
    during the next 60 000 ms, however many it sends, whatever the other
    addresses do and whenever the sweep runs. *)
Theorem at_most_ten_per_window (ip : list N) (t0 : Z) (ops : list (Z * Op)) (st : Limits) :
  (ipRequestMap st !! ip = None \/
   exists e, ipRequestMap st !! ip = Some e /\ (resetAt e < t0)%Z) ->
  Forall (fun o => (t0 <= o.1 <= t0 + 60000)%Z) ops ->
  (allowed_count ip ops st <= 10)%nat.
Proof.
  revert st. induction ops as [|[now op] ops IH]; intros st Hfresh Hin; [cbn; lia|].
  inversion Hin as [|? ? Hnow Hin']; subst. cbn [fst] in Hnow. cbn [allowed_count].
  assert (Hopen : forall st' : Limits,
             ipRequestMap st' !! ip = Some (mkEntry 1 (now + RATE_LIMIT_WINDOW_MS)) ->
             (allowed_count ip ops st' <= 9)%nat).
  { intros st' He.
    pose proof (window_budget ip ops st' _ He) as Hb. cbn [count resetAt] in Hb.
    unfold MAX_REQUESTS_PER_WINDOW, RATE_LIMIT_WINDOW_MS in Hb.
    assert (Hin'' : Forall (fun o => (o.1 <= now + 60 * 1000)%Z) ops).
    { eapply Forall_impl; [exact Hin'|]. intros o Ho. cbn in Ho. lia. }
    specialize (Hb Hin'' ltac:(lia)). lia. }
  destruct op as [ip'|].
  - destruct (decide (ip' = ip)) as [-> | Hne].
    + cbn [apply_op].
      destruct (checkRateLimit_outcome ip now st) as [Hcap | Hcap _ | e' Hcap He' Hlive Hfull
                                                     | e' Hcap He' Hlive Hroom]; cbn [fst snd allowed].
      * specialize (IH (rolled now st)). rewrite rolled_map in IH.
        specialize (IH Hfresh Hin'). lia.
      * match goal with
        | |- context [allowed_count ip ops ?v] => specialize (Hopen v)
        end.
        cbn [ipRequestMap] in Hopen. rewrite lookup_insert_eq in Hopen.
        specialize (Hopen eq_refl). lia.
      * destruct Hfresh as [Hnone | (e0 & He0 & Hstale)]; [congruence|].
        rewrite He' in He0. injection He0 as <-. lia.
      * destruct Hfresh as [Hnone | (e0 & He0 & Hstale)]; [congruence|].
        rewrite He' in He0. injection He0 as <-. lia.
    + cbn [apply_op].
      assert (Hkeep : ipRequestMap (snd (checkRateLimit ip' now st)) !! ip =
                      ipRequestMap st !! ip).
      { destruct (checkRateLimit_outcome ip' now st); cbn [snd ipRequestMap];
          rewrite ?rolled_map, ?lookup_insert_ne by done; reflexivity. }
      specialize (IH (snd (checkRateLimit ip' now st))). rewrite Hkeep in IH.
      specialize (IH Hfresh Hin'). lia.
  - cbn [apply_op].
    assert (Hkeep : ipRequestMap (sweep now st) !! ip = None \/
                    exists e, ipRequestMap (sweep now st) !! ip = Some e /\ (resetAt e < t0)%Z).
    { cbn [sweep ipRequestMap].
      destruct Hfresh as [Hnone | (e0 & He0 & Hstale)].
      - left. apply map_lookup_filter_None. left. exact Hnone.
      - left. apply map_lookup_filter_None. right. intros e He. cbn.
        rewrite He0 in He. injection He as <-. lia. }
    specialize (IH (sweep now st) Hkeep Hin'). lia.
Qed.

Lemma at_most_ten_per_window_witness :
  (allowed_count (Str.lit "1.2.3.4") burst (loaded 0) <= 10)%nat.
Proof.
  apply (at_most_ten_per_window (Str.lit "1.2.3.4") 0 burst (loaded 0)).
  - left. reflexivity.
  - unfold burst. repeat constructor; cbn; lia.
Defined.

(** Twelve requests in one window: exactly ten are allowed. *)
Example burst_allows_ten : allowed_count (Str.lit "1.2.3.4") burst (loaded 0) = 10%nat.
Proof. vm_compute. reflexivity. Qed.

(** ** The POST handler *)

Lemma POST_limits (env : Env) (now : Z) (request : Request) (st : Limits) :
  snd (POST env now request st) =
  snd (checkRateLimit (getClientIp (forwardedFor request) (realIp request)) now st).
Proof.
  unfold POST. destruct (checkRateLimit _ now st) as [verdict st'].
  destruct (allowed verdict); cbn [negb snd]; [|reflexivity].
  destruct (json request) as [body|]; [|reflexivity].
  destruct (body_text body) as [text|]; [|reflexivity].
  destruct (negb (Str.truthy text) || _); [reflexivity|].
  destruct (_ >? _)%Z; [reflexivity|].
  destruct (anthropicKey env); cbn [negb]; [|reflexivity].
  destruct (sarvamKey env); cbn [negb]; [|reflexivity].
  by destruct (generate env text (body_speaker body)) as [[? ?]|].
Qed.

Lemma POST_rate_limited (env : Env) (now : Z) (request : Request) (st : Limits) :
  (exists d r, fst (POST env now request st) = RateLimited d r) <->
  allowed (fst (checkRateLimit (getClientIp (forwardedFor request) (realIp request)) now st))
  = false.
Proof.
  unfold POST. destruct (checkRateLimit _ now st) as [verdict st']. cbn [fst].
  destruct (allowed verdict); cbn [negb fst].
  - split; [|intros [=]]. intros (d & r & H). exfalso.
    repeat match type of H with
           | context [match ?x with _ => _ end] => destruct x; cbn [negb fst] in H
           end; discriminate H.
  - split; [done|]. eauto.
Qed.

(** X13: the quota is spent before the request is looked at: every request that
    is not answered 429 adds one to the daily count (taken after the daily
    reset), even when it is then refused as invalid, fails, or its body
    cannot be read; a request answered 429 adds nothing and leaves every
    per-address entry as it was. *)
Theorem quota_spent_before_validation (env : Env) (now : Z) (request : Request) (st : Limits) :
  let day := if (now >? dailyResetAt st)%Z then 0%Z else dailyCount st in
  let '(response, st') := POST env now request st in
  match response with
  | RateLimited _ _ => dailyCount st' = day /\ ipRequestMap st' = ipRequestMap st
  | _ => dailyCount st' = (day + 1)%Z
  end.
Proof.
  intros day.
  assert (Hday : dailyCount (rolled now st) = day).
  { unfold rolled, day. by destruct (now >? dailyResetAt st)%Z. }
  pose proof (POST_limits env now request st) as Hst.
  pose proof (POST_rate_limited env now request st) as Hrl.
  destruct (POST env now request st) as [response st']. cbn [fst snd] in *. subst st'.
  set (ip := getClientIp (forwardedFor request) (realIp request)) in *.
  destruct (checkRateLimit_outcome ip now st) as [Hcap | Hcap Hfresh | e Hcap He Hlive Hfull
                                                 | e Hcap He Hlive Hroom];
    cbn [fst snd allowed dailyCount ipRequestMap] in *.
  - destruct Hrl as [_ Hrl]. destruct (Hrl eq_refl) as (d & r & ->).
    split; [exact Hday | apply rolled_map].
  - destruct response; try (by rewrite Hday).
    destruct Hrl as [Hrl _]. discriminate Hrl. eauto.
  - destruct Hrl as [_ Hrl]. destruct (Hrl eq_refl) as (d & r & ->).
    split; [exact Hday | apply rolled_map].
  - destruct response; try (by rewrite Hday).
    destruct Hrl as [Hrl _]. discriminate Hrl. eauto.
Qed.

(** X14: the retry hint and the daily label: on a 429 the hint is between 0 and
    86 400 seconds; a refusal labelled daily comes from the daily cap and
    carries a hint above 60, and every refusal caused by the per-address
    window carries a hint of at most 60 and is labelled as such.  (A daily
    refusal in the last minute of the day is labelled per-address.) *)
Theorem retry_hint_and_label (env : Env) (t0 now : Z) (ops : list (Z * Op))
        (request : Request) (d : bool) (r : Z) :
  timed_from t0 ops -> (last_time t0 ops <= now)%Z ->
  let st := run_ops ops (loaded t0) in
  fst (POST env now request st) = RateLimited d r ->
  (0 <= r <= 86400)%Z /\
  (d = true -> (60 < r)%Z /\ dailyCount (snd (POST env now request st)) = 2000%Z) /\
  (dailyCount (snd (POST env now request st)) < 2000 -> d = false /\ (r <= 60)%Z)%Z.
Proof.
  intros Htimed Hnow st Hresp.
  pose proof (limits_inv_run ops t0 (loaded t0) Htimed (limits_inv_loaded t0)) as Hinv.
  fold st in Hinv. apply (limits_inv_later _ now) in Hinv; [|exact Hnow].
  pose proof (limits_inv_rolled now st Hinv) as (Hd & Hr & Hm).
  rewrite POST_limits. revert Hresp. unfold POST.
  set (ip := getClientIp (forwardedFor request) (realIp request)).
  assert (Hroll : (now <= dailyResetAt (rolled now st))%Z).
  { unfold rolled. destruct (now >? dailyResetAt st)%Z eqn:Hgt; cbn; unfold DAY_MS; [lia|].
    rewrite Z.gtb_ltb in Hgt. by apply Z.ltb_ge in Hgt. }
  unfold DAILY_GLOBAL_CAP, DAY_MS, MAX_REQUESTS_PER_WINDOW, RATE_LIMIT_WINDOW_MS in *.
  destruct (checkRateLimit_outcome ip now st) as [Hcap | Hcap Hfresh | e Hcap He Hlive Hfull
                                                 | e Hcap He Hlive Hroom];
    cbn [fst snd allowed negb retryAfter default dailyCount]; intros Hresp.
  - injection Hresp as <- <-.
    pose proof (ceil_seconds_bounds (dailyResetAt (rolled now st) - now) 86400 ltac:(lia)) as Hb.
    unfold isDaily, RATE_LIMIT_WINDOW_MS.
    change (60 * 1000 / 1000)%Z with 60%Z.
    split; [exact Hb|]. split.
    + destruct (_ =? 0)%Z; [discriminate|]. intros Hgt.
      rewrite Z.gtb_ltb in Hgt. apply Z.ltb_lt in Hgt.
      unfold DAILY_GLOBAL_CAP in *. lia.
    + unfold DAILY_GLOBAL_CAP in *. lia.
  - exfalso. repeat match type of Hresp with
             | context [match ?x with _ => _ end] => destruct x; cbn [negb fst] in Hresp
             end; discriminate Hresp.
  - injection Hresp as <- <-.
    rewrite <- (rolled_map now st) in He. destruct (Hm ip e He) as [_ Hw].
    pose proof (ceil_seconds_bounds (resetAt e - now) 60 ltac:(lia)) as Hb.
    unfold isDaily, RATE_LIMIT_WINDOW_MS.
    change (60 * 1000 / 1000)%Z with 60%Z.
    assert (Hnot : (if (ceil_seconds (resetAt e - now) =? 0)%Z then false
                    else (ceil_seconds (resetAt e - now) >? 60)%Z) = false).
    { destruct (_ =? 0)%Z; [reflexivity|]. rewrite Z.gtb_ltb. apply Z.ltb_ge. lia. }
    rewrite Hnot. split; [lia|]. split; [discriminate|]. intros _. split; [reflexivity | lia].
  - exfalso. repeat match type of Hresp with
             | context [match ?x with _ => _ end] => destruct x; cbn [negb fst] in Hresp
             end; discriminate Hresp.
Qed.

Lemma retry_hint_and_label_witness :
  let st := run_ops burst (loaded 0) in
  (0 <= 60 <= 86400)%Z /\
  (false = true ->
   (60 < 60)%Z /\ dailyCount (snd (POST demo_env 13 demo_request st)) = 2000%Z) /\
  (dailyCount (snd (POST demo_env 13 demo_request st)) < 2000 -> false = false /\ (60 <= 60)%Z)%Z.
Proof.
  apply (retry_hint_and_label demo_env 0 13 burst demo_request false 60).
  - unfold burst. cbn. lia.
  - vm_compute. discriminate.
  - vm_compute. reflexivity.
Defined.

(** ** The sweep *)

Lemma stale_later (t t' : Z) (o : option Entry) : (t <= t')%Z -> stale t o -> stale t' o.
Proof. intros Ht. destruct o as [e|]; cbn; [lia | done]. Qed.

Lemma same_live_later (t t' : Z) (st1 st2 : Limits) :
  (t <= t')%Z -> same_live t st1 st2 -> same_live t' st1 st2.
Proof.
  intros Ht (Hd & Hr & Hm). split; [done|]. split; [done|].
  intros ip. destruct (Hm ip) as [Heq | [H1 H2]]; [by left|].
  right. split; by eapply stale_later.
Qed.

Lemma same_live_insert (t : Z) (st1 st2 : Limits) (ip : list N) (e : Entry) (d r : Z) :
  same_live t st1 st2 ->
  same_live t (mkLimits (<[ip := e]> (ipRequestMap st1)) d r)
              (mkLimits (<[ip := e]> (ipRequestMap st2)) d r).
Proof.
  intros (_ & _ & Hm). split; [done|]. split; [done|]. cbn [ipRequestMap].
  intros ip'. destruct (decide (ip' = ip)) as [-> | Hne].
  - left. by rewrite !lookup_insert_eq.
  - rewrite !lookup_insert_ne by done. apply Hm.
Qed.

Lemma same_live_check (ip : list N) (now : Z) (st1 st2 : Limits) :
  same_live now st1 st2 ->
  fst (checkRateLimit ip now st1) = fst (checkRateLimit ip now st2) /\
  same_live now (snd (checkRateLimit ip now st1)) (snd (checkRateLimit ip now st2)).
Proof.
  intros Hsame. pose proof Hsame as (Hd & Hr & Hm).
  assert (Hrolled : same_live now (rolled now st1) (rolled now st2)).
  { unfold rolled. rewrite Hr. destruct (now >? dailyResetAt st2)%Z; [|exact Hsame].
    split; [done|]. split; [done|]. exact Hm. }
  pose proof Hrolled as (Hd' & Hr' & _).
  unfold checkRateLimit. fold (rolled now st1) (rolled now st2).
  rewrite Hd', Hr', !rolled_map.
  destruct (dailyCount (rolled now st2) >=? DAILY_GLOBAL_CAP)%Z; [by split|].
  assert (Hopen : forall st : Limits, same_live now
            (mkLimits (<[ip := mkEntry 1 (now + RATE_LIMIT_WINDOW_MS)]> (ipRequestMap st1))
                      (dailyCount (rolled now st2) + 1) (dailyResetAt (rolled now st2)))
            (mkLimits (<[ip := mkEntry 1 (now + RATE_LIMIT_WINDOW_MS)]> (ipRequestMap st2))
                      (dailyCount (rolled now st2) + 1) (dailyResetAt (rolled now st2)))).
  { intros _. by apply same_live_insert. }
  destruct (Hm ip) as [Heq | [H1 H2]].
  - rewrite Heq. destruct (ipRequestMap st2 !! ip) as [e|]; [|split; [done | by apply Hopen]].
    destruct (now >? resetAt e)%Z; [split; [done | by apply Hopen]|].
    destruct (count e >=? MAX_REQUESTS_PER_WINDOW)%Z; [by split|].
    split; [done|]. by apply same_live_insert.
  - destruct (ipRequestMap st1 !! ip) as [e1|], (ipRequestMap st2 !! ip) as [e2|];
      cbn [stale] in H1, H2;
      repeat match goal with
             | H : (resetAt ?e < now)%Z |- context [(now >? resetAt ?e)%Z] =>
                 replace (now >? resetAt e)%Z with true
                   by (symmetry; rewrite Z.gtb_ltb; by apply Z.ltb_lt)
             end;
      (split; [done | by apply Hopen]).
Qed.

Lemma same_live_sweep (now : Z) (st1 st2 : Limits) :
  same_live now st1 st2 -> same_live now (sweep now st1) (sweep now st2).
Proof.
  intros (Hd & Hr & Hm). split; [done|]. split; [done|]. cbn [sweep ipRequestMap].
  intros ip. left. rewrite !map_lookup_filter.
  destruct (Hm ip) as [-> | [H1 H2]]; [done|].
  destruct (ipRequestMap st1 !! ip) as [e1|], (ipRequestMap st2 !! ip) as [e2|];
    cbn [stale] in H1, H2; cbn;
    repeat (case_guard; cbn in *; try lia); done.
Qed.

Lemma sweep_same_live (t : Z) (st : Limits) : same_live t (sweep t st) st.
Proof.
  split; [done|]. split; [done|]. cbn [sweep ipRequestMap]. intros ip.
  rewrite map_lookup_filter. destruct (ipRequestMap st !! ip) as [e|]; cbn; [|by left].
  case_guard; cbn in *; [by left|]. right. split; [done | lia].
Qed.

Lemma same_live_verdicts (ops : list (Z * Op)) :
  forall t st1 st2,
    timed_from t ops -> same_live t st1 st2 -> verdicts ops st1 = verdicts ops st2.
Proof.
  induction ops as [|[now op] ops IH]; intros t st1 st2 Htimed Hsame; [done|].
  destruct Htimed as [Ht Htimed]. apply (same_live_later t now) in Hsame; [|exact Ht].
  destruct op as [ip|]; cbn [verdicts].
  - destruct (same_live_check ip now st1 st2 Hsame) as [-> Hsame'].
    f_equal. by apply (IH now).
  - apply (IH now); [exact Htimed|]. by apply same_live_sweep.
Qed.

Lemma timed_from_later (ops : list (Z * Op)) (t t' : Z) :
  (t <= t')%Z -> timed_from t' ops -> timed_from t ops.
Proof. destruct ops as [|[now op] ops]; cbn; [done|]. intros Ht [Hn Hrest]. split; [lia | done]. Qed.

(** X15: the sweep cannot be observed: taking one run of it out of a history
    changes no verdict, retry hints included, of any request, before or
    after it. *)
Theorem sweep_is_unobservable (t0 t : Z) (before after : list (Z * Op)) (st : Limits) :
  timed_from t0 (before ++ (t, Sweep) :: after) ->
  verdicts (before ++ (t, Sweep) :: after) st = verdicts (before ++ after) st.
Proof.
  revert t0 st. induction before as [|[now op] before IH]; intros t0 st Htimed.
  - destruct Htimed as [_ Htimed]. cbn [app verdicts].
    apply (same_live_verdicts after t); [exact Htimed | apply sweep_same_live].
  - destruct Htimed as [_ Htimed]. destruct op as [ip|]; cbn [app verdicts].
    + f_equal. by apply (IH now).
    + by apply (IH now).
Qed.

Lemma sweep_is_unobservable_witness :
  verdicts (burst ++ (13%Z, Sweep) :: [(70000%Z, Check (Str.lit "1.2.3.4"))]) (loaded 0) =
  verdicts (burst ++ [(70000%Z, Check (Str.lit "1.2.3.4"))]) (loaded 0).
Proof.
  apply (sweep_is_unobservable 0 13 burst [(70000%Z, Check (Str.lit "1.2.3.4"))] (loaded 0)).
  unfold burst. cbn. lia.
Defined.

(** ** The client key *)

Lemma before_comma_app (a rest : list N) :
  44%N ∉ a -> Str.before_comma (a ++ 44%N :: rest) = a /\ Str.before_comma a = a.
Proof.
  induction a as [|c a IH]; intros Hno; cbn; [done|].
  apply not_elem_of_cons in Hno as [Hc Ha].
  destruct (N.eqb_spec c 44) as [->|_]; [done|].
  destruct (IH Ha) as [-> ->]. done.
Qed.

Lemma trimStart_blank (pre s : list N) :
  Forall (fun c => Str.is_white_space c = true) pre -> Str.trimStart (pre ++ s) = Str.trimStart s.
Proof.
  induction 1 as [|c pre Hc _ IH]; [done|]. cbn [app Str.trimStart]. by rewrite Hc.
Qed.

Lemma trimStart_solid (s : list N) :
  Str.is_white_space <$> head s = Some false -> Str.trimStart s = s.
Proof. destruct s as [|c s]; [done|]. cbn. intros [= ->]. done. Qed.

Lemma head_rev (s : list N) : head (rev s) = last s.
Proof.
  induction s as [|c s IH]; [done|]. cbn [rev].
  destruct s as [|d s]; [done|]. rewrite last_cons_cons, <- IH.
  cbn [rev]. by destruct (rev s).
Qed.

(** [trim] removes the white space around a text that starts and ends with
    other characters, and nothing else. *)
Lemma trim_strips (pre a post : list N) :
  Forall (fun c => Str.is_white_space c = true) pre ->
  Forall (fun c => Str.is_white_space c = true) post ->
  Str.is_white_space <$> head a = Some false ->
  Str.is_white_space <$> last a = Some false ->
  Str.trim (pre ++ a ++ post) = a.
Proof.
  intros Hpre Hpost Hh Hl. unfold Str.trim, Str.trimEnd.
  rewrite trimStart_blank by exact Hpre.
  rewrite (trimStart_solid (a ++ post)).
  2:{ destruct a as [|c a]; [done | exact Hh]. }
  rewrite rev_app_distr, (trimStart_blank (rev post)).
  2:{ apply Forall_forall. intros c Hc. rewrite Forall_forall in Hpost. apply Hpost.
      apply list_elem_of_In. apply in_rev. by apply list_elem_of_In. }
  rewrite (trimStart_solid (rev a)) by (by rewrite head_rev).
  apply rev_involutive.
Qed.

Lemma blank_has_no_comma (s : list N) :
  Forall (fun c => Str.is_white_space c = true) s -> 44%N ∉ s.
Proof.
  intros Hs Hin. rewrite Forall_forall in Hs. specialize (Hs _ Hin). discriminate Hs.
Qed.

(** X16: the key under which a request is counted is never the empty string,
    and of an [x-forwarded-for] list only the first entry counts, without
    the white space around it: what follows the first comma does not change
    the key, and when the first entry is a text [a] that has no comma and
    starts and ends with characters other than white space, with any white
    space before and after it, the key is [a]. *)
Theorem client_key_is_first_hop (pre a post rest : list N) (rip : option (list N)) :
  Forall (fun c => Str.is_white_space c = true) pre ->
  Forall (fun c => Str.is_white_space c = true) post ->
  44%N ∉ a ->
  Str.is_white_space <$> head a = Some false ->
  Str.is_white_space <$> last a = Some false ->
  getClientIp (Some (pre ++ a ++ post ++ 44%N :: rest)) rip = a /\
  getClientIp (Some (pre ++ a ++ post)) rip = a /\
  (forall b more, 44%N ∉ b ->
     getClientIp (Some (b ++ 44%N :: more)) rip = getClientIp (Some b) rip) /\
  (forall v, getClientIp v rip <> []).
Proof.
  intros Hpre Hpost Hno Hh Hl.
  assert (Hfirst : forall b more, 44%N ∉ b ->
             getClientIp (Some (b ++ 44%N :: more)) rip = getClientIp (Some b) rip).
  { intros b more Hb. destruct (before_comma_app b more Hb) as [H1 H2].
    unfold getClientIp. cbn [fmap option_fmap option_map]. by rewrite H1, H2. }
  assert (Hcomma : 44%N ∉ pre ++ a ++ post).
  { intros Hin. apply elem_of_app in Hin as [Hin | Hin].
    - by apply (blank_has_no_comma pre).
    - apply elem_of_app in Hin as [Hin | Hin]; [done | by apply (blank_has_no_comma post)]. }
  assert (Hkey : getClientIp (Some (pre ++ a ++ post)) rip = a).
  { destruct (before_comma_app (pre ++ a ++ post) [] Hcomma) as [_ H2].
    unfold getClientIp. cbn [fmap option_fmap option_map].
    rewrite H2, trim_strips by assumption.
    destruct a as [|c a]; [discriminate Hh | reflexivity]. }
  split; [|split; [exact Hkey | split; [exact Hfirst|]]].
  - replace (pre ++ a ++ post ++ 44%N :: rest) with ((pre ++ a ++ post) ++ 44%N :: rest)
      by (by rewrite <- !app_assoc).
    rewrite Hfirst by exact Hcomma. exact Hkey.
  - intros v. unfold getClientIp.
    destruct ((fun v0 => Str.trim (Str.before_comma v0)) <$> v) as [[|c s]|];
      cbn [Str.truthy]; try done;
      destruct rip as [[|c' r]|]; cbn [Str.truthy]; by vm_compute.
Qed.

Lemma client_key_is_first_hop_witness :
  getClientIp (Some (Str.lit " " ++ Str.lit "1.2.3.4" ++ Str.lit " " ++
                     44%N :: Str.lit " 10.0.0.1")) None = Str.lit "1.2.3.4" /\
  getClientIp (Some (Str.lit " " ++ Str.lit "1.2.3.4" ++ Str.lit " ")) None =
    Str.lit "1.2.3.4" /\
  (forall b more, 44%N ∉ b ->
     getClientIp (Some (b ++ 44%N :: more)) None = getClientIp (Some b) None) /\
  (forall v, getClientIp v None <> []).
Proof.
  apply (client_key_is_first_hop (Str.lit " ") (Str.lit "1.2.3.4") (Str.lit " ")
           (Str.lit " 10.0.0.1") None).
  - vm_compute. repeat constructor.
  - vm_compute. repeat constructor.
  - vm_compute. intros H. repeat (apply elem_of_cons in H as [H|H]; [discriminate H|]).
    by apply elem_of_nil in H.
  - reflexivity.
  - reflexivity.
Defined.

(** The header [" 1.2.3.4 , 10.0.0.1"] gives the key ["1.2.3.4"]; a blank
    first entry gives the [x-real-ip] value, and without one ["unknown"]. *)
Example client_keys :
  getClientIp (Some (Str.lit " 1.2.3.4 , 10.0.0.1")) None = Str.lit "1.2.3.4" /\
  getClientIp (Some (Str.lit "  ,10.0.0.1")) (Some (Str.lit "10.9.8.7")) = Str.lit "10.9.8.7" /\
  getClientIp (Some (Str.lit " ")) None = Str.lit "unknown" /\
  getClientIp None (Some []) = Str.lit "unknown".
Proof. repeat split; vm_compute; reflexivity. Qed.

(** ** The page *)

Lemma truthy_nonempty (s : list N) : Str.truthy s = true <-> s <> [].
Proof. destruct s; cbn; split; intros H; congruence. Qed.

Lemma page_inv_initial : Page.inv Page.initial.
Proof.
  unfold Page.inv. cbn. repeat split; try done.
  - lia.
  - vm_compute. apply list_elem_of_here.
  - intros b Hb. by apply elem_of_nil in Hb.
Qed.

Lemma page_inv_step (e : Page.Event) (s s' : Page.State) :
  Page.inv s -> Page.step e s = Some s' -> Page.inv s'.
Proof.
  intros (Hlen & Hsp & Hpend & Hload & Hplay & Hsent) Hstep.
  destruct e as [value | v | | reply captured | |]; cbn [Page.step] in Hstep.
  - injection Hstep as <-. unfold Page.inv, Page.onChange. cbn.
    split_and!; try done. rewrite length_take. lia.
  - case_bool_decide as Hv; [|discriminate]. injection Hstep as <-.
    unfold Page.inv, Page.setSpeaker. cbn. split_and!; done.
  - unfold Page.disabled in Hstep.
    destruct (Page.loading s) eqn:Hl; [discriminate|]. cbn [orb] in Hstep.
    destruct (negb (Str.truthy (Str.trim (Page.text s)))) eqn:Hblank; [discriminate|].
    injection Hstep as <-. unfold Page.handleGenerate. rewrite Hblank.
    unfold Page.inv. cbn. rewrite Hpend.
    split_and!; try done.
    intros b Hb. apply elem_of_cons in Hb as [-> | Hb]; [|by apply Hsent].
    exists (Page.text s), (Page.speaker s). split_and!; try done.
    apply truthy_nonempty. by destruct (Str.truthy (Str.trim (Page.text s))).
  - destruct (Page.pending s) as [|n] eqn:Hp; [discriminate|]. injection Hstep as <-.
    destruct (Page.loading s) eqn:Hl; [|discriminate].
    destruct (Hload eq_refl) as [Hres Herr]. injection Hpend as ->.
    unfold Page.inv, Page.settle.
    destruct reply as [|ok data]; [|destruct ok]; cbn; rewrite ?Hp; cbn;
      split_and!; try done; by intros _; apply Hplay.
  - destruct (Page.result s) as [d|] eqn:Hres; [|discriminate]. injection Hstep as <-.
    unfold Page.inv, Page.handlePlayPause. cbn. rewrite Hres.
    split_and!; done.
  - injection Hstep as <-. unfold Page.inv, Page.onEnded. cbn.
    split_and!; done.
Qed.

Lemma page_inv_run (events : list Page.Event) :
  forall s s', Page.inv s -> Page.run events s = Some s' -> Page.inv s'.
Proof.
  induction events as [|e events IH]; intros s s' Hinv Hrun; cbn [Page.run] in Hrun.
  - by injection Hrun as <-.
  - destruct (Page.step e s) as [s1|] eqn:Hstep; [|discriminate].
    apply (IH s1); [by apply (page_inv_step e s) | exact Hrun].
Qed.

(** X17: whatever was typed or pasted, a request the page has sent is never
    refused by the route's validation: its text is a string that is not
    blank and has at most 500 code units, and its voice is a listed one, so
    the answer is never "Text is required", never INPUT_TOO_LONG, and
    reading the body never fails. *)
Theorem page_requests_pass_validation
        (events : list Page.Event) (s : Page.State) (b : Route.Body)
        (env : Env) (now : Z) (fwd rip : option (list N)) (st : Limits) :
  Page.run events Page.initial = Some s ->
  b ∈ Page.sent s ->
  let response := fst (POST env now (mkRequest fwd rip (Some b)) st) in
  response <> TextRequired /\ response <> InputTooLong /\ response <> Unhandled /\
  exists v, body_speaker b = Some v /\ v ∈ Page.SPEAKERS.
Proof.
  intros Hrun Hb response.
  pose proof (page_inv_run events _ _ page_inv_initial Hrun) as (_ & _ & _ & _ & _ & Hsent).
  destruct (Hsent b Hb) as (t & v & -> & Htrim & Hlen & Hv).
  assert (Hresp : response <> TextRequired /\ response <> InputTooLong /\
                  response <> Unhandled).
  { subst response. unfold POST.
    destruct (checkRateLimit _ now st) as [verdict st'].
    destruct (negb (allowed verdict)); cbn [fst json body_text body_speaker];
      [repeat split; discriminate|].
    assert (Ht : Str.truthy t = true).
    { apply truthy_nonempty. intros ->. by apply Htrim. }
    rewrite Ht. cbn [negb orb].
    replace (Z.of_nat (length (Str.trim t)) =? 0)%Z with false.
    2:{ symmetry. apply Z.eqb_neq. destruct (Str.trim t); [done | cbn; lia]. }
    replace (Z.of_nat (length t) >? MAX_INPUT_LENGTH)%Z with false.
    2:{ symmetry. rewrite Z.gtb_ltb. apply Z.ltb_ge. unfold MAX_INPUT_LENGTH. lia. }
    destruct (negb (anthropicKey env)); [repeat split; discriminate|].
    destruct (negb (sarvamKey env)); [repeat split; discriminate|].
    destruct (generate env t (Some v)) as [[bt au]|]; cbn [fst]; repeat split; discriminate. }
  destruct Hresp as (H1 & H2 & H3). repeat split; try done.
  exists v. by split.
Qed.

Lemma page_requests_pass_validation_witness :
  let b := mkBody (Some (Str.lit "hello")) (Some (Str.lit "ritu")) in
  let response := fst (POST demo_env 13 (mkRequest None None (Some b)) (loaded 0)) in
  response <> TextRequired /\ response <> InputTooLong /\ response <> Unhandled /\
  exists v, body_speaker b = Some v /\ v ∈ Page.SPEAKERS.
Proof.
  apply (page_requests_pass_validation Page.session Page.session_state).
  - vm_compute. reflexivity.
  - vm_compute. apply list_elem_of_here.
Defined.

(** X18: at most one request is in flight: there is one exactly while [loading]
    is set, and as long as it is neither a result nor an error is on
    display. *)
Theorem one_request_in_flight (events : list Page.Event) (s : Page.State) :
  Page.run events Page.initial = Some s ->
  Page.pending s = (if Page.loading s then 1 else 0)%nat /\
  (Page.loading s = true -> Page.result s = None /\ Page.error s = None) /\
  (Page.loading s = true -> Page.step Page.ClickGenerate s = None).
Proof.
  intros Hrun.
  pose proof (page_inv_run events _ _ page_inv_initial Hrun) as (_ & _ & Hp & Hl & _).
  repeat split; try done; try (by apply Hl).
  intros Hload. cbn [Page.step]. unfold Page.disabled. by rewrite Hload.
Qed.

Lemma one_request_in_flight_witness :
  Page.pending Page.session_state =
    (if Page.loading Page.session_state then 1 else 0)%nat /\
  (Page.loading Page.session_state = true ->
   Page.result Page.session_state = None /\ Page.error Page.session_state = None) /\
  (Page.loading Page.session_state = true ->
   Page.step Page.ClickGenerate Page.session_state = None).
Proof.
  apply (one_request_in_flight Page.session). vm_compute. reflexivity.
Defined.

(** X19: the player always mounts paused: as long as the page has no result,
    [isPlaying] is false, also after the next event, so the player that a
    result brings up gets [isPlaying = false] at its first render. *)
Theorem player_mounts_paused
        (events : list Page.Event) (s s' : Page.State) (e : Page.Event) :
  Page.run events Page.initial = Some s ->
  Page.result s = None ->
  Page.step e s = Some s' ->
  Page.isPlaying s = false /\ Page.isPlaying s' = false.
Proof.
  intros Hrun Hres Hstep.
  pose proof (page_inv_run events _ _ page_inv_initial Hrun) as (_ & _ & _ & _ & Hplay & _).
  specialize (Hplay Hres). split; [exact Hplay|].
  destruct e as [value | v | | reply captured | |]; cbn [Page.step] in Hstep.
  - injection Hstep as <-. exact Hplay.
  - case_bool_decide; [|discriminate]. injection Hstep as <-. exact Hplay.
  - destruct (Page.disabled s); [discriminate|]. injection Hstep as <-.
    unfold Page.handleGenerate. by destruct (negb _).
  - destruct (Page.pending s); [discriminate|]. injection Hstep as <-.
    unfold Page.settle. destruct reply as [|ok data]; [|destruct ok]; exact Hplay.
  - rewrite Hres in Hstep. discriminate.
  - injection Hstep as <-. reflexivity.
Qed.

Lemma player_mounts_paused_witness :
  Page.isPlaying (Page.handleGenerate (Page.onChange (Str.lit "hello") Page.initial)) = false /\
  Page.isPlaying (Page.settle Page.Rejected true
                    (Page.handleGenerate (Page.onChange (Str.lit "hello") Page.initial))) = false.
Proof.
  apply (player_mounts_paused [Page.Change (Str.lit "hello"); Page.ClickGenerate] _ _
                              (Page.Settle Page.Rejected true)).
  - vm_compute. reflexivity.
  - vm_compute. reflexivity.
  - vm_compute. reflexivity.
Defined.

(** X20: the page never swaps the payload of a mounted player: the player is
    rendered only while [result] is set, and from a state with a result the
    next event leaves that same result or none at all, so a new result
    always mounts a new player. *)
Theorem payload_fixed_while_mounted
        (events : list Page.Event) (s s' : Page.State) (e : Page.Event) (d : Page.Data) :
  Page.run events Page.initial = Some s ->
  Page.result s = Some d ->
  Page.step e s = Some s' ->
  (Page.result s' = Some d \/ Page.result s' = None) /\
  Page.loading s = false /\ Page.pending s = 0%nat.
Proof.
  intros Hrun Hres Hstep.
  pose proof (page_inv_run events _ _ page_inv_initial Hrun) as (_ & _ & Hpend & Hload & _).
  assert (Hl : Page.loading s = false).
  { destruct (Page.loading s); [|done]. destruct (Hload eq_refl) as [Hn _]. congruence. }
  rewrite Hl in Hpend. split; [|done].
  destruct e as [value | v | | reply captured | |]; cbn [Page.step] in Hstep.
  - injection Hstep as <-. by left.
  - case_bool_decide; [|discriminate]. injection Hstep as <-. by left.
  - destruct (Page.disabled s); [discriminate|]. injection Hstep as <-.
    unfold Page.handleGenerate. destruct (negb _); [by left | by right].
  - rewrite Hpend in Hstep. discriminate.
  - rewrite Hres in Hstep. injection Hstep as <-. by left.
  - injection Hstep as <-. by left.
Qed.

Lemma payload_fixed_while_mounted_witness :
  (Page.result (Page.handleGenerate Page.session_state) = Page.result Page.session_state \/
   Page.result (Page.handleGenerate Page.session_state) = None) /\
  Page.loading Page.session_state = false /\ Page.pending Page.session_state = 0%nat.
Proof.
  apply (payload_fixed_while_mounted Page.session Page.session_state
           (Page.handleGenerate Page.session_state) Page.ClickGenerate
           (Page.mkData None None None (Some (Str.lit "hello da"))
                        (Some (Str.lit "UklGRg=="))));
    vm_compute; reflexivity.
Defined.

(** In the sample session the next click on Generate takes the result away
    before anything else is shown. *)
Example generate_unmounts_player :
  Page.result Page.session_state <> None /\
  Page.result (Page.handleGenerate Page.session_state) = None.
Proof. split; vm_compute; [discriminate | reflexivity]. Qed.
